(** * StarRocks backend: connector scan node and lake tablet manager

    A shallow embedding of
      - be/src/storage/lake/tablet_manager.cpp
      - be/src/exec/vectorized/connector_scan_node.cpp
    and the properties of the design specification that are stated about
    them.

    Conventions of the embedding.
      - A [Status] is modelled by its code; messages are dropped.
      - Protobuf messages are records; an [optional] sub-message whose
        presence the code tests with [has_x()] is an [option].
      - Stateful code threads its state explicitly.  Code that may leave the
        defined behaviour of C++ (an out-of-range [RepeatedField] access, a
        [std::get] on the wrong alternative of a variant) returns [None].
      - The collaborators that are only consumed through an interface (file
        system, LRU cache, thread pool, data source) answer from a script
        carried by the state, so that every statement quantifies over all
        their behaviours and every definition still computes. *)

From Stdlib Require Import ZArith Lia.
From stdpp Require Import gmap list fin_maps strings.

Local Open Scope Z_scope.

(** ** Status codes (common/status.h) *)

Inductive Status :=
  | OK
  | EndOfFile
  | NotFound
  | Corruption
  | InvalidArgument
  | InternalError
  | Aborted
  | Cancelled
  | NotSupported
  | IOError
  | MemLimitExceeded.

#[global] Instance Status_eq_dec : EqDecision Status.
Proof. solve_decision. Defined.

Definition ok (st : Status) : bool :=
  match st with OK => true | _ => false end.

Definition is_not_found (st : Status) : bool :=
  match st with NotFound => true | _ => false end.

Definition is_end_of_file (st : Status) : bool :=
  match st with EndOfFile => true | _ => false end.

(** [StatusOr<T>]: a value, or a status that is not [OK]. *)
Inductive StatusOr (A : Type) :=
  | Value (a : A)
  | Error (st : Status).
Arguments Value {A} a.
Arguments Error {A} st.

Definition status_of {A} (r : StatusOr A) : Status :=
  match r with Value _ => OK | Error st => st end.

(** ** State passing

    [StateM S A] is a computation over a state [S] that returns an [A];
    [None] is an execution that leaves defined behaviour. *)
Definition StateM (S A : Type) : Type := S → option (A * S).

Definition ret {S A} (a : A) : StateM S A := fun s => Some (a, s).

Definition bind {S A B} (m : StateM S A) (k : A → StateM S B) : StateM S B :=
  fun s => match m s with
           | Some (a, s') => k a s'
           | None => None
           end.

Definition abort {S A} : StateM S A := fun _ => None.

Notation "x <- m ;; k" := (bind m (fun x => k))
  (at level 100, m at next level, right associativity).

Module Lake.

(** ** Data model (gen_cpp/lake_types.pb.h) *)

(** Modelled from the spec: the protobuf declarations of the lake messages
    are not among the sources.  The fields are those of section 3 of the
    specification and those the code reads and writes.  In the
    declarations (lake_types.proto) the id of a rowset and
    [next_rowset_id] are [uint32] fields; [segments_size()] is the [int]
    size of a repeated field. *)
Definition TabletSchema := list Z.

Record RowsetMetadata := {
  rowset_id : Z;
  segments : list string;
  num_rows : Z
}.

Definition segments_size (r : RowsetMetadata) : Z :=
  Z.of_nat (length (segments r)).

(** A value as a [uint32]: the sum of a [uint32] and an [int] is taken in
    [unsigned int] and wraps around at 2^32. *)
Definition to_uint32 (x : Z) : Z := x mod 4294967296.

Definition set_id (v : Z) (r : RowsetMetadata) : RowsetMetadata :=
  {| rowset_id := v; segments := segments r; num_rows := num_rows r |}.

Record TabletMetadata := {
  tablet_id : Z;
  version : Z;
  next_rowset_id : Z;
  schema : TabletSchema;
  rowsets : list RowsetMetadata
}.

Definition set_version (v : Z) (m : TabletMetadata) : TabletMetadata :=
  {| tablet_id := tablet_id m; version := v;
     next_rowset_id := next_rowset_id m; schema := schema m;
     rowsets := rowsets m |}.

Definition set_next_rowset_id (v : Z) (m : TabletMetadata) : TabletMetadata :=
  {| tablet_id := tablet_id m; version := version m;
     next_rowset_id := v; schema := schema m;
     rowsets := rowsets m |}.

Definition set_rowsets (rs : list RowsetMetadata) (m : TabletMetadata)
  : TabletMetadata :=
  {| tablet_id := tablet_id m; version := version m;
     next_rowset_id := next_rowset_id m; schema := schema m;
     rowsets := rs |}.

Record TxnLogPB_OpWrite := {
  op_write_rowset : option RowsetMetadata
}.

Record TxnLogPB_OpCompaction := {
  input_rowsets : list Z;
  output_rowset : option RowsetMetadata
}.

Inductive TxnLogPB_OpSchemaChange := OpSchemaChange.

Record TxnLog := {
  log_tablet_id : option Z;
  log_txn_id : option Z;
  op_write : option TxnLogPB_OpWrite;
  op_compaction : option TxnLogPB_OpCompaction;
  op_schema_change : option TxnLogPB_OpSchemaChange
}.

(** ** Applying transaction logs *)

(** [apply_write_log], tablet_manager.cpp:346.  The sum of line 351 is
    stored in the [uint32] field [next_rowset_id]. *)
Definition apply_write_log (op : TxnLogPB_OpWrite) (metadata : TabletMetadata)
  : Status * TabletMetadata :=
  match op_write_rowset op with
  | Some r =>
      if 0 <? num_rows r then
        let rowset := set_id (next_rowset_id metadata) r in
        let metadata1 := set_rowsets (rowsets metadata ++ [rowset]) metadata in
        (OK, set_next_rowset_id
               (to_uint32 (next_rowset_id metadata1 + segments_size rowset))
               metadata1)
      else (OK, metadata)
  | None => (OK, metadata)
  end.

(** [std::find_if(first, last, Finder{id})] over the rowsets, with iterators
    as indices: the result is the index of the first rowset at or after
    [from] whose id is [id], and [length rs] (that is [end()]) when there is
    none. *)
Fixpoint find_if (id : Z) (rs : list RowsetMetadata) : nat :=
  match rs with
  | [] => 0%nat
  | r :: rs' => if rowset_id r =? id then 0%nat else S (find_if id rs')
  end.

Definition find_if_from (from : nat) (id : Z) (rs : list RowsetMetadata)
  : nat :=
  (from + find_if id (drop from rs))%nat.

(** The safety-check loop of [apply_compaction_log], lines 378-388:
    [for (int i = 1, sz = metadata->rowsets_size(); i < sz; i++)].
    [iters] is the number of iterations that remain, [i] the loop index and
    [pre] the position of the previous input.  [input_rowsets(i)] with [i]
    outside the repeated field is an out-of-range access. *)
Fixpoint adjacency_loop (inputs : list Z) (rs : list RowsetMetadata)
    (iters : nat) (i : nat) (pre : nat) : option (StatusOr nat) :=
  match iters with
  | O => Some (Value pre)
  | S iters' =>
      match inputs !! i with
      | None => None
      | Some input_id =>
          let it := find_if_from (S pre) input_id rs in
          if (it =? length rs)%nat then Some (Error InternalError)
          else if negb (it =? S pre)%nat then Some (Error InternalError)
          else adjacency_loop inputs rs iters' (S i) it
      end
  end.

(** [mutable_rowsets()->erase(first, last)]. *)
Definition erase (first last : nat) (rs : list RowsetMetadata)
  : list RowsetMetadata :=
  take first rs ++ drop last rs.

(** [apply_compaction_log], tablet_manager.cpp:356.  The [DCHECK] of line
    359 is compiled out of release builds and has no effect here.  The sum
    of line 396 is stored in the [uint32] field [next_rowset_id]. *)
Definition apply_compaction_log (op : TxnLogPB_OpCompaction)
    (metadata : TabletMetadata) : option (Status * TabletMetadata) :=
  match input_rowsets op with
  | [] => Some (OK, metadata)
  | input_id :: _ =>
      let rs := rowsets metadata in
      let first_input_pos := find_if_from 0 input_id rs in
      if (first_input_pos =? length rs)%nat then
        Some (InternalError, metadata)
      else
        match adjacency_loop (input_rowsets op) rs
                (length rs - 1)%nat 1%nat first_input_pos with
        | None => None
        | Some (Error st) => Some (st, metadata)
        | Some (Value pre_input_pos) =>
            let end_input_pos := S pre_input_pos in
            match output_rowset op with
            | Some out =>
                if 0 <? num_rows out then
                  let output := set_id (next_rowset_id metadata) out in
                  let metadata1 :=
                    set_rowsets (<[first_input_pos := output]> rs) metadata in
                  let metadata2 :=
                    set_next_rowset_id
                      (to_uint32
                         (next_rowset_id metadata1 + segments_size output))
                      metadata1 in
                  Some (OK, set_rowsets
                              (erase (S first_input_pos) end_input_pos
                                 (rowsets metadata2)) metadata2)
                else
                  Some (OK, set_rowsets
                              (erase first_input_pos end_input_pos rs)
                              metadata)
            | None =>
                Some (OK, set_rowsets
                            (erase first_input_pos end_input_pos rs) metadata)
            end
        end
  end.

(** [apply_txn_log], tablet_manager.cpp:405. *)
Definition apply_txn_log (log : TxnLog) (metadata : TabletMetadata)
  : option (Status * TabletMetadata) :=
  let '(st1, metadata1) :=
    match op_write log with
    | Some w => apply_write_log w metadata
    | None => (OK, metadata)
    end in
  if negb (ok st1) then Some (st1, metadata1)
  else
    match
      match op_compaction log with
      | Some c => apply_compaction_log c metadata1
      | None => Some (OK, metadata1)
      end
    with
    | None => None
    | Some (st2, metadata2) =>
        if negb (ok st2) then Some (st2, metadata2)
        else
          match op_schema_change log with
          | Some _ => Some (NotSupported, metadata2)
          | None => Some (OK, metadata2)
          end
    end.

(** ** Object store, metacache and the state of the manager *)

(** Modelled from the spec: [LocationProvider] is a collaborator known by its
    interface only.  Object paths are symbolic: [tbl_<tablet>_<version>] is
    [MetaLoc], [txn_<tablet>_<txn>] is [TxnLoc] and the cache key
    [schema_<tablet>] is [SchemaKey]; different arguments give different
    paths (section 6 of the specification). *)
Inductive Path :=
  | MetaLoc (tablet version : Z)
  | TxnLoc (tablet txn : Z)
  | SchemaKey (tablet : Z).

#[global] Instance Path_eq_dec : EqDecision Path.
Proof. solve_decision. Defined.

Definition Path_encode (p : Path) : Z * Z + (Z * Z + Z) :=
  match p with
  | MetaLoc t v => inl (t, v)
  | TxnLoc t x => inr (inl (t, x))
  | SchemaKey t => inr (inr t)
  end.

Definition Path_decode (e : Z * Z + (Z * Z + Z)) : Path :=
  match e with
  | inl (t, v) => MetaLoc t v
  | inr (inl (t, x)) => TxnLoc t x
  | inr (inr t) => SchemaKey t
  end.

#[global] Instance Path_countable : Countable Path.
Proof.
  apply (inj_countable' Path_encode Path_decode).
  intros []; reflexivity.
Defined.

Definition tablet_metadata_location (tablet version : Z) : Path :=
  MetaLoc tablet version.

Definition txn_log_location (tablet txn : Z) : Path :=
  TxnLoc tablet txn.

Definition tablet_schema_cache_key (tablet : Z) : Path :=
  SchemaKey tablet.

(** What an object holds: the serialization of a metadata, of a txn log, or
    bytes that are rejected on reading (they do not parse, or there are more
    than [INT_MAX] of them).  A blob that is not the serialization of the
    message that is asked for counts as unparsable. *)
Inductive Blob :=
  | BMetadata (m : TabletMetadata)
  | BTxnLog (l : TxnLog)
  | BCorrupt.

(** [CacheValue], the tagged union stored in the metacache. *)
Inductive CacheValue :=
  | CVMetadata (m : TabletMetadata)
  | CVTxnLog (l : TxnLog)
  | CVSchema (s : TabletSchema).

(** The decision of the LRU cache on one insertion: whether a handle is
    returned, and which entries are evicted to make room. *)
Record Verdict := {
  taken : bool;
  evicted : list Path
}.

Record World := {
  files : gmap Path Blob;
  metacache : gmap Path CacheValue;
  (** results of the next calls into the file system; [OK], or a script
      that has run out, lets the call go through *)
  io_script : list Status;
  (** decisions of the cache on the next insertions; a script that has run
      out admits and evicts nothing *)
  cache_script : list Verdict
}.

Definition with_files (f : gmap Path Blob) (w : World) : World :=
  {| files := f; metacache := metacache w;
     io_script := io_script w; cache_script := cache_script w |}.

Definition with_metacache (c : gmap Path CacheValue) (w : World) : World :=
  {| files := files w; metacache := c;
     io_script := io_script w; cache_script := cache_script w |}.

Definition with_io_script (s : list Status) (w : World) : World :=
  {| files := files w; metacache := metacache w;
     io_script := s; cache_script := cache_script w |}.

Definition with_cache_script (s : list Verdict) (w : World) : World :=
  {| files := files w; metacache := metacache w;
     io_script := io_script w; cache_script := s |}.

(** Computations of the manager: state passing over [World]. *)
Abbreviation M := (StateM World).

(** *** File system (fs/fs.h), consumed through its interface *)

Definition fs_call : M Status := fun w =>
  match io_script w with
  | [] => Some (OK, w)
  | st :: rest => Some (st, with_io_script rest w)
  end.

(** [fs::new_random_access_file]: the handle is the content of the object. *)
Definition new_random_access_file (path : Path) : M (StatusOr Blob) :=
  st <- fs_call ;;
  if negb (ok st) then ret (Error st)
  else fun w =>
    match files w !! path with
    | None => Some (Error NotFound, w)
    | Some b => Some (Value b, w)
    end.

Definition get_size : M Status := fs_call.

Definition read_at_fully : M Status := fs_call.

(** [fs::new_writable_file] with [CREATE_OR_OPEN_WITH_TRUNCATE]: the object
    exists and is truncated; until data is appended it is a partial
    object. *)
Definition new_writable_file (path : Path) : M Status :=
  st <- fs_call ;;
  if negb (ok st) then ret st
  else fun w => Some (OK, with_files (<[path := BCorrupt]> (files w)) w).

Definition append (path : Path) (data : Blob) : M Status :=
  st <- fs_call ;;
  if negb (ok st) then ret st
  else fun w => Some (OK, with_files (<[path := data]> (files w)) w).

Definition close_file : M Status := fs_call.

(** Modelled from the spec: [fs::delete_file] (fs/fs.h) is not among the
    sources, and the specification does not say what the deletion of an
    object that does not exist answers.  Every answer that is not [OK],
    [NotFound] for a missing object included, comes from the script and
    leaves the store alone; after the answer [OK] the object is gone,
    whether it existed or not. *)
Definition delete_file (path : Path) : M Status :=
  st <- fs_call ;;
  if negb (ok st) then ret st
  else fun w => Some (OK, with_files (delete path (files w)) w).

(** *** LRU cache (util/lru_cache.h), consumed through its interface *)

Definition evict (ks : list Path) (c : gmap Path CacheValue)
  : gmap Path CacheValue :=
  foldr delete c ks.

(** [_metacache->insert]: [true] when a handle is returned. *)
Definition cache_insert (key : Path) (value : CacheValue) : M bool := fun w =>
  match cache_script w with
  | [] => Some (true, with_metacache (<[key := value]> (metacache w)) w)
  | v :: rest =>
      let c := if taken v then <[key := value]> (metacache w)
               else metacache w in
      Some (taken v,
            with_cache_script rest (with_metacache (evict (evicted v) c) w))
  end.

Definition cache_lookup (key : Path) : M (option CacheValue) := fun w =>
  Some (metacache w !! key, w).

(** ** TabletManager *)

(** [TabletManager::fill_metacache], tablet_manager.cpp:51.  The weight of
    the entry only informs the decision of the cache, which the model takes
    from [cache_script]. *)
Definition fill_metacache (key : Path) (ptr : CacheValue) : M bool :=
  cache_insert key ptr.

(** [TabletManager::lookup_tablet_metadata], tablet_manager.cpp:62.
    [std::get] on another alternative throws. *)
Definition lookup_tablet_metadata (key : Path) : M (option TabletMetadata) :=
  handle <- cache_lookup key ;;
  match handle with
  | None => ret None
  | Some (CVMetadata metadata) => ret (Some metadata)
  | Some _ => abort
  end.

(** [TabletManager::lookup_txn_log], tablet_manager.cpp:84. *)
Definition lookup_txn_log (key : Path) : M (option TxnLog) :=
  handle <- cache_lookup key ;;
  match handle with
  | None => ret None
  | Some (CVTxnLog log) => ret (Some log)
  | Some _ => abort
  end.

(** [TabletManager::erase_metacache], tablet_manager.cpp:95. *)
Definition erase_metacache (key : Path) : M unit := fun w =>
  Some (tt, with_metacache (delete key (metacache w)) w).

(** [TabletManager::put_tablet_metadata], tablet_manager.cpp:149. *)
Definition put_tablet_metadata (metadata : TabletMetadata) : M Status :=
  let metadata_location :=
    tablet_metadata_location (tablet_id metadata) (version metadata) in
  st <- new_writable_file metadata_location ;;
  if negb (ok st) then ret st else
  st <- append metadata_location (BMetadata metadata) ;;
  if negb (ok st) then ret st else
  st <- close_file ;;
  if negb (ok st) then ret st else
  inserted <- fill_metacache metadata_location (CVMetadata metadata) ;;
  ret OK.

(** [TabletManager::load_tablet_metadata], tablet_manager.cpp:168. *)
Definition load_tablet_metadata (metadata_location : Path)
  : M (StatusOr TabletMetadata) :=
  rf <- new_random_access_file metadata_location ;;
  match rf with
  | Error st => ret (Error st)
  | Value blob =>
      st <- get_size ;;
      if negb (ok st) then ret (Error st) else
      st <- read_at_fully ;;
      if negb (ok st) then ret (Error st) else
      match blob with
      | BMetadata meta => ret (Value meta)
      | _ => ret (Error Corruption)
      end
  end.

(** [TabletManager::get_tablet_metadata(path, fill_cache)],
    tablet_manager.cpp:190. *)
Definition get_tablet_metadata_path (path : Path) (fill_cache : bool)
  : M (StatusOr TabletMetadata) :=
  cached <- lookup_tablet_metadata path ;;
  match cached with
  | Some ptr => ret (Value ptr)
  | None =>
      res <- load_tablet_metadata path ;;
      match res with
      | Error st => ret (Error st)
      | Value ptr =>
          if fill_cache then
            inserted <- fill_metacache path (CVMetadata ptr) ;;
            ret (Value ptr)
          else ret (Value ptr)
      end
  end.

(** [TabletManager::get_tablet_metadata(tablet_id, version)],
    tablet_manager.cpp:186; [fill_cache] takes its default, [true]. *)
Definition get_tablet_metadata (tablet version : Z)
  : M (StatusOr TabletMetadata) :=
  get_tablet_metadata_path (tablet_metadata_location tablet version) true.


(** [TabletManager::load_txn_log], tablet_manager.cpp:232. *)
Definition load_txn_log (txn_log_path : Path) : M (StatusOr TxnLog) :=
  rf <- new_random_access_file txn_log_path ;;
  match rf with
  | Error st => ret (Error st)
  | Value blob =>
      st <- get_size ;;
      if negb (ok st) then ret (Error st) else
      st <- read_at_fully ;;
      if negb (ok st) then ret (Error st) else
      match blob with
      | BTxnLog meta => ret (Value meta)
      | _ => ret (Error Corruption)
      end
  end.

(** [TabletManager::get_txn_log(path, fill_cache)], tablet_manager.cpp:250. *)
Definition get_txn_log_path (path : Path) (fill_cache : bool)
  : M (StatusOr TxnLog) :=
  cached <- lookup_txn_log path ;;
  match cached with
  | Some ptr => ret (Value ptr)
  | None =>
      res <- load_txn_log path ;;
      match res with
      | Error st => ret (Error st)
      | Value ptr =>
          if fill_cache then
            inserted <- fill_metacache path (CVTxnLog ptr) ;;
            ret (Value ptr)
          else ret (Value ptr)
      end
  end.

(** [TabletManager::get_txn_log(tablet_id, txn_id)], tablet_manager.cpp:263. *)
Definition get_txn_log (tablet txn : Z) : M (StatusOr TxnLog) :=
  get_txn_log_path (txn_log_location tablet txn) true.

(** [TabletManager::put_txn_log], tablet_manager.cpp:267. *)
Definition put_txn_log (log : TxnLog) : M Status :=
  match log_tablet_id log with
  | None => ret InvalidArgument
  | Some tablet =>
      match log_txn_id log with
      | None => ret InvalidArgument
      | Some txn =>
          let txn_log_path := txn_log_location tablet txn in
          st <- new_writable_file txn_log_path ;;
          if negb (ok st) then ret st else
          st <- append txn_log_path (BTxnLog log) ;;
          if negb (ok st) then ret st else
          st <- close_file ;;
          if negb (ok st) then ret st else
          inserted <- fill_metacache txn_log_path (CVTxnLog log) ;;
          ret OK
      end
  end.

(** [TabletManager::delete_txn_log], tablet_manager.cpp:291. *)
Definition delete_txn_log (tablet txn : Z) : M Status :=
  let location := txn_log_location tablet txn in
  _ <- erase_metacache location ;;
  delete_file location.

(** ** Tablet *)

(** Modelled from the spec: class [Tablet] (storage/lake/tablet.h) is not
    among the sources.  A tablet is the manager together with a tablet id,
    and its methods forward to the manager with that id (section 2, "front
    door", and [get_tablet], tablet_manager.cpp:122). *)
Definition Tablet := Z.

Definition Tablet_get_metadata (tablet : Tablet) (version : Z)
  : M (StatusOr TabletMetadata) :=
  get_tablet_metadata tablet version.

Definition Tablet_put_metadata (tablet : Tablet) (metadata : TabletMetadata)
  : M Status :=
  put_tablet_metadata metadata.

Definition Tablet_get_txn_log (tablet : Tablet) (txn : Z)
  : M (StatusOr TxnLog) :=
  get_txn_log tablet txn.

Definition Tablet_delete_txn_log (tablet : Tablet) (txn : Z) : M Status :=
  delete_txn_log tablet txn.

(** ** Publish *)

(** The loop "Apply txn logs" of [publish], lines 440-457.  [inl st] is a
    [return st] out of the loop, [inr metadata] is the loop running to its
    end with the new metadata. *)
Fixpoint publish_apply_logs (tablet : Tablet) (new_version : Z)
    (txns : list Z) (new_metadata : TabletMetadata)
  : M (Status + TabletMetadata) :=
  match txns with
  | [] => ret (inr new_metadata)
  | txnid :: txns' =>
      txnlog <- Tablet_get_txn_log tablet txnid ;;
      duplicated <-
        (if is_not_found (status_of txnlog) then
           res <- Tablet_get_metadata tablet new_version ;;
           ret (ok (status_of res))
         else ret false) ;;
      if duplicated : bool then ret (inl OK)
      else
        match txnlog with
        | Error st => ret (inl st)
        | Value log =>
            match apply_txn_log log new_metadata with
            | None => abort
            | Some (st, new_metadata') =>
                if negb (ok st) then ret (inl st)
                else publish_apply_logs tablet new_version txns' new_metadata'
            end
        end
  end.

(** The loop "Delete txn logs" of [publish], lines 466-470. *)
Fixpoint publish_delete_logs (tablet : Tablet) (txns : list Z) : M unit :=
  match txns with
  | [] => ret tt
  | txn_id :: txns' =>
      st <- Tablet_delete_txn_log tablet txn_id ;;
      publish_delete_logs tablet txns'
  end.

(** [publish], tablet_manager.cpp:420. *)
Definition publish (tablet : Tablet) (base_version new_version : Z)
    (txns : list Z) : M Status :=
  res <- Tablet_get_metadata tablet base_version ;;
  match res with
  | Error st =>
      exists_new <-
        (if is_not_found st then
           res' <- Tablet_get_metadata tablet new_version ;;
           ret (ok (status_of res'))
         else ret false) ;;
      if exists_new : bool then ret OK else ret st
  | Value base_metadata =>
      let new_metadata := set_version new_version base_metadata in
      applied <- publish_apply_logs tablet new_version txns new_metadata ;;
      match applied with
      | inl st => ret st
      | inr new_metadata' =>
          st <- Tablet_put_metadata tablet new_metadata' ;;
          if negb (ok st) then ret st
          else
            _ <- publish_delete_logs tablet txns ;;
            ret OK
      end
  end.

(** [TabletManager::publish_version], tablet_manager.cpp:340. *)
Definition publish_version (tablet base_version new_version : Z)
    (txns : list Z) : M Status :=
  publish tablet base_version new_version txns.

End Lake.

(** * Connector scan node (exec/vectorized/connector_scan_node.cpp) *)

Module Scan.

(** ** Integers *)

(** The value of a 32-bit two's complement integer: what an atomic
    [fetch_add] on [std::atomic<int32_t>] leaves behind.  Arithmetic on
    plain signed integers ([int], [int64_t]), whose overflow is undefined in
    C++, is modelled exact. *)
Definition wrap32 (x : Z) : Z :=
  (x + 2147483648) mod 4294967296 - 2147483648.

(** The value of an integer converted to [size_t]. *)
Definition to_size_t (x : Z) : Z := x mod 18446744073709551616.

(** ** Priority aging *)

(** [compute_priority], connector_scan_node.cpp:259. *)
Definition compute_priority (num_submitted_tasks : Z) : Z :=
  if num_submitted_tasks <? 5 then 20 else
  if num_submitted_tasks <? 19 then 19 else
  if num_submitted_tasks <? 49 then 18 else
  if num_submitted_tasks <? 91 then 17 else
  if num_submitted_tasks <? 145 then 16 else
  if num_submitted_tasks <? 211 then 15 else
  if num_submitted_tasks <? 289 then 14 else
  if num_submitted_tasks <? 379 then 13 else
  if num_submitted_tasks <? 481 then 12 else
  if num_submitted_tasks <? 595 then 11 else
  if num_submitted_tasks <? 721 then 10 else
  if num_submitted_tasks <? 859 then 9 else
  if num_submitted_tasks <? 1009 then 8 else
  if num_submitted_tasks <? 1171 then 7 else
  if num_submitted_tasks <? 1345 then 6 else
  if num_submitted_tasks <? 1531 then 5 else
  if num_submitted_tasks <? 1729 then 4 else
  if num_submitted_tasks <? 1939 then 3 else
  if num_submitted_tasks <? 2161 then 2 else
  if num_submitted_tasks <? 2395 then 1 else
  0.

(** ** Compare and swap *)

(** [atomic_cas], connector_scan_node.cpp:47: if [*lvalue == expect], swap
    [*lvalue] and [*rvalue].  The result is the returned flag and the new
    values of [*lvalue] and [*rvalue]. *)
Definition atomic_cas (lvalue rvalue expect : bool) : bool * bool * bool :=
  if Bool.eqb lvalue expect then (true, rvalue, expect)
  else (false, lvalue, rvalue).

(** ** Chunks and data sources *)

(** A chunk is known by its number of rows, a [size_t]. *)
Record Chunk := { num_rows : N }.

(** [Chunk::set_num_rows] on the [size_t] that [rows - over] converts to. *)
Definition set_num_rows (rows : Z) (c : Chunk) : Chunk :=
  {| num_rows := Z.to_N (to_size_t rows) |}.

(** Modelled from the spec: [connector::DataSource] is a collaborator known
    by its contract (section 4.1).  A data source answers from a script:
    the status of each call of [open], and for each call of [get_next] its
    status, the rows it puts into the chunk and the raw rows it has read for
    them; when the script of [get_next] has run out the source is at end of
    file.  [open_calls] and [close_calls] count the invocations. *)
Record DataSource := {
  open_script : list Status;
  next_script : list (Status * N * Z);
  raw_rows_read : Z;
  num_rows_read : Z;
  open_calls : nat;
  close_calls : nat
}.

Definition ds_open (d : DataSource) : Status * DataSource :=
  (hd OK (open_script d),
   {| open_script := tl (open_script d); next_script := next_script d;
      raw_rows_read := raw_rows_read d; num_rows_read := num_rows_read d;
      open_calls := S (open_calls d); close_calls := close_calls d |}).

Definition ds_get_next (d : DataSource) : Status * Chunk * DataSource :=
  match next_script d with
  | [] => (EndOfFile, {| num_rows := 0 |}, d)
  | (st, rows, raw) :: rest =>
      (st, {| num_rows := rows |},
       {| open_script := open_script d; next_script := rest;
          raw_rows_read := raw_rows_read d + raw;
          num_rows_read := num_rows_read d + Z.of_N rows;
          open_calls := open_calls d; close_calls := close_calls d |})
  end.

Definition ds_close (d : DataSource) : DataSource :=
  {| open_script := open_script d; next_script := next_script d;
     raw_rows_read := raw_rows_read d; num_rows_read := num_rows_read d;
     open_calls := open_calls d; close_calls := S (close_calls d) |}.

(** ** ConnectorScanner *)

Module ConnectorScanner.

(** [class ConnectorScanner], connector_scan_node.cpp:53; the runtime state
    and the stop watch of the pending queue are left out. *)
Record t := {
  _data_source : DataSource;
  _is_open : bool;
  _keep_priority : bool;
  _pending_token : bool
}.

(** The scanner that the constructor builds. *)
Definition new (data_source : DataSource) : t :=
  {| _data_source := data_source; _is_open := false;
     _keep_priority := false; _pending_token := false |}.

(** [open], line 61. *)
Definition open (s : t) : Status * t :=
  if _is_open s then (OK, s)
  else
    let '(st, d) := ds_open (_data_source s) in
    if negb (ok st) then
      (st, {| _data_source := d; _is_open := _is_open s;
              _keep_priority := _keep_priority s;
              _pending_token := _pending_token s |})
    else
      (OK, {| _data_source := d; _is_open := true;
              _keep_priority := _keep_priority s;
              _pending_token := _pending_token s |}).

(** [close], line 67. *)
Definition close (s : t) : t :=
  {| _data_source := ds_close (_data_source s); _is_open := _is_open s;
     _keep_priority := _keep_priority s;
     _pending_token := _pending_token s |}.

(** [get_next], line 68. *)
Definition get_next (s : t) : Status * Chunk * t :=
  let '(st, chunk, d) := ds_get_next (_data_source s) in
  (st, chunk,
   {| _data_source := d; _is_open := _is_open s;
      _keep_priority := _keep_priority s;
      _pending_token := _pending_token s |}).

Definition set_keep_priority (v : bool) (s : t) : t :=
  {| _data_source := _data_source s; _is_open := _is_open s;
     _keep_priority := v; _pending_token := _pending_token s |}.

Definition set_pending_token (v : bool) (s : t) : t :=
  {| _data_source := _data_source s; _is_open := _is_open s;
     _keep_priority := _keep_priority s; _pending_token := v |}.

(** [acquire_pending_token], line 83: the returned flag, the new value of
    [*token] and the scanner. *)
Definition acquire_pending_token (token : bool) (s : t) : bool * bool * t :=
  let '(res, token', mine) := atomic_cas token (_pending_token s) true in
  (res, token', set_pending_token mine s).

(** [release_pending_token], line 88. *)
Definition release_pending_token (token : bool) (s : t) : bool * bool * t :=
  if _pending_token s then (true, true, set_pending_token false s)
  else (false, token, s).

End ConnectorScanner.

(** ** Collaborators of the node *)

(** Modelled from the spec: the queue of results (util/blocking_queue.hpp) is
    not among the sources.  [put] fails once the queue is shut down
    (invariant 5 of section 3); waiting for room is not modelled.
    [blocking_get] takes the oldest chunk; on an empty queue it returns
    [false] after a shutdown and does not return before one. *)
Record BlockingQueue := {
  items : list Chunk;
  is_shutdown : bool
}.

Definition queue_put (c : Chunk) (q : BlockingQueue) : bool * BlockingQueue :=
  if is_shutdown q then (false, q)
  else (true, {| items := items q ++ [c]; is_shutdown := false |}).

Definition queue_shutdown (q : BlockingQueue) : BlockingQueue :=
  {| items := items q; is_shutdown := true |}.

Definition queue_blocking_get (q : BlockingQueue)
  : option (option Chunk * BlockingQueue) :=
  match items q with
  | c :: rest =>
      Some (Some c, {| items := rest; is_shutdown := is_shutdown q |})
  | [] => if is_shutdown q then Some (None, q) else None
  end.

(** [PriorityThreadPool::Task]: the scanner that the work function runs
    [_scanner_thread] on, and the nice value. *)
Record Task := {
  work_function : nat;
  priority : Z
}.

(** Modelled from the spec: [PriorityThreadPool] (section 2) is shared by
    the process.  [tasks] are the tasks of this node that wait in it;
    [try_offer] answers from a script (other users fill the pool), accepting
    when the script has run out; the blocking [offer] returns once the task
    is queued. *)
Record PriorityThreadPool := {
  tasks : list Task;
  try_offer_script : list bool
}.

Definition try_offer (task : Task) (p : PriorityThreadPool)
  : bool * PriorityThreadPool :=
  match try_offer_script p with
  | [] => (true, {| tasks := tasks p ++ [task]; try_offer_script := [] |})
  | accepted :: rest =>
      (accepted,
       {| tasks := if accepted then tasks p ++ [task] else tasks p;
          try_offer_script := rest |})
  end.

Definition offer (task : Task) (p : PriorityThreadPool) : PriorityThreadPool :=
  {| tasks := tasks p ++ [task]; try_offer_script := try_offer_script p |}.

(** The values of [config::] that the node reads. *)
Record Config := {
  doris_scanner_row_num : Z;
  max_hdfs_scanner_num : Z;
  max_hdfs_file_handle : Z
}.

(** ** ConnectorScanNode *)

Module ConnectorScanNode.

Record t := {
  (** the values of [config::] read by the node *)
  config : Config;
  (** [state->chunk_size()] *)
  chunk_size : Z;
  _limit : Z;
  (** [ExecNode::eval_join_runtime_filters], a collaborator: any function
      on chunks *)
  eval_join_runtime_filters : Chunk → Chunk;
  (** the file-local counter of open files, line 43 *)
  connector_scan_node_open_limit : Z;
  (** for each scan range, the data source the provider creates for it *)
  _scan_ranges : list DataSource;
  (** the object pool: a [ConnectorScanner*] is an index into it *)
  _pool : list ConnectorScanner.t;
  _status : Status;
  _start : bool;
  _closed : bool;
  _num_rows_returned : Z;
  _result_chunks : BlockingQueue;
  _chunk_pool : list Chunk;
  _chunks_per_scanner : Z;
  _num_scanners : Z;
  _pending_scanners : list nat;
  _running_threads : Z;
  _closed_scanners : Z;
  _scanner_submit_count : Z;
  _pending_token : bool;
  (** [exec_env()->thread_pool()] *)
  thread_pool : PriorityThreadPool
}.

Definition set_pool (v : list ConnectorScanner.t) (n : t) : t :=
  {| config := config n; chunk_size := chunk_size n; _limit := _limit n;
     eval_join_runtime_filters := eval_join_runtime_filters n;
     connector_scan_node_open_limit := connector_scan_node_open_limit n;
     _scan_ranges := _scan_ranges n; _pool := v; _status := _status n;
     _start := _start n; _closed := _closed n;
     _num_rows_returned := _num_rows_returned n;
     _result_chunks := _result_chunks n; _chunk_pool := _chunk_pool n;
     _chunks_per_scanner := _chunks_per_scanner n;
     _num_scanners := _num_scanners n;
     _pending_scanners := _pending_scanners n;
     _running_threads := _running_threads n;
     _closed_scanners := _closed_scanners n;
     _scanner_submit_count := _scanner_submit_count n;
     _pending_token := _pending_token n; thread_pool := thread_pool n |}.

Definition set_status (v : Status) (n : t) : t :=
  {| config := config n; chunk_size := chunk_size n; _limit := _limit n;
     eval_join_runtime_filters := eval_join_runtime_filters n;
     connector_scan_node_open_limit := connector_scan_node_open_limit n;
     _scan_ranges := _scan_ranges n; _pool := _pool n; _status := v;
     _start := _start n; _closed := _closed n;
     _num_rows_returned := _num_rows_returned n;
     _result_chunks := _result_chunks n; _chunk_pool := _chunk_pool n;
     _chunks_per_scanner := _chunks_per_scanner n;
     _num_scanners := _num_scanners n;
     _pending_scanners := _pending_scanners n;
     _running_threads := _running_threads n;
     _closed_scanners := _closed_scanners n;
     _scanner_submit_count := _scanner_submit_count n;
     _pending_token := _pending_token n; thread_pool := thread_pool n |}.

Definition set_start (v : bool) (n : t) : t :=
  {| config := config n; chunk_size := chunk_size n; _limit := _limit n;
     eval_join_runtime_filters := eval_join_runtime_filters n;
     connector_scan_node_open_limit := connector_scan_node_open_limit n;
     _scan_ranges := _scan_ranges n; _pool := _pool n; _status := _status n;
     _start := v; _closed := _closed n;
     _num_rows_returned := _num_rows_returned n;
     _result_chunks := _result_chunks n; _chunk_pool := _chunk_pool n;
     _chunks_per_scanner := _chunks_per_scanner n;
     _num_scanners := _num_scanners n;
     _pending_scanners := _pending_scanners n;
     _running_threads := _running_threads n;
     _closed_scanners := _closed_scanners n;
     _scanner_submit_count := _scanner_submit_count n;
     _pending_token := _pending_token n; thread_pool := thread_pool n |}.

Definition set_closed (v : bool) (n : t) : t :=
  {| config := config n; chunk_size := chunk_size n; _limit := _limit n;
     eval_join_runtime_filters := eval_join_runtime_filters n;
     connector_scan_node_open_limit := connector_scan_node_open_limit n;
     _scan_ranges := _scan_ranges n; _pool := _pool n; _status := _status n;
     _start := _start n; _closed := v;
     _num_rows_returned := _num_rows_returned n;
     _result_chunks := _result_chunks n; _chunk_pool := _chunk_pool n;
     _chunks_per_scanner := _chunks_per_scanner n;
     _num_scanners := _num_scanners n;
     _pending_scanners := _pending_scanners n;
     _running_threads := _running_threads n;
     _closed_scanners := _closed_scanners n;
     _scanner_submit_count := _scanner_submit_count n;
     _pending_token := _pending_token n; thread_pool := thread_pool n |}.

Definition set_num_rows_returned (v : Z) (n : t) : t :=
  {| config := config n; chunk_size := chunk_size n; _limit := _limit n;
     eval_join_runtime_filters := eval_join_runtime_filters n;
     connector_scan_node_open_limit := connector_scan_node_open_limit n;
     _scan_ranges := _scan_ranges n; _pool := _pool n; _status := _status n;
     _start := _start n; _closed := _closed n; _num_rows_returned := v;
     _result_chunks := _result_chunks n; _chunk_pool := _chunk_pool n;
     _chunks_per_scanner := _chunks_per_scanner n;
     _num_scanners := _num_scanners n;
     _pending_scanners := _pending_scanners n;
     _running_threads := _running_threads n;
     _closed_scanners := _closed_scanners n;
     _scanner_submit_count := _scanner_submit_count n;
     _pending_token := _pending_token n; thread_pool := thread_pool n |}.

Definition set_result_chunks (v : BlockingQueue) (n : t) : t :=
  {| config := config n; chunk_size := chunk_size n; _limit := _limit n;
     eval_join_runtime_filters := eval_join_runtime_filters n;
     connector_scan_node_open_limit := connector_scan_node_open_limit n;
     _scan_ranges := _scan_ranges n; _pool := _pool n; _status := _status n;
     _start := _start n; _closed := _closed n;
     _num_rows_returned := _num_rows_returned n; _result_chunks := v;
     _chunk_pool := _chunk_pool n;
     _chunks_per_scanner := _chunks_per_scanner n;
     _num_scanners := _num_scanners n;
     _pending_scanners := _pending_scanners n;
     _running_threads := _running_threads n;
     _closed_scanners := _closed_scanners n;
     _scanner_submit_count := _scanner_submit_count n;
     _pending_token := _pending_token n; thread_pool := thread_pool n |}.

Definition set_chunk_pool (v : list Chunk) (n : t) : t :=
  {| config := config n; chunk_size := chunk_size n; _limit := _limit n;
     eval_join_runtime_filters := eval_join_runtime_filters n;
     connector_scan_node_open_limit := connector_scan_node_open_limit n;
     _scan_ranges := _scan_ranges n; _pool := _pool n; _status := _status n;
     _start := _start n; _closed := _closed n;
     _num_rows_returned := _num_rows_returned n;
     _result_chunks := _result_chunks n; _chunk_pool := v;
     _chunks_per_scanner := _chunks_per_scanner n;
     _num_scanners := _num_scanners n;
     _pending_scanners := _pending_scanners n;
     _running_threads := _running_threads n;
     _closed_scanners := _closed_scanners n;
     _scanner_submit_count := _scanner_submit_count n;
     _pending_token := _pending_token n; thread_pool := thread_pool n |}.

Definition set_chunks_per_scanner (v : Z) (n : t) : t :=
  {| config := config n; chunk_size := chunk_size n; _limit := _limit n;
     eval_join_runtime_filters := eval_join_runtime_filters n;
     connector_scan_node_open_limit := connector_scan_node_open_limit n;
     _scan_ranges := _scan_ranges n; _pool := _pool n; _status := _status n;
     _start := _start n; _closed := _closed n;
     _num_rows_returned := _num_rows_returned n;
     _result_chunks := _result_chunks n; _chunk_pool := _chunk_pool n;
     _chunks_per_scanner := v; _num_scanners := _num_scanners n;
     _pending_scanners := _pending_scanners n;
     _running_threads := _running_threads n;
     _closed_scanners := _closed_scanners n;
     _scanner_submit_count := _scanner_submit_count n;
     _pending_token := _pending_token n; thread_pool := thread_pool n |}.

Definition set_num_scanners (v : Z) (n : t) : t :=
  {| config := config n; chunk_size := chunk_size n; _limit := _limit n;
     eval_join_runtime_filters := eval_join_runtime_filters n;
     connector_scan_node_open_limit := connector_scan_node_open_limit n;
     _scan_ranges := _scan_ranges n; _pool := _pool n; _status := _status n;
     _start := _start n; _closed := _closed n;
     _num_rows_returned := _num_rows_returned n;
     _result_chunks := _result_chunks n; _chunk_pool := _chunk_pool n;
     _chunks_per_scanner := _chunks_per_scanner n; _num_scanners := v;
     _pending_scanners := _pending_scanners n;
     _running_threads := _running_threads n;
     _closed_scanners := _closed_scanners n;
     _scanner_submit_count := _scanner_submit_count n;
     _pending_token := _pending_token n; thread_pool := thread_pool n |}.

Definition set_pending_scanners (v : list nat) (n : t) : t :=
  {| config := config n; chunk_size := chunk_size n; _limit := _limit n;
     eval_join_runtime_filters := eval_join_runtime_filters n;
     connector_scan_node_open_limit := connector_scan_node_open_limit n;
     _scan_ranges := _scan_ranges n; _pool := _pool n; _status := _status n;
     _start := _start n; _closed := _closed n;
     _num_rows_returned := _num_rows_returned n;
     _result_chunks := _result_chunks n; _chunk_pool := _chunk_pool n;
     _chunks_per_scanner := _chunks_per_scanner n;
     _num_scanners := _num_scanners n; _pending_scanners := v;
     _running_threads := _running_threads n;
     _closed_scanners := _closed_scanners n;
     _scanner_submit_count := _scanner_submit_count n;
     _pending_token := _pending_token n; thread_pool := thread_pool n |}.

Definition set_running_threads (v : Z) (n : t) : t :=
  {| config := config n; chunk_size := chunk_size n; _limit := _limit n;
     eval_join_runtime_filters := eval_join_runtime_filters n;
     connector_scan_node_open_limit := connector_scan_node_open_limit n;
     _scan_ranges := _scan_ranges n; _pool := _pool n; _status := _status n;
     _start := _start n; _closed := _closed n;
     _num_rows_returned := _num_rows_returned n;
     _result_chunks := _result_chunks n; _chunk_pool := _chunk_pool n;
     _chunks_per_scanner := _chunks_per_scanner n;
     _num_scanners := _num_scanners n;
     _pending_scanners := _pending_scanners n; _running_threads := v;
     _closed_scanners := _closed_scanners n;
     _scanner_submit_count := _scanner_submit_count n;
     _pending_token := _pending_token n; thread_pool := thread_pool n |}.

Definition set_closed_scanners (v : Z) (n : t) : t :=
  {| config := config n; chunk_size := chunk_size n; _limit := _limit n;
     eval_join_runtime_filters := eval_join_runtime_filters n;
     connector_scan_node_open_limit := connector_scan_node_open_limit n;
     _scan_ranges := _scan_ranges n; _pool := _pool n; _status := _status n;
     _start := _start n; _closed := _closed n;
     _num_rows_returned := _num_rows_returned n;
     _result_chunks := _result_chunks n; _chunk_pool := _chunk_pool n;
     _chunks_per_scanner := _chunks_per_scanner n;
     _num_scanners := _num_scanners n;
     _pending_scanners := _pending_scanners n;
     _running_threads := _running_threads n; _closed_scanners := v;
     _scanner_submit_count := _scanner_submit_count n;
     _pending_token := _pending_token n; thread_pool := thread_pool n |}.

Definition set_scanner_submit_count (v : Z) (n : t) : t :=
  {| config := config n; chunk_size := chunk_size n; _limit := _limit n;
     eval_join_runtime_filters := eval_join_runtime_filters n;
     connector_scan_node_open_limit := connector_scan_node_open_limit n;
     _scan_ranges := _scan_ranges n; _pool := _pool n; _status := _status n;
     _start := _start n; _closed := _closed n;
     _num_rows_returned := _num_rows_returned n;
     _result_chunks := _result_chunks n; _chunk_pool := _chunk_pool n;
     _chunks_per_scanner := _chunks_per_scanner n;
     _num_scanners := _num_scanners n;
     _pending_scanners := _pending_scanners n;
     _running_threads := _running_threads n;
     _closed_scanners := _closed_scanners n; _scanner_submit_count := v;
     _pending_token := _pending_token n; thread_pool := thread_pool n |}.

Definition set_pending_token (v : bool) (n : t) : t :=
  {| config := config n; chunk_size := chunk_size n; _limit := _limit n;
     eval_join_runtime_filters := eval_join_runtime_filters n;
     connector_scan_node_open_limit := connector_scan_node_open_limit n;
     _scan_ranges := _scan_ranges n; _pool := _pool n; _status := _status n;
     _start := _start n; _closed := _closed n;
     _num_rows_returned := _num_rows_returned n;
     _result_chunks := _result_chunks n; _chunk_pool := _chunk_pool n;
     _chunks_per_scanner := _chunks_per_scanner n;
     _num_scanners := _num_scanners n;
     _pending_scanners := _pending_scanners n;
     _running_threads := _running_threads n;
     _closed_scanners := _closed_scanners n;
     _scanner_submit_count := _scanner_submit_count n; _pending_token := v;
     thread_pool := thread_pool n |}.

Definition set_thread_pool (v : PriorityThreadPool) (n : t) : t :=
  {| config := config n; chunk_size := chunk_size n; _limit := _limit n;
     eval_join_runtime_filters := eval_join_runtime_filters n;
     connector_scan_node_open_limit := connector_scan_node_open_limit n;
     _scan_ranges := _scan_ranges n; _pool := _pool n; _status := _status n;
     _start := _start n; _closed := _closed n;
     _num_rows_returned := _num_rows_returned n;
     _result_chunks := _result_chunks n; _chunk_pool := _chunk_pool n;
     _chunks_per_scanner := _chunks_per_scanner n;
     _num_scanners := _num_scanners n;
     _pending_scanners := _pending_scanners n;
     _running_threads := _running_threads n;
     _closed_scanners := _closed_scanners n;
     _scanner_submit_count := _scanner_submit_count n;
     _pending_token := _pending_token n; thread_pool := v |}.
Abbreviation Op := (StateM t).

(** *** Scanners behind their pointers *)

Definition scanner_read {A} (scanner : nat) (f : ConnectorScanner.t → A)
  : Op A := fun n =>
  match _pool n !! scanner with
  | Some s => Some (f s, n)
  | None => None
  end.

Definition scanner_call {A} (scanner : nat)
    (f : ConnectorScanner.t → A * ConnectorScanner.t) : Op A := fun n =>
  match _pool n !! scanner with
  | Some s => let '(a, s') := f s in
              Some (a, set_pool (<[scanner := s']> (_pool n)) n)
  | None => None
  end.

(** [scanner->open_limit()], line 81. *)
Definition open_limit : Op Z := fun n =>
  Some (connector_scan_node_open_limit n, n).

(** [scanner->acquire_pending_token(&_pending_token)]. *)
Definition acquire_pending_token (scanner : nat) : Op bool := fun n =>
  match _pool n !! scanner with
  | Some s =>
      let '(res, token, s') :=
        ConnectorScanner.acquire_pending_token (_pending_token n) s in
      Some (res, set_pending_token token
                   (set_pool (<[scanner := s']> (_pool n)) n))
  | None => None
  end.

(** [scanner->release_pending_token(&_pending_token)]. *)
Definition release_pending_token (scanner : nat) : Op bool := fun n =>
  match _pool n !! scanner with
  | Some s =>
      let '(res, token, s') :=
        ConnectorScanner.release_pending_token (_pending_token n) s in
      Some (res, set_pending_token token
                   (set_pool (<[scanner := s']> (_pool n)) n))
  | None => None
  end.

(** *** Status, chunk pool, pending scanners *)

(** [_update_status], line 474. *)
Definition _update_status (status : Status) : Op unit := fun n =>
  Some (tt, if ok (_status n) then set_status status n else n).

(** [_get_status], line 481. *)
Definition _get_status : Op Status := fun n => Some (_status n, n).

Definition empty_chunk : Chunk := {| num_rows := 0 |}.

(** [_fill_chunk_pool], line 486. *)
Definition _fill_chunk_pool (count : Z) : Op unit := fun n =>
  Some (tt, set_chunk_pool
              (repeat empty_chunk (Z.to_nat count) ++ _chunk_pool n) n).

(** [_push_pending_scanner], line 461. *)
Definition _push_pending_scanner (scanner : nat) : Op unit := fun n =>
  Some (tt, set_pending_scanners (scanner :: _pending_scanners n) n).

(** [_pop_pending_scanner], line 466; popping the empty stack is
    undefined. *)
Definition _pop_pending_scanner : Op nat := fun n =>
  match _pending_scanners n with
  | scanner :: rest => Some (scanner, set_pending_scanners rest n)
  | [] => None
  end.

Definition result_chunks_shutdown : Op unit := fun n =>
  Some (tt, set_result_chunks (queue_shutdown (_result_chunks n)) n).

Definition add_closed_scanners (delta : Z) : Op unit := fun n =>
  Some (tt, set_closed_scanners (wrap32 (_closed_scanners n + delta)) n).

Definition add_running_threads (delta : Z) : Op unit := fun n =>
  Some (tt, set_running_threads (wrap32 (_running_threads n + delta)) n).

(** *** Submitting a scanner *)

(** [_submit_scanner], line 288. *)
Definition _submit_scanner (scanner : nat) (blockable : bool) : Op bool :=
  keep <- scanner_read scanner ConnectorScanner._keep_priority ;;
  fun n =>
    let delta := if keep then 0 else 1 in
    let num_submit := _scanner_submit_count n in
    let n1 := set_scanner_submit_count (wrap32 (num_submit + delta)) n in
    let task := {| work_function := scanner;
                   priority := compute_priority num_submit |} in
    let n2 := set_running_threads (wrap32 (_running_threads n1 + 1)) n1 in
    let '(accepted, p) := try_offer task (thread_pool n2) in
    let n3 := set_thread_pool p n2 in
    if accepted then Some (true, n3)
    else if blockable then
      Some (true, set_thread_pool (offer task (thread_pool n3)) n3)
    else
      let n4 := set_running_threads (wrap32 (_running_threads n3 - 1)) n3 in
      Some (false,
            set_scanner_submit_count
              (wrap32 (_scanner_submit_count n4 - delta)) n4).

(** *** [_submit_scanner], action by action

    The workers of the pool run beside the caller of [_submit_scanner]: a
    worker may take the task as soon as the pool holds it, and subtracts 1
    from [_running_threads] when it is done with it.  The order in which
    the call touches the two atomic counters and the pool is therefore
    part of what it does.  [SubmitPc] is the place of the call between two
    such actions, with the locals that are live there. *)
Inductive SubmitPc :=
  | AtFetchAddSubmitCount
  | AtFetchAddRunning (delta : Z) (task : Task)
  | AtTryOffer (delta : Z) (task : Task)
  | AtOffer (task : Task)
  | AtFetchSubRunning (delta : Z)
  | AtFetchSubSubmitCount (delta : Z)
  | Returned (r : bool).

(** The next action of the call.  [AtFetchAddSubmitCount]: lines 290-295,
    the [fetch_add] on [_scanner_submit_count] and the task built from its
    result.  [AtFetchAddRunning]: line 296.  [AtTryOffer]: line 298, and
    the tests of lines 298 and 301.  [AtOffer]: line 302.
    [AtFetchSubRunning]: line 307.  [AtFetchSubSubmitCount]: line 308.  A
    call that has returned does nothing more. *)
Definition submit_action (scanner : nat) (blockable : bool) (pc : SubmitPc)
  : Op SubmitPc :=
  match pc with
  | AtFetchAddSubmitCount =>
      keep <- scanner_read scanner ConnectorScanner._keep_priority ;;
      fun n =>
        let delta := if keep then 0 else 1 in
        let num_submit := _scanner_submit_count n in
        let task := {| work_function := scanner;
                       priority := compute_priority num_submit |} in
        Some (AtFetchAddRunning delta task,
              set_scanner_submit_count (wrap32 (num_submit + delta)) n)
  | AtFetchAddRunning delta task => fun n =>
      Some (AtTryOffer delta task,
            set_running_threads (wrap32 (_running_threads n + 1)) n)
  | AtTryOffer delta task => fun n =>
      let '(accepted, p) := try_offer task (thread_pool n) in
      Some (if accepted then Returned true
            else if blockable then AtOffer task
            else AtFetchSubRunning delta,
            set_thread_pool p n)
  | AtOffer task => fun n =>
      Some (Returned true, set_thread_pool (offer task (thread_pool n)) n)
  | AtFetchSubRunning delta => fun n =>
      Some (AtFetchSubSubmitCount delta,
            set_running_threads (wrap32 (_running_threads n - 1)) n)
  | AtFetchSubSubmitCount delta => fun n =>
      Some (Returned false,
            set_scanner_submit_count
              (wrap32 (_scanner_submit_count n - delta)) n)
  | Returned r => ret (Returned r)
  end.

(** [k] actions of the call, one after the other. *)
Fixpoint submit_actions (scanner : nat) (blockable : bool) (k : nat)
    (pc : SubmitPc) : Op SubmitPc :=
  match k with
  | O => ret pc
  | S k' =>
      pc' <- submit_action scanner blockable pc ;;
      submit_actions scanner blockable k' pc'
  end.

(** *** Releasing scanners *)

(** The loop of [_close_pending_scanners], line 454, over the pending
    scanners from the top of the stack. *)
Fixpoint close_scanners (pending : list nat) : Op unit :=
  match pending with
  | [] => ret tt
  | scanner :: rest =>
      _ <- scanner_call scanner (fun s => (tt, ConnectorScanner.close s)) ;;
      _ <- add_closed_scanners 1 ;;
      close_scanners rest
  end.

(** [_close_pending_scanners], line 452. *)
Definition _close_pending_scanners : Op unit := fun n =>
  close_scanners (_pending_scanners n) (set_pending_scanners [] n).

(** [_release_scanner], line 445. *)
Definition _release_scanner (scanner : nat) : Op unit :=
  _ <- release_pending_token scanner ;;
  _ <- scanner_call scanner (fun s => (tt, ConnectorScanner.close s)) ;;
  _ <- add_closed_scanners 1 ;;
  _close_pending_scanners.

(** *** The worker *)

(** The loop of lines 343-347,
    [while (need_put-- > 0 && !_pending_scanners.empty())]. *)
Fixpoint yield_loop (need_put : nat) : Op unit :=
  match need_put with
  | O => ret tt
  | S need_put' => fun n =>
      match _pending_scanners n with
      | [] => Some (tt, n)
      | _ :: _ =>
          (scanner <- _pop_pending_scanner ;;
           submitted <- _submit_scanner scanner false ;;
           if submitted : bool then yield_loop need_put' else ret tt) n
      end
  end.

(** How the produce loop of lines 374-412 is left: the local [status], the
    flag [resubmit], and whether [scanner] was handed to the pending queue
    and set to [nullptr]. *)
Record LoopExit := {
  exit_status : Status;
  resubmit : bool;
  handed_off : bool
}.

(** The produce loop, entered with [status.ok()].  Every iteration that
    goes round takes a chunk out of the pool, so that the size of the pool
    bounds their number: [fuel] is that bound and never runs out. *)
Fixpoint produce_loop (fuel : nat) (scanner : nat) (raw_rows_threshold : Z)
  : Op LoopExit :=
  match fuel with
  | O => abort
  | S fuel' =>
      global <- _get_status ;;
      if negb (ok global) then
        ret {| exit_status := OK; resubmit := false; handed_off := false |}
      else fun n =>
        match _chunk_pool n with
        | [] =>
            (_ <- scanner_call scanner
                    (fun s => (tt, ConnectorScanner.set_keep_priority true s)) ;;
             _ <- release_pending_token scanner ;;
             _ <- _push_pending_scanner scanner ;;
             ret {| exit_status := OK; resubmit := false;
                    handed_off := true |}) n
        | _ :: pool =>
            (r <- scanner_call scanner
                    (fun s => let '(st, c, s') := ConnectorScanner.get_next s
                              in ((st, c), s')) ;;
             let '(status, chunk) := r in
             if negb (ok status) then
               fun n' =>
                 Some ({| exit_status := status; resubmit := false;
                          handed_off := false |},
                       set_chunk_pool (chunk :: _chunk_pool n') n')
             else
               fun n' =>
                 let '(put, q) := queue_put chunk (_result_chunks n') in
                 let n'' := set_result_chunks q n' in
                 if negb put then
                   Some ({| exit_status := Aborted; resubmit := false;
                            handed_off := false |}, n'')
                 else
                   (rows <- scanner_read scanner
                              (fun s => num_rows_read
                                          (ConnectorScanner._data_source s)) ;;
                    raw <- scanner_read scanner
                             (fun s => raw_rows_read
                                         (ConnectorScanner._data_source s)) ;;
                    if negb (_limit n'' =? -1) && (_limit n'' <=? rows) then
                      ret {| exit_status := EndOfFile; resubmit := false;
                             handed_off := false |}
                    else if raw_rows_threshold <=? raw then
                      ret {| exit_status := OK; resubmit := true;
                             handed_off := false |}
                    else produce_loop fuel' scanner raw_rows_threshold) n'')
              (set_chunk_pool pool n)
        end
  end.

(** The epilogue of [_scanner_thread], lines 414-442. *)
Definition scanner_thread_epilogue (scanner : nat) (e : LoopExit) : Op unit :=
  global_status <- _get_status ;;
  if ok global_status then
    if ok (exit_status e) && resubmit e then
      submitted <- _submit_scanner scanner false ;;
      if submitted : bool then ret tt
      else
        _ <- release_pending_token scanner ;;
        _push_pending_scanner scanner
    else if ok (exit_status e) then ret tt
    else if is_end_of_file (exit_status e) then
      _ <- release_pending_token scanner ;;
      _ <- scanner_call scanner (fun s => (tt, ConnectorScanner.close s)) ;;
      _ <- add_closed_scanners 1 ;;
      fun n =>
        match _pending_scanners n with
        | [] => Some (tt, n)
        | _ :: _ =>
            (nscanner <- _pop_pending_scanner ;;
             submitted <- _submit_scanner nscanner false ;;
             if submitted : bool then ret tt
             else _push_pending_scanner nscanner) n
        end
    else
      _ <- _update_status (exit_status e) ;;
      _release_scanner scanner
  else
    if handed_off e then ret tt else _release_scanner scanner.

(** The body of [_scanner_thread], lines 323-442. *)
Definition scanner_thread_body (scanner : nat) : Op unit :=
  global <- _get_status ;;
  if negb (ok global) then _release_scanner scanner
  else
    has_token <- scanner_read scanner ConnectorScanner._pending_token ;;
    _ <- (if has_token : bool then fun n =>
            let concurrency_limit := max_hdfs_file_handle (config n) in
            let concurrency :=
              Z.min (max_hdfs_scanner_num (config n)) (_num_scanners n) in
            let need_put := concurrency - _running_threads n in
            let left_resource :=
              concurrency_limit - connector_scan_node_open_limit n in
            if 0 <? left_resource then
              yield_loop (Z.to_nat (Z.min left_resource need_put)) n
            else Some (tt, n)
          else ret tt) ;;
    has_token <- scanner_read scanner ConnectorScanner._pending_token ;;
    _ <- (if has_token : bool then ret false
          else acquire_pending_token scanner) ;;
    is_open <- scanner_read scanner ConnectorScanner._is_open ;;
    has_token <- scanner_read scanner ConnectorScanner._pending_token ;;
    limit <- open_limit ;;
    fun n =>
      if negb is_open && (max_hdfs_file_handle (config n) <? limit)
         && negb has_token
      then _push_pending_scanner scanner n
      else
        (status <- scanner_call scanner ConnectorScanner.open ;;
         _ <- scanner_call scanner
                (fun s => (tt, ConnectorScanner.set_keep_priority false s)) ;;
         raw <- scanner_read scanner
                  (fun s => raw_rows_read (ConnectorScanner._data_source s)) ;;
         e <- (if ok status then fun n' =>
                 produce_loop (S (length (_chunk_pool n'))) scanner
                   (raw + doris_scanner_row_num (config n')) n'
               else
                 ret {| exit_status := status; resubmit := false;
                        handed_off := false |}) ;;
         scanner_thread_epilogue scanner e) n.

(** [_scanner_thread], line 312: the body, then the deferred operation of
    lines 314-321. *)
Definition _scanner_thread (scanner : nat) : Op unit :=
  _ <- scanner_thread_body scanner ;;
  _ <- add_running_threads (-1) ;;
  fun n =>
    if _closed_scanners n =? _num_scanners n then result_chunks_shutdown n
    else Some (tt, n).

(** *** Starting the scan *)

(** [_create_and_init_scanner], line 188. *)
Definition _create_and_init_scanner (data_source : DataSource) : Op unit :=
  fun n =>
    let scanner := length (_pool n) in
    _push_pending_scanner scanner
      (set_pool (_pool n ++ [ConnectorScanner.new data_source]) n).

Fixpoint create_scanners (ranges : list DataSource) : Op unit :=
  match ranges with
  | [] => ret tt
  | data_source :: rest =>
      _ <- _create_and_init_scanner data_source ;;
      create_scanners rest
  end.

(** The loop of lines 181-183; [CHECK] aborts the process. *)
Fixpoint start_scanners (concurrency : nat) : Op unit :=
  match concurrency with
  | O => ret tt
  | S concurrency' =>
      scanner <- _pop_pending_scanner ;;
      submitted <- _submit_scanner scanner true ;;
      if submitted : bool then start_scanners concurrency' else abort
  end.

(** [_start_scan_thread], line 164.  A failed allocation is not modelled.
    A chunk size of zero is a division by zero.  [chunks] is an [int]: a
    product of line 176 beyond 2147483647 or below -2147483648 is a signed
    overflow, and a negative one makes [reserve], whose argument is a
    [size_t], ask for more than a container can hold.  None of the three
    returns a result. *)
Definition _start_scan_thread : Op Status := fun n =>
  (_ <- create_scanners (_scan_ranges n) ;;
   fun n1 =>
     if chunk_size n1 =? 0 then None
     else
       let n2 := set_pending_scanners (reverse (_pending_scanners n1)) n1 in
       let n3 := set_num_scanners
                   (Z.of_nat (length (_pending_scanners n2))) n2 in
       let per_scanner :=
         Z.quot (doris_scanner_row_num (config n3)) (chunk_size n3)
         + (if Z.rem (doris_scanner_row_num (config n3)) (chunk_size n3) =? 0
            then 0 else 1) in
       let n4 := set_chunks_per_scanner per_scanner n3 in
       let concurrency :=
         Z.min (max_hdfs_scanner_num (config n4)) (_num_scanners n4) in
       let chunks := _chunks_per_scanner n4 * concurrency in
       if negb ((0 <=? chunks) && (chunks <=? 2147483647)) then None
       else
         (_ <- _fill_chunk_pool chunks ;;
          _ <- start_scanners (Z.to_nat concurrency) ;;
          ret OK) n4) n.

(** *** The consumer *)

(** Modelled from the spec: [ExecNode::reached_limit] (exec/exec_node.h) is
    not among the sources; the limit is reached when a limit is set and the
    rows returned are at least as many (section 4.2, and line 404 for the
    test of the limit). *)
Definition reached_limit (n : t) : bool :=
  negb (_limit n =? -1) && (_limit n <=? _num_rows_returned n).

(** What [get_next] hands back: the status, the chunk behind [chunk], and
    [*eos] when it is written. *)
Record Result := {
  status : Status;
  chunk : option Chunk;
  eos : option bool
}.

(** [get_next], lines 202-211: the scan is started by the first call. *)
Definition get_next_start : Op Status := fun n =>
  if negb (_start n) && ok (_status n) then
    (status <- _start_scan_thread ;;
     _ <- _update_status status ;;
     fun n' => Some (status, set_start true n')) n
  else if negb (_start n) then
    Some (OK, set_start true
                (set_result_chunks (queue_shutdown (_result_chunks n)) n))
  else Some (OK, n).

(** [get_next], lines 213-233: the status is looked at and a pending
    scanner submitted.  A result means that [get_next] returns it; [None]
    that it goes on to wait for a chunk. *)
Definition get_next_schedule : Op (option Result) :=
  status <- _get_status ;;
  if negb (ok status) then
    ret (Some {| status := if is_end_of_file status then OK else status;
                 chunk := None; eos := Some true |})
  else fun n =>
    let num_closed := _closed_scanners n in
    let num_pending := Z.of_nat (length (_pending_scanners n)) in
    let num_running := _num_scanners n - num_pending - num_closed in
    if (0 <? num_pending)
       && (num_running <? max_hdfs_scanner_num (config n))
       && (to_size_t ((num_running + 1) * _chunks_per_scanner n)
           <=? Z.of_nat (length (_chunk_pool n)))
    then
      (scanner <- _pop_pending_scanner ;;
       _ <- _submit_scanner scanner true ;;
       ret None) n
    else Some (None, n).

(** [get_next], lines 200-233: up to the call of [blocking_get]. *)
Definition get_next_begin : Op (option Result) :=
  started <- get_next_start ;;
  if negb (ok started) then
    ret (Some {| status := started; chunk := None; eos := None |})
  else get_next_schedule.

(** [get_next], lines 235-256: from the call of [blocking_get].  On an
    empty queue that is not shut down the call does not return.  The
    counter [_num_rows_returned] is an [int64_t]; the sizes of chunks keep
    the addition far from its bounds, and no overflow is modelled. *)
Definition get_next_end : Op Result := fun n =>
  match queue_blocking_get (_result_chunks n) with
  | None => None
  | Some (Some c, q) =>
      (_ <- _fill_chunk_pool 1 ;;
       fun n1 =>
         let c1 := eval_join_runtime_filters n1 c in
         let n2 := set_num_rows_returned
                     (_num_rows_returned n1 + Z.of_N (num_rows c1)) n1 in
         if reached_limit n2 then
           let num_rows_over := _num_rows_returned n2 - _limit n2 in
           let c2 := set_num_rows (Z.of_N (num_rows c1) - num_rows_over) c1 in
           (_ <- _update_status EndOfFile ;;
            _ <- result_chunks_shutdown ;;
            ret {| status := OK; chunk := Some c2; eos := Some false |}) n2
         else
           Some ({| status := OK; chunk := Some c1; eos := Some false |}, n2))
        (set_result_chunks q n)
  | Some (None, q) =>
      (_ <- _update_status EndOfFile ;;
       status <- _get_status ;;
       ret {| status := if is_end_of_file status then OK else status;
              chunk := None; eos := Some true |}) (set_result_chunks q n)
  end.

(** [get_next], line 200. *)
Definition get_next : Op Result :=
  r <- get_next_begin ;;
  match r with
  | Some result => ret result
  | None => get_next_end
  end.

(** *** Closing the node *)

(** [close], lines 495-501: up to the wait for the workers.  [is_closed()]
    of the base class, which [ScanNode::close] sets at the end of [close],
    is read off [_closed], which is set at the beginning: the two differ
    inside [close] only. *)
Definition close_begin : Op bool := fun n =>
  if _closed n then Some (true, n)
  else
    (_ <- _update_status Cancelled ;;
     _ <- result_chunks_shutdown ;;
     ret false) (set_closed true n).

(** [close], lines 502-508: once no worker runs any more. *)
Definition close_end : Op Status := fun n =>
  if 0 <? _running_threads n then None
  else (_ <- _close_pending_scanners ;; ret OK) n.

(** *** Steps of the node *)

(** A node as its constructor leaves it, before the first [get_next]. *)
Definition initial (n : t) : Prop :=
  Forall (fun d => open_calls d = 0%nat) (_scan_ranges n)
  ∧ _pool n = [] ∧ _status n = OK ∧ _start n = false ∧ _closed n = false
  ∧ _num_rows_returned n = 0
  ∧ _result_chunks n = {| items := []; is_shutdown := false |}
  ∧ _chunk_pool n = [] ∧ _num_scanners n = 0 ∧ _pending_scanners n = []
  ∧ _running_threads n = 0 ∧ _closed_scanners n = 0
  ∧ _scanner_submit_count n = 0
  ∧ tasks (thread_pool n) = [].

(** The pool without its [i]-th task. *)
Definition take_task (i : nat) (n : t) : t :=
  set_thread_pool
    {| tasks := delete i (tasks (thread_pool n));
       try_offer_script := try_offer_script (thread_pool n) |} n.

(** One step of the node: the consumer enters [get_next], or leaves it with
    a result; a worker of the pool takes one of the tasks that wait and runs
    it to its end; the node is closed; the rest of the process changes what
    the pool will answer. *)
Inductive step : t → t → Prop :=
  | step_get_next_begin n r n' :
      get_next_begin n = Some (r, n') → step n n'
  | step_get_next_end n r n' :
      get_next_end n = Some (r, n') → step n n'
  | step_worker n i task n' :
      tasks (thread_pool n) !! i = Some task →
      _scanner_thread (work_function task) (take_task i n) = Some (tt, n') →
      step n n'
  | step_close_begin n r n' :
      close_begin n = Some (r, n') → step n n'
  | step_close_end n r n' :
      close_end n = Some (r, n') → step n n'
  | step_pool n script :
      step n (set_thread_pool
                {| tasks := tasks (thread_pool n);
                   try_offer_script := script |} n).

Inductive reachable : t → Prop :=
  | reachable_initial n : initial n → reachable n
  | reachable_step n n' : reachable n → step n n' → reachable n'.

End ConnectorScanNode.

(** ** The pending token under interleaving

    The flags of the token protocol are the slot [_pending_token] of the
    node and the flag [_pending_token] of every scanner; they are written by
    [acquire_pending_token] and [release_pending_token] only.  Here the two
    methods are taken apart into their atomic operations, which the threads
    of the scanners interleave freely. *)
Module PendingToken.

(** Where the thread of a scanner stands: outside the two methods; in
    [atomic_cas] after a successful [compare_exchange_strong] and before
    [*rvalue = expect]; in [release_pending_token] after
    [_pending_token = false] and before [*token = true]. *)
Inductive pc := Idle | Swapping | Releasing.

Record thread := {
  flag : bool;
  at_pc : pc
}.

Record state := {
  slot : bool;
  threads : list thread
}.

Definition set_thread (i : nat) (th : thread) (s : state) : state :=
  {| slot := slot s; threads := <[i := th]> (threads s) |}.

Inductive step : state → state → Prop :=
  (** [lvalue->compare_exchange_strong(expect, *rvalue)] finds [true] in the
      slot and stores the flag of the scanner into it *)
  | step_cas_success s i th :
      threads s !! i = Some th → at_pc th = Idle → slot s = true →
      step s {| slot := flag th;
                threads := <[i := {| flag := flag th; at_pc := Swapping |}]>
                             (threads s) |}
  (** [compare_exchange_strong] finds [false] in the slot *)
  | step_cas_failure s i th :
      threads s !! i = Some th → at_pc th = Idle → slot s = false →
      step s s
  (** [*rvalue = expect] *)
  | step_swap_store s i th :
      threads s !! i = Some th → at_pc th = Swapping →
      step s (set_thread i {| flag := true; at_pc := Idle |} s)
  (** [if (_pending_token) _pending_token = false] *)
  | step_release_clear s i th :
      threads s !! i = Some th → at_pc th = Idle → flag th = true →
      step s (set_thread i {| flag := false; at_pc := Releasing |} s)
  (** [*token = true] *)
  | step_release_store s i th :
      threads s !! i = Some th → at_pc th = Releasing →
      step s {| slot := true;
                threads := <[i := {| flag := flag th; at_pc := Idle |}]>
                             (threads s) |}
  (** a scanner is created *)
  | step_new s :
      step s {| slot := slot s;
                threads := threads s ++ [{| flag := false; at_pc := Idle |}] |}.

(** A node without scanners; the slot holds whatever the header of the node
    initialises it with. *)
Definition initial (s : state) : Prop := threads s = [].

Inductive reachable : state → Prop :=
  | reachable_initial s : initial s → reachable s
  | reachable_step s s' : reachable s → step s s' → reachable s'.

(** The number of flags that hold [true]. *)
Definition count (b : bool) : nat := if b then 1 else 0.

Definition holders (s : state) : nat :=
  (count (slot s) + sum_list (map (fun th => count (flag th)) (threads s)))%nat.

End PendingToken.

End Scan.

(** * Auxiliary definitions used in the statements *)

Import Lake.

(** The metadata after the [op_write] part of a log. *)
Definition after_write (log : TxnLog) (md : TabletMetadata) : TabletMetadata :=
  match op_write log with
  | Some w => snd (apply_write_log w md)
  | None => md
  end.

(** The result of the [op_compaction] part of a log. *)
Definition compaction_part (log : TxnLog) (md : TabletMetadata)
  : option (Status * TabletMetadata) :=
  match op_compaction log with
  | Some c => apply_compaction_log c md
  | None => Some (OK, md)
  end.

(** The next [k] calls into the file system go through. *)
Definition lets_through (k : nat) (s : list Status) : Prop :=
  ∀ i st, (i < k)%nat → s !! i = Some st → st = OK.

(** The serialization that corresponds to a cached value. *)
Definition blob_of (cv : CacheValue) : option Blob :=
  match cv with
  | CVMetadata m => Some (BMetadata m)
  | CVTxnLog l => Some (BTxnLog l)
  | CVSchema _ => None
  end.

(** Every key of the cache holds the alternative that belongs to the kind of
    its path. *)
Definition well_typed (p : Path) (cv : CacheValue) : Prop :=
  match p, cv with
  | MetaLoc _ _, CVMetadata _ => True
  | TxnLoc _ _, CVTxnLog _ => True
  | SchemaKey _, CVSchema _ => True
  | _, _ => False
  end.

Definition cache_typed (w : World) : Prop :=
  ∀ p cv, metacache w !! p = Some cv → well_typed p cv.

(** A cached metadata or txn log is what its object holds. *)
Definition coherent_at (w : World) (p : Path) (cv : CacheValue) : Prop :=
  match blob_of cv with
  | Some b => files w !! p = Some b
  | None => True
  end.

Definition cache_coherent (w : World) : Prop :=
  ∀ p cv, metacache w !! p = Some cv → coherent_at w p cv.

(** A metadata object is stored under the location of its own tablet id, as
    [put_tablet_metadata] does. *)
Definition metadata_ids_match (w : World) : Prop :=
  ∀ t v m, files w !! MetaLoc t v = Some (BMetadata m) → tablet_id m = t.

(** No fault is injected into the file system, the cache is typed and agrees
    with the store. *)
Definition good (w : World) : Prop :=
  io_script w = [] ∧ cache_typed w ∧ cache_coherent w.

(** Reading an object without cache and without faults. *)
Definition read_meta (f : gmap Path Blob) (tablet version : Z)
  : StatusOr TabletMetadata :=
  match f !! MetaLoc tablet version with
  | None => Error NotFound
  | Some (BMetadata m) => Value m
  | Some _ => Error Corruption
  end.

Definition read_log (f : gmap Path Blob) (tablet txn : Z) : StatusOr TxnLog :=
  match f !! TxnLoc tablet txn with
  | None => Error NotFound
  | Some (BTxnLog l) => Value l
  | Some _ => Error Corruption
  end.

(** The loop "Apply txn logs" of [publish] on the store alone. *)
Fixpoint apply_logs_ref (f : gmap Path Blob) (tablet new_version : Z)
    (txns : list Z) (md : TabletMetadata) : option (Status + TabletMetadata) :=
  match txns with
  | [] => Some (inr md)
  | txnid :: txns' =>
      match read_log f tablet txnid with
      | Error st =>
          if is_not_found st && ok (status_of (read_meta f tablet new_version))
          then Some (inl OK) else Some (inl st)
      | Value log =>
          match apply_txn_log log md with
          | None => None
          | Some (st, md') =>
              if negb (ok st) then Some (inl st)
              else apply_logs_ref f tablet new_version txns' md'
          end
      end
  end.

(** The store after the loop "Delete txn logs" of [publish]. *)
Definition delete_logs (tablet : Z) (txns : list Z) (f : gmap Path Blob)
  : gmap Path Blob :=
  foldl (fun f txn => delete (TxnLoc tablet txn) f) f txns.

(** The submit counts at which the nice value steps down (section 4.2.1). *)
Definition thresholds : list Z :=
  [5; 19; 49; 91; 145; 211; 289; 379; 481; 595; 721; 859; 1009; 1171; 1345;
   1531; 1729; 1939; 2161; 2395].

(** The values of a 32-bit integer. *)
Definition is_int32 (x : Z) : Prop := -2147483648 ≤ x < 2147483648.

(** What a thread of the token protocol accounts for: its flag, and the
    token it carries between the two stores of a method. *)
Definition weight (th : Scan.PendingToken.thread) : nat :=
  (Scan.PendingToken.count (Scan.PendingToken.flag th)
   + match Scan.PendingToken.at_pc th with
     | Scan.PendingToken.Idle => 0
     | _ => 1
     end)%nat.

Definition budget (s : Scan.PendingToken.state) : nat :=
  (Scan.PendingToken.count (Scan.PendingToken.slot s)
   + sum_list (map weight (Scan.PendingToken.threads s)))%nat.

(** *** Views of the node used by its invariants *)

(** How often the data source of a scanner was opened, and whether the
    scanner is open. *)
Definition open_state (s : Scan.ConnectorScanner.t) : nat * bool :=
  (Scan.open_calls (Scan.ConnectorScanner._data_source s),
   Scan.ConnectorScanner._is_open s).

Definition opens (n : Scan.ConnectorScanNode.t) : list (nat * bool) :=
  open_state <$> Scan.ConnectorScanNode._pool n.

(** The scanners that wait for a worker: in the pending queue, or as a task
    of the thread pool. *)
Definition live (n : Scan.ConnectorScanNode.t) : list nat :=
  Scan.ConnectorScanNode._pending_scanners n
  ++ (Scan.work_function
        <$> Scan.tasks (Scan.ConnectorScanNode.thread_pool n)).

(** The number of pending-token flags of the node that hold [true]. *)
Definition token_flag (s : Scan.ConnectorScanner.t) : nat :=
  Scan.PendingToken.count (Scan.ConnectorScanner._pending_token s).

Definition tokens (n : Scan.ConnectorScanNode.t) : nat :=
  (Scan.PendingToken.count (Scan.ConnectorScanNode._pending_token n)
   + sum_list (map token_flag (Scan.ConnectorScanNode._pool n)))%nat.

(** What the workers never touch, and the status, which stays an error once
    it is one. *)
Definition consumer_frame (n n' : Scan.ConnectorScanNode.t) : Prop :=
  Scan.ConnectorScanNode._limit n' = Scan.ConnectorScanNode._limit n
  ∧ Scan.ConnectorScanNode._num_rows_returned n'
    = Scan.ConnectorScanNode._num_rows_returned n
  ∧ Scan.ConnectorScanNode._start n' = Scan.ConnectorScanNode._start n
  ∧ Scan.ConnectorScanNode._scan_ranges n'
    = Scan.ConnectorScanNode._scan_ranges n
  ∧ (ok (Scan.ConnectorScanNode._status n) = false →
     ok (Scan.ConnectorScanNode._status n') = false).

(** What happened to the open state of the scanner of a task. *)
Inductive open_change := Same | Opened | Failed.

(** What a piece of a worker task on [scanner] does to the views: the
    tokens do not grow; the waiting scanners are some of those that waited,
    with [scanner] among them again when [requeued]; the open states are as
    they were, but for [scanner] when its data source was opened. *)
Definition scanners_change (scanner : nat) (requeued : bool) (o : open_change)
    (n n' : Scan.ConnectorScanNode.t) : Prop :=
  (tokens n' ≤ tokens n)%nat
  ∧ live n' ⊆+ (if requeued then scanner :: live n else live n)
  ∧ match o with
    | Same => opens n' = opens n
    | Opened =>
        ∃ c, opens n !! scanner = Some (c, false)
             ∧ opens n' = <[scanner := (S c, true)]> (opens n)
    | Failed =>
        ∃ c, opens n !! scanner = Some (c, false)
             ∧ opens n' = <[scanner := (S c, false)]> (opens n)
    end.

Definition changes (scanner : nat) (requeued : bool) (o : open_change)
    (n n' : Scan.ConnectorScanNode.t) : Prop :=
  consumer_frame n n' ∧ scanners_change scanner requeued o n n'.

Definition settles (n n' : Scan.ConnectorScanNode.t) : Prop :=
  changes 0 false Same n n'.

(** The invariant of the node on its scanners: no scanner waits twice; the
    data source of a scanner was opened at most once; a scanner whose data
    source failed to open does not wait for a worker; before the scan has
    started there are no scanners; and the data sources of the scan ranges
    were never opened. *)
Definition scanners_inv (n : Scan.ConnectorScanNode.t) : Prop :=
  NoDup (live n)
  ∧ (∀ scanner c b, opens n !! scanner = Some (c, b) →
       (c ≤ 1)%nat ∧ (c = 1%nat → b = false → scanner ∉ live n))
  ∧ (Scan.ConnectorScanNode._start n = false →
       Scan.ConnectorScanNode._pool n = [] ∧ live n = [])
  ∧ Forall (fun d => Scan.open_calls d = 0%nat)
      (Scan.ConnectorScanNode._scan_ranges n)
  ∧ (tokens n ≤ 1)%nat.

(** *** Runs of the consumer *)

(** What the other threads of the node may do between two steps of the
    consumer: they leave the limit and the counter of returned rows alone,
    and a status that is an error stays one. *)
Definition interference (n n' : Scan.ConnectorScanNode.t) : Prop :=
  Scan.ConnectorScanNode._limit n' = Scan.ConnectorScanNode._limit n
  ∧ Scan.ConnectorScanNode._num_rows_returned n'
    = Scan.ConnectorScanNode._num_rows_returned n
  ∧ (ok (Scan.ConnectorScanNode._status n) = false →
     ok (Scan.ConnectorScanNode._status n') = false).





(** * Further operations and views of the tablet manager *)

(** ** Ranges of rowset ids *)

(** A rowset reserves the ids from its own up to, and not including, its own
    plus its number of segments.  The ranges of the rowsets of a metadata
    follow each other in the order of the rowsets. *)
Definition ranges_ordered (rs : list RowsetMetadata) : Prop :=
  ∀ i j a b, (i < j)%nat → rs !! i = Some a → rs !! j = Some b →
    rowset_id a + segments_size a ≤ rowset_id b.

(** Every range ends at or below [next_rowset_id]. *)
Definition ranges_bounded (md : TabletMetadata) : Prop :=
  ∀ r, r ∈ rowsets md → rowset_id r + segments_size r ≤ next_rowset_id md.

Definition ranges_ok (md : TabletMetadata) : Prop :=
  ranges_ordered (rowsets md) ∧ ranges_bounded md.

(** The segments by which a log moves [next_rowset_id] on at most: those
    of the rowset of its write and those of the output of its compaction,
    where they have rows. *)
Definition write_segments (w : TxnLogPB_OpWrite) : Z :=
  match op_write_rowset w with
  | Some r => if 0 <? num_rows r then segments_size r else 0
  | None => 0
  end.

Definition compaction_segments (c : TxnLogPB_OpCompaction) : Z :=
  match output_rowset c with
  | Some out => if 0 <? num_rows out then segments_size out else 0
  | None => 0
  end.

Definition new_segments (log : TxnLog) : Z :=
  from_option write_segments 0 (op_write log)
  + from_option compaction_segments 0 (op_compaction log).

(** The same of a list of logs. *)
Definition all_new_segments (logs : list TxnLog) : Z :=
  foldr (fun log acc => new_segments log + acc) 0 logs.

(** The logs applied one after the other, as long as each is accepted. *)
Fixpoint replay (logs : list TxnLog) (md : TabletMetadata)
  : option TabletMetadata :=
  match logs with
  | [] => Some md
  | log :: rest =>
      match apply_txn_log log md with
      | Some (st, md') => if ok st then replay rest md' else None
      | None => None
      end
  end.

(** ** Writing an object *)

(** The body that [put_tablet_metadata] and [put_txn_log] share, lines
    150-160 and 274-284: create or truncate the object, append the
    serialization, close, and offer the value to the metacache. *)
Definition write_object (location : Path) (data : Blob) (value : CacheValue)
  : M Status :=
  st <- new_writable_file location ;;
  if negb (ok st) then ret st else
  st <- append location data ;;
  if negb (ok st) then ret st else
  st <- close_file ;;
  if negb (ok st) then ret st else
  inserted <- fill_metacache location value ;;
  ret OK.

(** ** Listing and dropping the objects of a tablet *)

(** The tablet in the name of a path. *)
Definition tablet_of (p : Path) : Z :=
  match p with
  | MetaLoc t _ => t
  | TxnLoc t _ => t
  | SchemaKey t => t
  end.

(** [HasPrefixString(name, fmt::format("tbl_{:016X}_", tablet_id))]: the
    name is the one of a metadata of the tablet. *)
Definition has_tablet_metadata_prefix (tablet : Z) (name : Path) : bool :=
  match name with
  | MetaLoc t _ => t =? tablet
  | _ => false
  end.

(** [HasPrefixString(name, fmt::format("txn_{:016X}_", tablet_id))]. *)
Definition has_txnlog_prefix (tablet : Z) (name : Path) : bool :=
  match name with
  | TxnLoc t _ => t =? tablet
  | _ => false
  end.

(** [HasPrefixString(name, "tbl_")] and [HasPrefixString(name, "txn_")]. *)
Definition has_tbl_prefix (name : Path) : bool :=
  match name with
  | MetaLoc _ _ => true
  | _ => false
  end.

Definition has_txn_prefix (name : Path) : bool :=
  match name with
  | TxnLoc _ _ => true
  | _ => false
  end.

(** The objects that [drop_tablet] collects: the metadata and the txn logs
    of the tablet. *)
Definition is_object_of (tablet : Z) (name : Path) : bool :=
  has_tablet_metadata_prefix tablet name || has_txnlog_prefix tablet name.

(** [TabletManager::lookup_tablet_schema], tablet_manager.cpp:73. *)
Definition lookup_tablet_schema (key : Path) : M (option TabletSchema) :=
  handle <- cache_lookup key ;;
  match handle with
  | None => ret None
  | Some (CVSchema schema) => ret (Some schema)
  | Some _ => abort
  end.

(** [TabletManager::get_tablet], tablet_manager.cpp:122. *)
Definition get_tablet (tablet_id : Z) : StatusOr Tablet := Value tablet_id.

(** The loop of [drop_tablet], lines 140-143; the result of [delete_file]
    is dropped. *)
Fixpoint drop_objects (objects : list Path) : M unit :=
  match objects with
  | [] => ret tt
  | obj :: rest =>
      _ <- erase_metacache obj ;;
      _ <- delete_file obj ;;
      drop_objects rest
  end.

Section Collaborators.

(** Modelled from the spec: [LocationProvider], [FileSystem::iterate_dir],
    the iterator over metadata and [GlobalTabletSchemaMap] are known by
    their interfaces only (sections 2, 4.4 and 6 of the specification).
    [root_location] is the root directory of a tablet, and the objects of a
    tablet are children of its root: joining the root and the name of a
    child gives the path of the object.  [readdir] is the order in which the
    file system hands out the children of a directory.  [emplace] is the
    schema map: the shared schema, if any, and whether this call has
    inserted it.  [iterator_fill_cache] is the [fill_cache] with which the
    iterator resolves a path through [get_tablet_metadata]. *)
Variable root_location : Z → Z.
Variable readdir : list Path → list Path.
Variable emplace : TabletSchema → option TabletSchema * bool.
Variable iterator_fill_cache : bool.

(** The children of a directory. *)
Definition children (root : Z) (w : World) : list Path :=
  List.filter (fun p => root_location (tablet_of p) =? root)
    (readdir (map fst (map_to_list (files w)))).

(** [FileSystem::CreateSharedFromString]. *)
Definition CreateSharedFromString : M Status := fs_call.

(** [fs->iterate_dir(root, cb)] with a callback that always returns [true]:
    the names handed to the callback.  The callers drop what was collected
    when the iteration fails. *)
Definition iterate_dir (root : Z) : M (StatusOr (list Path)) :=
  st <- fs_call ;;
  if negb (ok st) then ret (Error st)
  else fun w => Some (Value (children root w), w).

(** [TabletManager::drop_tablet], tablet_manager.cpp:126. *)
Definition drop_tablet (tablet_id : Z) : M Status :=
  let root_path := root_location tablet_id in
  fs <- CreateSharedFromString ;;
  if negb (ok fs) then ret fs else
  listed <- iterate_dir root_path ;;
  match listed with
  | Error st => ret st
  | Value names =>
      let objects :=
        List.filter (fun name => has_tablet_metadata_prefix tablet_id name
                                 || has_txnlog_prefix tablet_id name) names in
      _ <- drop_objects objects ;;
      _ <- erase_metacache (tablet_schema_cache_key tablet_id) ;;
      ret OK
  end.

(** [TabletManager::list_tablet_metadata], tablet_manager.cpp:209: the
    objects of the iterator that is returned. *)
Definition list_tablet_metadata (tablet_id : Z) (filter_tablet : bool)
  : M (StatusOr (list Path)) :=
  let prefix := if filter_tablet then has_tablet_metadata_prefix tablet_id
                else has_tbl_prefix in
  let root := root_location tablet_id in
  fs <- CreateSharedFromString ;;
  if negb (ok fs) then ret (Error fs) else
  listed <- iterate_dir root ;;
  match listed with
  | Error st => ret (Error st)
  | Value names => ret (Value (List.filter prefix names))
  end.

(** [TabletManager::list_txn_log], tablet_manager.cpp:297. *)
Definition list_txn_log (tablet_id : Z) (filter_tablet : bool)
  : M (StatusOr (list Path)) :=
  let prefix := if filter_tablet then has_txnlog_prefix tablet_id
                else has_txn_prefix in
  let root := root_location tablet_id in
  fs <- CreateSharedFromString ;;
  if negb (ok fs) then ret (Error fs) else
  listed <- iterate_dir root ;;
  match listed with
  | Error st => ret (Error st)
  | Value names => ret (Value (List.filter prefix names))
  end.

(** [TabletManager::get_tablet_schema], tablet_manager.cpp:320.  The weight
    of the entry, which depends on [inserted], only informs the decision of
    the cache. *)
Definition get_tablet_schema (tablet_id : Z) : M (StatusOr TabletSchema) :=
  let cache_key := tablet_schema_cache_key tablet_id in
  ptr <- lookup_tablet_schema cache_key ;;
  match ptr with
  | Some schema => ret (Value schema)
  | None =>
      listed <- list_tablet_metadata tablet_id true ;;
      match listed with
      | Error st => ret (Error st)
      | Value metadata_iter =>
          match metadata_iter with
          | [] => ret (Error NotFound)
          | path :: _ =>
              res <- get_tablet_metadata_path path iterator_fill_cache ;;
              match res with
              | Error st => ret (Error st)
              | Value metadata =>
                  match emplace (schema metadata) with
                  | (None, _) => ret (Error InternalError)
                  | (Some schema, inserted) =>
                      _ <- fill_metacache cache_key (CVSchema schema) ;;
                      ret (Value schema)
                  end
              end
          end
      end
  end.

End Collaborators.

(** ** Creating a tablet *)

Section CreateTablet.

(** Modelled from the spec: the thrift request and
    [convert_t_schema_to_pb_schema] (storage/metadata_util.h) are not among
    the sources.  A request is a tablet id and the columns of its schema;
    the conversion is given the columns, the next unique id and the map
    from the index of a column to its unique id. *)
Variable TColumn : Type.
Variable convert_t_schema_to_pb_schema :
  list TColumn → Z → list (nat * nat) → StatusOr TabletSchema.

Record TCreateTabletReq := {
  req_tablet_id : Z;
  req_columns : list TColumn
}.

(** [TabletManager::create_tablet], tablet_manager.cpp:103. *)
Definition create_tablet (req : TCreateTabletReq) : M Status :=
  let next_unique_id := length (req_columns req) in
  let col_idx_to_unique_id :=
    (fun col_idx => (col_idx, col_idx)) <$> seq 0 next_unique_id in
  match convert_t_schema_to_pb_schema (req_columns req)
          (Z.of_nat next_unique_id) col_idx_to_unique_id with
  | Error st => ret st
  | Value schema =>
      put_tablet_metadata
        {| tablet_id := req_tablet_id req; version := 1;
           next_rowset_id := 1; schema := schema; rowsets := [] |}
  end.

End CreateTablet.

Arguments req_tablet_id {TColumn} _.
Arguments req_columns {TColumn} _.
Arguments create_tablet {TColumn} _ _.

(** ** Compaction tasks *)

(** Modelled from the spec: [HorizontalCompactionTask] and [Rowset] are not
    among the sources; the task binds the transaction, the version, the
    tablet and one rowset for every rowset of the metadata (section 4.6). *)
Record CompactionTask := {
  task_txn_id : Z;
  task_version : Z;
  task_tablet : Tablet;
  task_input_rowsets : list RowsetMetadata
}.

(** [TabletManager::compact], tablet_manager.cpp:475. *)
Definition compact (tablet_id version txn_id : Z)
  : M (StatusOr CompactionTask) :=
  match get_tablet tablet_id with
  | Error st => ret (Error st)
  | Value tablet =>
      res <- Tablet_get_metadata tablet version ;;
      match res with
      | Error st => ret (Error st)
      | Value metadata =>
          ret (Value {| task_txn_id := txn_id; task_version := version;
                        task_tablet := tablet;
                        task_input_rowsets := rowsets metadata |})
      end
  end.

(** * Further views of the scan node *)

Module NodeViews.

Import Scan Scan.ConnectorScanNode.

(** What the counter of running threads counts beyond the tasks of the node
    that wait in the pool: the workers that run, as a 32-bit value. *)
Definition outstanding (n : t) : Z :=
  wrap32 (_running_threads n - Z.of_nat (length (tasks (thread_pool n)))).

(** The chunks that the node holds, in the chunk pool and in the queue of
    results. *)
Definition chunks (n : t) : nat :=
  (length (_chunk_pool n) + length (items (_result_chunks n)))%nat.

(** The chunks that [_start_scan_thread] fills the pool with. *)
Definition chunk_budget (n : t) : nat :=
  Z.to_nat (_chunks_per_scanner n
            * Z.min (max_hdfs_scanner_num (config n)) (_num_scanners n)).

(** What is set up by the start of the scan and before. *)
Definition same_setup (n n' : t) : Prop :=
  config n' = config n ∧ chunk_size n' = chunk_size n
  ∧ _limit n' = _limit n
  ∧ connector_scan_node_open_limit n' = connector_scan_node_open_limit n
  ∧ _scan_ranges n' = _scan_ranges n
  ∧ _start n' = _start n ∧ _closed n' = _closed n
  ∧ _num_scanners n' = _num_scanners n
  ∧ _chunks_per_scanner n' = _chunks_per_scanner n
  ∧ _num_rows_returned n' = _num_rows_returned n.

(** What scheduling a scanner keeps: the setup, the status, the chunks, and
    the workers that run. *)
Definition sched_keeps (n n' : t) : Prop :=
  same_setup n n'
  ∧ _status n' = _status n
  ∧ _result_chunks n' = _result_chunks n
  ∧ _chunk_pool n' = _chunk_pool n
  ∧ _closed_scanners n' = _closed_scanners n
  ∧ outstanding n' = outstanding n
  ∧ (is_int32 (_running_threads n) → is_int32 (_running_threads n')).

(** What the body of a worker keeps: the setup; a status that is an error;
    a queue that is shut down; the chunks that are in the queue, to which
    it may add; the number of chunks, which it does not raise; and the
    workers that run. *)
Definition worker_keeps (n n' : t) : Prop :=
  same_setup n n'
  ∧ (ok (_status n) = false → _status n' = _status n)
  ∧ (is_shutdown (_result_chunks n) = true →
     _result_chunks n' = _result_chunks n)
  ∧ (∃ k, items (_result_chunks n')
          = items (_result_chunks n) ++ k)
  ∧ (chunks n' ≤ chunks n)%nat
  ∧ outstanding n' = outstanding n
  ∧ (is_int32 (_running_threads n) → is_int32 (_running_threads n')).

(** The invariant of the node on its counters: the counter of running
    threads is the number of tasks of the node in the pool, as a 32-bit
    value; the node holds no more chunks than the start of the scan has
    made, and none before. *)
Definition counters_inv (n : t) : Prop :=
  outstanding n = 0
  ∧ is_int32 (_running_threads n)
  ∧ (chunks n ≤ chunk_budget n)%nat
  ∧ (_start n = false → chunks n = 0%nat).

(** What every step of the node keeps: a status that is an error; a queue
    that is shut down, which can only lose its oldest chunk; the start and
    the close of the node, and what the start has set up. *)
Definition step_keeps (n n' : t) : Prop :=
  (ok (_status n) = false → _status n' = _status n)
  ∧ (is_shutdown (_result_chunks n) = true →
     is_shutdown (_result_chunks n') = true
     ∧ (items (_result_chunks n') = items (_result_chunks n)
        ∨ ∃ c, items (_result_chunks n)
               = c :: items (_result_chunks n')))
  ∧ config n' = config n ∧ chunk_size n' = chunk_size n
  ∧ _limit n' = _limit n
  ∧ (_start n = true →
     _start n' = true ∧ _num_scanners n' = _num_scanners n
     ∧ _chunks_per_scanner n' = _chunks_per_scanner n)
  ∧ (_closed n = true → _closed n' = true).

End NodeViews.

(** * Sample data for the worked examples *)


Definition two_segment_rowset (rows : Z) : RowsetMetadata :=
  {| rowset_id := 0; segments := ["seg_0"; "seg_1"]%string; num_rows := rows |}.

Definition metadata_v5 : TabletMetadata :=
  {| tablet_id := 10; version := 5; next_rowset_id := 7; schema := [0; 1];
     rowsets := [] |}.

(** A tablet whose [next_rowset_id] is the last value of a [uint32]. *)
Definition metadata_last_id : TabletMetadata :=
  {| tablet_id := 10; version := 5; next_rowset_id := 4294967295;
     schema := [0; 1]; rowsets := [] |}.

Definition rowset_with_id (id : Z) : RowsetMetadata :=
  {| rowset_id := id; segments := ["seg"]%string; num_rows := 10 |}.

(** A tablet with the single rowset 1, and a compaction of the rowsets 1 and
    2 into nothing: rowset 2 does not exist. *)
Definition metadata_one_rowset : TabletMetadata :=
  {| tablet_id := 10; version := 5; next_rowset_id := 2; schema := [0; 1];
     rowsets := [rowset_with_id 1] |}.

Definition compaction_of_1_and_2 : TxnLogPB_OpCompaction :=
  {| input_rowsets := [1; 2]; output_rowset := None |}.

(** A tablet with the rowsets 1, 2, 3, 4 and a compaction of the adjacent
    rowsets 1 and 2. *)
Definition metadata_four_rowsets : TabletMetadata :=
  {| tablet_id := 10; version := 5; next_rowset_id := 5; schema := [0; 1];
     rowsets := [rowset_with_id 1; rowset_with_id 2;
                 rowset_with_id 3; rowset_with_id 4] |}.

Definition compaction_of_1_and_2_only : TxnLogPB_OpCompaction :=
  {| input_rowsets := [1; 2]; output_rowset := None |}.

(** A log with a compaction of the missing rowset 7 and a schema change. *)
Definition log_bad_compaction_and_schema_change : TxnLog :=
  {| log_tablet_id := Some 10; log_txn_id := Some 1;
     op_write := None;
     op_compaction :=
       Some {| input_rowsets := [7]; output_rowset := None |};
     op_schema_change := Some OpSchemaChange |}.

(** A log with a write of one rowset and a schema change. *)
Definition log_write_and_schema_change : TxnLog :=
  {| log_tablet_id := Some 10; log_txn_id := Some 2;
     op_write := Some {| op_write_rowset := Some (two_segment_rowset 100) |};
     op_compaction := None;
     op_schema_change := Some OpSchemaChange |}.

(** A store with version 5 of tablet 10 and the logs of the transactions 1
    and 2, each writing a rowset of two segments; an empty cache that rejects
    the first two insertions. *)
Definition write_log (txn rows : Z) : TxnLog :=
  {| log_tablet_id := Some 10; log_txn_id := Some txn;
     op_write := Some {| op_write_rowset := Some (two_segment_rowset rows) |};
     op_compaction := None;
     op_schema_change := None |}.

Definition rejecting : Verdict := {| taken := false; evicted := [] |}.

Definition world_v5 : World :=
  {| files := <[MetaLoc 10 5 := BMetadata metadata_v5]>
                (<[TxnLoc 10 1 := BTxnLog (write_log 1 100)]>
                   (<[TxnLoc 10 2 := BTxnLog (write_log 2 50)]> ∅));
     metacache := ∅;
     io_script := [];
     cache_script := [rejecting; rejecting] |}.

(** A scan node over one scan range whose data source yields three chunks
    of 1024 rows, with a limit of 1500 rows; the thread pool refuses the
    first non-blocking offer. *)
Definition three_chunks : Scan.DataSource :=
  {| Scan.open_script := [];
     Scan.next_script :=
       [(OK, 1024%N, 1024); (OK, 1024%N, 1024); (OK, 1024%N, 1024)];
     Scan.raw_rows_read := 0; Scan.num_rows_read := 0;
     Scan.open_calls := 0; Scan.close_calls := 0 |}.

Definition node0 : Scan.ConnectorScanNode.t :=
  {| Scan.ConnectorScanNode.config :=
       {| Scan.doris_scanner_row_num := 16384;
          Scan.max_hdfs_scanner_num := 8;
          Scan.max_hdfs_file_handle := 1000 |};
     Scan.ConnectorScanNode.chunk_size := 4096;
     Scan.ConnectorScanNode._limit := 1500;
     Scan.ConnectorScanNode.eval_join_runtime_filters := fun c => c;
     Scan.ConnectorScanNode.connector_scan_node_open_limit := 0;
     Scan.ConnectorScanNode._scan_ranges := [three_chunks];
     Scan.ConnectorScanNode._pool := [];
     Scan.ConnectorScanNode._status := OK;
     Scan.ConnectorScanNode._start := false;
     Scan.ConnectorScanNode._closed := false;
     Scan.ConnectorScanNode._num_rows_returned := 0;
     Scan.ConnectorScanNode._result_chunks :=
       {| Scan.items := []; Scan.is_shutdown := false |};
     Scan.ConnectorScanNode._chunk_pool := [];
     Scan.ConnectorScanNode._chunks_per_scanner := 0;
     Scan.ConnectorScanNode._num_scanners := 0;
     Scan.ConnectorScanNode._pending_scanners := [];
     Scan.ConnectorScanNode._running_threads := 0;
     Scan.ConnectorScanNode._closed_scanners := 0;
     Scan.ConnectorScanNode._scanner_submit_count := 0;
     Scan.ConnectorScanNode._pending_token := true;
     Scan.ConnectorScanNode.thread_pool :=
       {| Scan.tasks := []; Scan.try_offer_script := [false] |} |}.

Definition state_after {A} (m : StateM Scan.ConnectorScanNode.t A)
    (n : Scan.ConnectorScanNode.t) : Scan.ConnectorScanNode.t :=
  match m n with
  | Some (_, n') => n'
  | None => n
  end.

(** The first call of [get_next] has started the scan and waits. *)
Definition node1 : Scan.ConnectorScanNode.t :=
  Eval vm_compute in state_after Scan.ConnectorScanNode.get_next_begin node0.

(** A worker has run the task of the scanner. *)
Definition node2 : Scan.ConnectorScanNode.t :=
  Eval vm_compute in
    state_after (Scan.ConnectorScanNode._scanner_thread 0)
      (Scan.ConnectorScanNode.take_task 0 node1).

(** The first call of [get_next] has returned a chunk. *)
Definition node3 : Scan.ConnectorScanNode.t :=
  Eval vm_compute in state_after Scan.ConnectorScanNode.get_next_end node2.

(** The second call of [get_next] waits. *)
Definition node4 : Scan.ConnectorScanNode.t :=
  Eval vm_compute in state_after Scan.ConnectorScanNode.get_next_begin node3.

(** The node after the start of the scan, with a pool that refuses the next
    offer. *)
Definition node_busy : Scan.ConnectorScanNode.t :=
  Eval vm_compute in
    Scan.ConnectorScanNode.set_thread_pool
      {| Scan.tasks := Scan.tasks (Scan.ConnectorScanNode.thread_pool node1);
         Scan.try_offer_script := [false] |} node1.

(** A state of the token protocol: one scanner, which holds the token. *)
Definition token_held : Scan.PendingToken.state :=
  {| Scan.PendingToken.slot := false;
     Scan.PendingToken.threads :=
       [{| Scan.PendingToken.flag := true;
           Scan.PendingToken.at_pc := Scan.PendingToken.Idle |}] |}.

(** The second call of [get_next] has returned the chunk that reaches the
    limit. *)
Definition node5 : Scan.ConnectorScanNode.t :=
  Eval vm_compute in state_after Scan.ConnectorScanNode.get_next_end node4.

(** ** Further sample data *)

(** A compaction of all four rowsets of [metadata_four_rowsets] into one
    rowset of two segments. *)
Definition compaction_of_all_four : TxnLogPB_OpCompaction :=
  {| input_rowsets := [1; 2; 3; 4];
     output_rowset := Some (two_segment_rowset 40) |}.

(** Version 6 of tablet 10: version 5 with the rowsets of the transactions 1
    and 2. *)
Definition metadata_v6 : TabletMetadata :=
  {| tablet_id := 10; version := 6; next_rowset_id := 11; schema := [0; 1];
     rowsets := [set_id 7 (two_segment_rowset 100);
                 set_id 9 (two_segment_rowset 50)] |}.

(** The store of [world_v5] with version 1 of a second tablet, 20. *)
Definition metadata_of_20 : TabletMetadata :=
  {| tablet_id := 20; version := 1; next_rowset_id := 1; schema := [0];
     rowsets := [] |}.

Definition world_two_tablets : World :=
  {| files := <[MetaLoc 20 1 := BMetadata metadata_of_20]> (files world_v5);
     metacache := ∅;
     io_script := [];
     cache_script := [] |}.

(** A store with version 5 of tablet 10 and its four rowsets. *)
Definition world_four_rowsets : World :=
  {| files := <[MetaLoc 10 5 := BMetadata metadata_four_rowsets]> ∅;
     metacache := ∅;
     io_script := [];
     cache_script := [] |}.

(** Collaborators: every tablet under the one root 0, a file system that
    lists a directory in the order of the store, and a schema map that
    holds no schema yet. *)
Definition one_root : Z → Z := fun _ => 0.

Definition in_order : list Path → list Path := fun l => l.

Definition fresh_schema (s : TabletSchema) : option TabletSchema * bool :=
  (Some s, true).

(** A conversion that takes the columns for the ids of the schema, and a
    request for tablet 11 with two columns. *)
Definition columns_as_ids (columns : list Z) (next_unique_id : Z)
    (col_idx_to_unique_id : list (nat * nat)) : StatusOr TabletSchema :=
  Value columns.

Definition create_tablet_11 : TCreateTabletReq Z :=
  {| req_tablet_id := 11; req_columns := [0; 1] |}.

(** The log of transaction 3 on tablet 11: a write of one rowset. *)
Definition write_log_11 : TxnLog :=
  {| log_tablet_id := Some 11; log_txn_id := Some 3;
     op_write := Some {| op_write_rowset := Some (two_segment_rowset 100) |};
     op_compaction := None;
     op_schema_change := None |}.

(** A third call of [get_next] on the node that has reached its limit. *)
Definition node6 : Scan.ConnectorScanNode.t :=
  Eval vm_compute in state_after Scan.ConnectorScanNode.get_next_begin node5.


(** * Properties of the lake tablet manager *)


(** C3 (counterexample).  [next_rowset_id] is not always advanced by the
    number of segments: it is a [uint32], and at the top of its range the
    sum wraps around.  A rowset of two segments written at
    [next_rowset_id = 4294967295] leaves [next_rowset_id = 1]. *)
Lemma apply_write_log_wraps_around :
  ¬ (∀ op md r,
       op_write_rowset op = Some r → 0 < num_rows r →
       ∃ md', apply_write_log op md = (OK, md')
              ∧ next_rowset_id md'
                = next_rowset_id md + segments_size r).
Proof.
  intros H.
  destruct (H {| op_write_rowset := Some (two_segment_rowset 100) |}
              metadata_last_id (two_segment_rowset 100) eq_refl eq_refl)
    as (md' & Hmd' & Hnext).
  vm_compute in Hmd'. injection Hmd' as <-. vm_compute in Hnext.
  discriminate.
Qed.

Lemma to_uint32_id (x : Z) : 0 ≤ x ≤ 4294967295 → to_uint32 x = x.
Proof. intros H. unfold to_uint32. apply Z.mod_small. lia. Qed.

(** C3 (amended).  [apply_write_log] always returns [OK].  A log that
    carries a rowset with [num_rows > 0] appends that rowset with its id
    set to the current [next_rowset_id] and advances [next_rowset_id] by
    the number of segments of the rowset modulo 2^32, which is the sum
    itself as long as it is at most 4294967295; a log without rowset, or
    with a rowset that has no rows, leaves the metadata unchanged.  Hence
    two write logs that each add a rowset of two segments give the ids
    [base] and [base + 2] and [next_rowset_id = base + 4] whenever
    [base + 4] is at most 4294967295. *)
Theorem apply_write_log_appends (op : TxnLogPB_OpWrite) (md : TabletMetadata) :
  (∀ r, op_write_rowset op = Some r → 0 < num_rows r →
     apply_write_log op md =
       (OK, {| tablet_id := tablet_id md; version := version md;
               next_rowset_id :=
                 to_uint32 (next_rowset_id md + segments_size r);
               schema := schema md;
               rowsets := rowsets md ++ [set_id (next_rowset_id md) r] |})
     ∧ (0 ≤ next_rowset_id md →
        next_rowset_id md + segments_size r ≤ 4294967295 →
        to_uint32 (next_rowset_id md + segments_size r)
        = next_rowset_id md + segments_size r))
  ∧ (op_write_rowset op = None → apply_write_log op md = (OK, md))
  ∧ (∀ r, op_write_rowset op = Some r → num_rows r ≤ 0 →
       apply_write_log op md = (OK, md))
  ∧ (∀ r1 r2 op2,
       op_write_rowset op = Some r1 → op_write_rowset op2 = Some r2 →
       0 < num_rows r1 → 0 < num_rows r2 →
       segments_size r1 = 2 → segments_size r2 = 2 →
       0 ≤ next_rowset_id md → next_rowset_id md + 4 ≤ 4294967295 →
       ∃ md1 md2,
         apply_write_log op md = (OK, md1)
         ∧ apply_write_log op2 md1 = (OK, md2)
         ∧ rowsets md2 =
             rowsets md ++ [set_id (next_rowset_id md) r1;
                            set_id (next_rowset_id md + 2) r2]
         ∧ next_rowset_id md2 = next_rowset_id md + 4
         ∧ version md2 = version md ∧ tablet_id md2 = tablet_id md).
Proof.
  assert (Hpos : ∀ md r op, op_write_rowset op = Some r → 0 < num_rows r →
     apply_write_log op md =
       (OK, {| tablet_id := tablet_id md; version := version md;
               next_rowset_id :=
                 to_uint32 (next_rowset_id md + segments_size r);
               schema := schema md;
               rowsets := rowsets md ++ [set_id (next_rowset_id md) r] |})).
  { intros md0 r op0 Hr Hn. unfold apply_write_log. rewrite Hr.
    apply Z.ltb_lt in Hn. rewrite Hn. reflexivity. }
  split; [|split; [|split]].
  - intros r Hr Hn. split; [apply Hpos; assumption|].
    intros H0 Hfit. apply to_uint32_id.
    pose proof (Zle_0_nat (length (segments r))). unfold segments_size in *.
    lia.
  - intros Hr. unfold apply_write_log. rewrite Hr. reflexivity.
  - intros r Hr Hn. unfold apply_write_log. rewrite Hr.
    destruct (Z.ltb_spec 0 (num_rows r)); [lia|reflexivity].
  - intros r1 r2 op2 H1 H2 Hn1 Hn2 Hs1 Hs2 H0 Hfit.
    eexists _, _. split; [apply Hpos; eassumption|].
    split; [apply Hpos; eassumption|].
    cbn. rewrite <- app_assoc. cbn.
    rewrite Hs1, Hs2.
    rewrite (to_uint32_id (next_rowset_id md + 2)) by lia.
    rewrite to_uint32_id by lia.
    repeat split; try reflexivity. lia.
Qed.

Lemma apply_write_log_appends_witness :
  ∃ md1 md2,
    apply_write_log {| op_write_rowset := Some (two_segment_rowset 100) |}
      metadata_v5 = (OK, md1)
    ∧ apply_write_log {| op_write_rowset := Some (two_segment_rowset 50) |}
        md1 = (OK, md2)
    ∧ rowsets md2 =
        rowsets metadata_v5 ++ [set_id 7 (two_segment_rowset 100);
                                set_id (7 + 2) (two_segment_rowset 50)]
    ∧ next_rowset_id md2 = 7 + 4
    ∧ version md2 = 5 ∧ tablet_id md2 = 10.
Proof.
  apply (proj2 (proj2 (proj2 (apply_write_log_appends
           {| op_write_rowset := Some (two_segment_rowset 100) |}
           metadata_v5)))); (reflexivity || (vm_compute; discriminate)).
Defined.

(** ** Compaction logs *)

(** C2 (evaluation of the code at the failing input).  The safety check of
    [apply_compaction_log] runs [rowsets_size() - 1] times instead of once
    per input after the first.  With a single rowset in the metadata it does
    not run at all: the compaction of the rowsets 1 and 2 is accepted, and
    rowset 1 erased, although no rowset 2 exists. *)
Theorem apply_compaction_log_accepts_missing_input :
  (∀ r, r ∈ rowsets metadata_one_rowset → rowset_id r ≠ 2)
  ∧ apply_compaction_log compaction_of_1_and_2 metadata_one_rowset
    = Some (OK, set_rowsets [] metadata_one_rowset).
Proof.
  split; [|reflexivity].
  intros r Hr. cbn in Hr. apply list_elem_of_singleton in Hr. subst r.
  cbn. discriminate.
Qed.

(** The same loop bound makes the check read [input_rowsets(2)] of a log
    with two inputs as soon as the metadata has more rowsets than the log
    has inputs: the compaction of two adjacent rowsets out of four leaves
    defined behaviour. *)
Lemma apply_compaction_log_reads_past_inputs :
  apply_compaction_log compaction_of_1_and_2_only metadata_four_rowsets = None.
Proof. reflexivity. Qed.

(** ** Transaction logs *)

(** C8 (counterexample).  A log with a compaction and a schema change does
    not always end in [NotSupported]: when the compaction is rejected, its
    [InternalError] is what [apply_txn_log] returns. *)
Lemma apply_txn_log_compaction_error_wins :
  ¬ (∀ log md,
       (is_Some (op_write log) ∨ is_Some (op_compaction log)) →
       is_Some (op_schema_change log) →
       ∃ md', apply_txn_log log md = Some (NotSupported, md')).
Proof.
  intros H.
  destruct (H log_bad_compaction_and_schema_change metadata_v5) as [md' Hmd'].
  - right. eexists. reflexivity.
  - eexists. reflexivity.
  - vm_compute in Hmd'. discriminate.
Qed.

Lemma apply_write_log_ok (w : TxnLogPB_OpWrite) (md : TabletMetadata) :
  fst (apply_write_log w md) = OK.
Proof.
  unfold apply_write_log.
  destruct (op_write_rowset w) as [r|]; [|reflexivity].
  destruct (0 <? num_rows r); reflexivity.
Qed.

Lemma apply_txn_log_unfold (log : TxnLog) (md : TabletMetadata) :
  apply_txn_log log md =
    match compaction_part log (after_write log md) with
    | None => None
    | Some (st2, md2) =>
        if negb (ok st2) then Some (st2, md2)
        else match op_schema_change log with
             | Some _ => Some (NotSupported, md2)
             | None => Some (OK, md2)
             end
    end.
Proof.
  unfold apply_txn_log, compaction_part, after_write.
  destruct (op_write log) as [w|]; [|reflexivity].
  pose proof (apply_write_log_ok w md) as Hw.
  destruct (apply_write_log w md) as [st1 md1]. cbn in *. subst st1.
  reflexivity.
Qed.

(** C8 (amended).  [apply_txn_log] is not atomic per log.  The [op_write]
    part is applied first, the [op_compaction] part on its result.  When
    both succeed and the log carries an [op_schema_change], the call returns
    [NotSupported] together with the metadata as those parts left it; when
    the compaction part fails, its status is returned, with the [op_write]
    mutation still in place; and [OK] is returned exactly for a log whose
    parts succeed and that carries no [op_schema_change]. *)
Theorem apply_txn_log_not_atomic (log : TxnLog) (md : TabletMetadata)
    (st2 : Status) (md2 : TabletMetadata) :
  compaction_part log (after_write log md) = Some (st2, md2) →
  (st2 = OK → is_Some (op_schema_change log) →
     apply_txn_log log md = Some (NotSupported, md2))
  ∧ (st2 ≠ OK →
       apply_txn_log log md = Some (st2, md2) ∧ md2 = after_write log md)
  ∧ (∀ md', apply_txn_log log md = Some (OK, md') ↔
            st2 = OK ∧ op_schema_change log = None ∧ md' = md2).
Proof.
  intros Hc. rewrite apply_txn_log_unfold, Hc.
  split; [|split].
  - intros -> Hs. destruct Hs as [s ->]. reflexivity.
  - intros Hne. destruct st2; try congruence; cbn; (split; [reflexivity|]).
    all: unfold compaction_part in Hc.
    all: destruct (op_compaction log) as [c|]; [|congruence].
    all: unfold apply_compaction_log in Hc.
    all: destruct (input_rowsets c); [congruence|].
    all: destruct (_ =? _)%nat; [congruence|].
    all: destruct (adjacency_loop _ _ _ _ _) as [[pre|st]|]; [|congruence..].
    all: destruct (output_rowset c) as [out|];
           [destruct (0 <? num_rows out)|]; congruence.
  - intros md'. destruct (decide (st2 = OK)) as [->|Hne].
    + cbn. destruct (op_schema_change log).
      * split; [intros [=]|intros (_ & ? & _); discriminate].
      * split; [intros [= ->]; auto|intros (_ & _ & ->); reflexivity].
    + split; [|intros [? _]; contradiction].
      destruct st2; cbn; congruence.
Qed.

Lemma apply_txn_log_not_atomic_witness :
  ∃ md2,
    apply_txn_log log_write_and_schema_change metadata_v5
      = Some (NotSupported, md2)
    ∧ rowsets md2 = [set_id 7 (two_segment_rowset 100)]
    ∧ next_rowset_id md2 = 9.
Proof.
  eexists. split.
  - apply (proj1 (apply_txn_log_not_atomic log_write_and_schema_change
                    metadata_v5 OK _ eq_refl)).
    + reflexivity.
    + eexists. reflexivity.
  - split; reflexivity.
Defined.

(** ** The manager: file system and cache *)

Ltac munfold := unfold bind, ret, abort in *; cbn in *.

Ltac wsimpl :=
  unfold with_files, with_metacache, with_io_script, with_cache_script in *;
  cbn in *.

Lemma fs_call_through (k : nat) (w : World) :
  lets_through (S k) (io_script w) →
  ∃ s, fs_call w = Some (OK, with_io_script s w) ∧ lets_through k s.
Proof.
  intros H. unfold fs_call. destruct (io_script w) as [|st rest] eqn:E.
  - exists []. split.
    + f_equal. f_equal. destruct w; wsimpl; congruence.
    + intros i st _ Hi. rewrite lookup_nil in Hi. discriminate.
  - exists rest. assert (st = OK) as -> by (apply (H 0%nat); [lia|reflexivity]).
    split; [reflexivity|].
    intros i st' Hi Hl. apply (H (S i)); [lia|exact Hl].
Qed.

Lemma evict_lookup (ks : list Path) (c : gmap Path CacheValue) p cv :
  evict ks c !! p = Some cv → c !! p = Some cv.
Proof.
  induction ks as [|k ks IH]; cbn; [auto|].
  intros H. apply lookup_delete_Some in H as [_ H]. auto.
Qed.

(** What an insertion into the cache does: nothing but the cache and its
    script change, and every entry of the cache is an old one or the one
    inserted. *)
Lemma cache_insert_spec (key : Path) (value : CacheValue) (w : World) :
  ∃ b c s,
    cache_insert key value w
      = Some (b, with_cache_script s (with_metacache c w))
    ∧ (∀ p cv, c !! p = Some cv →
         metacache w !! p = Some cv ∨ (p = key ∧ cv = value))
    ∧ (∀ v rest, cache_script w = v :: rest → b = taken v)
    ∧ (b = false → ∀ p cv, c !! p = Some cv → metacache w !! p = Some cv).
Proof.
  unfold cache_insert. destruct (cache_script w) as [|v rest] eqn:E.
  - exists true, (<[key := value]> (metacache w)), []. split; [|split; [|split]].
    + f_equal. f_equal. destruct w; wsimpl; congruence.
    + intros p cv H. apply lookup_insert_Some in H as [[-> ->]|[_ H]]; auto.
    + intros; discriminate.
    + intros; discriminate.
  - eexists _, _, _. split; [reflexivity|]. split; [|split].
    + intros p cv H. apply evict_lookup in H.
      destruct (taken v); [|auto].
      apply lookup_insert_Some in H as [[-> ->]|[_ H]]; auto.
    + intros v' rest' [= -> ->]. reflexivity.
    + intros Hb p cv H. apply evict_lookup in H. rewrite Hb in H. exact H.
Qed.

(** C10.  When the three calls into the file system go through,
    [put_tablet_metadata] returns [OK] and the object holds the metadata,
    whatever the cache decides: [inserted] is the result of the call of
    [fill_metacache] inside, and it is [false] when the cache rejects the
    entry.  The same holds of [put_txn_log] for a log that has its tablet
    and transaction ids. *)
Theorem put_ok_when_cache_rejects (w : World) :
  lets_through 3 (io_script w) →
  (∀ md,
     let loc := tablet_metadata_location (tablet_id md) (version md) in
     ∃ inserted w_written w',
       fill_metacache loc (CVMetadata md) w_written = Some (inserted, w')
       ∧ files w_written = <[loc := BMetadata md]> (files w)
       ∧ metacache w_written = metacache w
       ∧ put_tablet_metadata md w = Some (OK, w')
       ∧ files w' !! loc = Some (BMetadata md)
       ∧ (∀ v rest, cache_script w = v :: rest → taken v = false →
            inserted = false
            ∧ ∀ p cv, metacache w' !! p = Some cv →
                      metacache w !! p = Some cv))
  ∧ (∀ log tablet txn,
       log_tablet_id log = Some tablet → log_txn_id log = Some txn →
       let loc := txn_log_location tablet txn in
       ∃ inserted w_written w',
         fill_metacache loc (CVTxnLog log) w_written = Some (inserted, w')
         ∧ files w_written = <[loc := BTxnLog log]> (files w)
         ∧ metacache w_written = metacache w
         ∧ put_txn_log log w = Some (OK, w')
         ∧ files w' !! loc = Some (BTxnLog log)
         ∧ (∀ v rest, cache_script w = v :: rest → taken v = false →
              inserted = false
              ∧ ∀ p cv, metacache w' !! p = Some cv →
                        metacache w !! p = Some cv)).
Proof.
  intros H3.
  destruct (fs_call_through 2 w H3) as (s1 & E1 & H2).
  assert (Hput : ∀ loc data value,
    ∃ inserted w_written w',
      fill_metacache loc value w_written = Some (inserted, w')
      ∧ files w_written = <[loc := data]> (files w)
      ∧ metacache w_written = metacache w
      ∧ (st <- new_writable_file loc ;;
         if negb (ok st) then ret st else
         st <- append loc data ;;
         if negb (ok st) then ret st else
         st <- close_file ;;
         if negb (ok st) then ret st else
         inserted <- fill_metacache loc value ;;
         ret OK) w = Some (OK, w')
      ∧ files w' !! loc = Some data
      ∧ (∀ v rest, cache_script w = v :: rest → taken v = false →
           inserted = false
           ∧ ∀ p cv, metacache w' !! p = Some cv →
                     metacache w !! p = Some cv)).
  { intros loc data value.
    unfold new_writable_file, append, close_file.
    unfold bind at 1 2. rewrite E1. cbn.
    set (w1 := with_files _ _).
    destruct (fs_call_through 1 w1) as (s2 & E2 & H1); [exact H2|].
    unfold bind at 1 2. rewrite E2. cbn.
    set (w2 := with_files _ _).
    destruct (fs_call_through 0 w2) as (s3 & E3 & _); [exact H1|].
    unfold bind at 1. rewrite E3. cbn.
    set (w3 := with_io_script s3 w2).
    destruct (cache_insert_spec loc value w3)
      as (b & c & s & Ei & _ & Hb & Hrej).
    exists b, w3, (with_cache_script s (with_metacache c w3)).
    split; [exact Ei|]. split; [cbn; apply insert_insert_eq|].
    split; [reflexivity|]. split.
    - unfold bind, fill_metacache. rewrite Ei. reflexivity.
    - split.
      + cbn. rewrite insert_insert_eq. apply lookup_insert_eq.
      + intros v rest Hv Hadm.
        specialize (Hb v rest Hv). rewrite Hadm in Hb. split; [exact Hb|].
        cbn. intros p cv Hp. eapply Hrej; eauto. }
  split.
  - intros md loc. apply (Hput loc (BMetadata md) (CVMetadata md)).
  - intros log tablet txn Ht Hx loc.
    unfold put_txn_log. rewrite Ht, Hx.
    apply (Hput loc (BTxnLog log) (CVTxnLog log)).
Qed.

Lemma put_ok_when_cache_rejects_witness :
  ∃ w',
    put_tablet_metadata metadata_v5 world_v5 = Some (OK, w')
    ∧ files w' !! MetaLoc 10 5 = Some (BMetadata metadata_v5)
    ∧ metacache w' = ∅.
Proof.
  assert (H3 : lets_through 3 (io_script world_v5)).
  { intros i st _ Hi. cbn in Hi. rewrite lookup_nil in Hi. discriminate. }
  destruct (proj1 (put_ok_when_cache_rejects world_v5 H3) metadata_v5)
    as (inserted & ww & w' & _ & _ & _ & Hput & Hfile & Hrej).
  exists w'. split; [exact Hput|]. split; [exact Hfile|].
  destruct (Hrej rejecting [rejecting] eq_refl eq_refl) as [_ Hc].
  apply map_empty. intros p.
  destruct (metacache w' !! p) as [cv|] eqn:E; [|reflexivity].
  apply Hc in E. cbn in E. rewrite lookup_empty in E. discriminate.
Defined.

(** ** Reading through the cache *)

Lemma fs_call_quiet (w : World) :
  io_script w = [] → fs_call w = Some (OK, w).
Proof. intros H. unfold fs_call. rewrite H. reflexivity. Qed.

Lemma fs_call_files (w w' : World) (st : Status) :
  fs_call w = Some (st, w') →
  files w' = files w ∧ metacache w' = metacache w.
Proof.
  unfold fs_call. destruct (io_script w); intros [= <- <-]; auto.
Qed.

Lemma cache_insert_files (key : Path) (value : CacheValue) (w w' : World) b :
  cache_insert key value w = Some (b, w') →
  files w' = files w ∧ io_script w' = io_script w.
Proof.
  unfold cache_insert. destruct (cache_script w); intros [= <- <-]; auto.
Qed.

Lemma new_random_access_file_files (p : Path) (w w' : World) r :
  new_random_access_file p w = Some (r, w') → files w' = files w.
Proof.
  unfold new_random_access_file, bind.
  destruct (fs_call w) as [[st w0]|] eqn:E; [|discriminate].
  apply fs_call_files in E as [E _].
  destruct (negb (ok st)); cbn.
  - intros [= <- <-]. exact E.
  - destruct (files w0 !! p); intros [= <- <-]; exact E.
Qed.

(** Reads never write the store, whatever the file system and the cache
    answer. *)
Lemma get_tablet_metadata_path_files (p : Path) (fc : bool) (w w' : World) r :
  get_tablet_metadata_path p fc w = Some (r, w') → files w' = files w.
Proof.
  unfold get_tablet_metadata_path, lookup_tablet_metadata, cache_lookup,
    load_tablet_metadata, get_size, read_at_fully, fill_metacache.
  unfold bind at 1 2. cbn.
  destruct (metacache w !! p) as [[m|l|s]|]; cbn; try discriminate.
  { intros [= <- <-]. reflexivity. }
  unfold bind at 1 2.
  destruct (new_random_access_file p w) as [[rf w0]|] eqn:E0; [|discriminate].
  apply new_random_access_file_files in E0.
  destruct rf as [blob|st]; cbn; [|intros [= <- <-]; exact E0].
  unfold bind at 1.
  destruct (fs_call w0) as [[st1 w1]|] eqn:E1; [|discriminate].
  apply fs_call_files in E1 as [E1 _].
  destruct (negb (ok st1)); cbn; [intros [= <- <-]; congruence|].
  unfold bind at 1.
  destruct (fs_call w1) as [[st2 w2]|] eqn:E2; [|discriminate].
  apply fs_call_files in E2 as [E2 _].
  destruct (negb (ok st2)); cbn; [intros [= <- <-]; congruence|].
  destruct blob; cbn; try (intros [= <- <-]; congruence).
  destruct fc; cbn; [|intros [= <- <-]; congruence].
  unfold bind.
  destruct (cache_insert p (CVMetadata m) w2) as [[b w3]|] eqn:E3;
    [|discriminate].
  apply cache_insert_files in E3 as [E3 _].
  intros [= <- <-]. congruence.
Qed.

Lemma get_txn_log_path_files (p : Path) (fc : bool) (w w' : World) r :
  get_txn_log_path p fc w = Some (r, w') → files w' = files w.
Proof.
  unfold get_txn_log_path, lookup_txn_log, cache_lookup,
    load_txn_log, get_size, read_at_fully, fill_metacache.
  unfold bind at 1 2. cbn.
  destruct (metacache w !! p) as [[m|l|s]|]; cbn; try discriminate.
  { intros [= <- <-]. reflexivity. }
  unfold bind at 1 2.
  destruct (new_random_access_file p w) as [[rf w0]|] eqn:E0; [|discriminate].
  apply new_random_access_file_files in E0.
  destruct rf as [blob|st]; cbn; [|intros [= <- <-]; exact E0].
  unfold bind at 1.
  destruct (fs_call w0) as [[st1 w1]|] eqn:E1; [|discriminate].
  apply fs_call_files in E1 as [E1 _].
  destruct (negb (ok st1)); cbn; [intros [= <- <-]; congruence|].
  unfold bind at 1.
  destruct (fs_call w1) as [[st2 w2]|] eqn:E2; [|discriminate].
  apply fs_call_files in E2 as [E2 _].
  destruct (negb (ok st2)); cbn; [intros [= <- <-]; congruence|].
  destruct blob; cbn; try (intros [= <- <-]; congruence).
  destruct fc; cbn; [|intros [= <- <-]; congruence].
  unfold bind.
  destruct (cache_insert p (CVTxnLog l) w2) as [[b w3]|] eqn:E3;
    [|discriminate].
  apply cache_insert_files in E3 as [E3 _].
  intros [= <- <-]. congruence.
Qed.

Lemma publish_apply_logs_files (tablet new_version : Z) (txns : list Z) :
  ∀ md w r w',
    publish_apply_logs tablet new_version txns md w = Some (r, w') →
    files w' = files w.
Proof.
  induction txns as [|t txns IH]; intros md w r w'; cbn.
  { intros [= <- <-]. reflexivity. }
  unfold bind at 1. unfold Tablet_get_txn_log, get_txn_log.
  destruct (get_txn_log_path _ _ w) as [[txnlog w0]|] eqn:E0; [|discriminate].
  apply get_txn_log_path_files in E0.
  unfold bind at 1.
  destruct (is_not_found (status_of txnlog)).
  - unfold bind at 1. unfold Tablet_get_metadata, get_tablet_metadata.
    destruct (get_tablet_metadata_path _ _ w0) as [[res w1]|] eqn:E1;
      [|discriminate].
    apply get_tablet_metadata_path_files in E1. cbn.
    destruct (ok (status_of res)); [intros [= <- <-]; congruence|].
    destruct txnlog as [log|st]; [|intros [= <- <-]; congruence].
    destruct (apply_txn_log log md) as [[st md']|]; [|discriminate].
    destruct (negb (ok st)); [intros [= <- <-]; congruence|].
    intros H. apply IH in H. congruence.
  - cbn.
    destruct txnlog as [log|st]; [|intros [= <- <-]; congruence].
    destruct (apply_txn_log log md) as [[st md']|]; [|discriminate].
    destruct (negb (ok st)); [intros [= <- <-]; congruence|].
    intros H. apply IH in H. congruence.
Qed.

(** Reading a metadata without faults: the result is the cached value if
    there is one and what the object holds otherwise; the store is left as
    it is, and every entry of the cache is an old one or the value that was
    just read from its object. *)
Lemma get_tablet_metadata_quiet (t v : Z) (w : World) :
  io_script w = [] → cache_typed w →
  ∃ r w',
    get_tablet_metadata t v w = Some (r, w')
    ∧ files w' = files w ∧ io_script w' = [] ∧ cache_typed w'
    ∧ ((∃ X, metacache w !! MetaLoc t v = Some (CVMetadata X) ∧ r = Value X)
       ∨ (metacache w !! MetaLoc t v = None ∧ r = read_meta (files w) t v))
    ∧ (∀ p cv, metacache w' !! p = Some cv →
         metacache w !! p = Some cv
         ∨ (p = MetaLoc t v
            ∧ ∃ m, cv = CVMetadata m ∧ r = Value m
                   ∧ files w !! p = Some (BMetadata m))).
Proof.
  intros Hq Ht.
  unfold get_tablet_metadata, get_tablet_metadata_path,
    lookup_tablet_metadata, cache_lookup, tablet_metadata_location.
  unfold bind at 1 2. cbn.
  destruct (metacache w !! MetaLoc t v) as [cv|] eqn:E.
  - pose proof (Ht _ _ E) as Hty. destruct cv; cbn in Hty; try contradiction.
    cbn. eexists _, _. split; [reflexivity|].
    repeat split; auto. left. eauto.
  - cbn. unfold load_tablet_metadata, new_random_access_file, get_size,
      read_at_fully, fill_metacache.
    unfold bind at 1 2 3. rewrite (fs_call_quiet w Hq). cbn.
    unfold read_meta.
    destruct (files w !! MetaLoc t v) as [blob|] eqn:Ef; cbn.
    2:{ eexists _, _. split; [reflexivity|]. repeat split; auto. }
    unfold bind. repeat (rewrite (fs_call_quiet w Hq); cbn).
    destruct blob as [m|l|]; cbn;
      try (eexists _, _; split; [reflexivity|]; repeat split; auto; fail).
    unfold bind.
    destruct (cache_insert_spec (MetaLoc t v) (CVMetadata m) w)
      as (b & c & s & Ei & Hc & _).
    rewrite Ei. eexists _, _. split; [reflexivity|].
    split; [reflexivity|]. split; [exact Hq|]. split; [|split].
    + intros p cv Hp. cbn in Hp. apply Hc in Hp as [Hp|[-> ->]].
      * eapply Ht; eauto.
      * exact I.
    + right. auto.
    + intros p cv Hp. cbn in Hp. apply Hc in Hp as [Hp|[-> ->]]; [auto|].
      right. split; [reflexivity|]. eauto.
Qed.

Lemma get_txn_log_quiet (t x : Z) (w : World) :
  io_script w = [] → cache_typed w →
  ∃ r w',
    get_txn_log t x w = Some (r, w')
    ∧ files w' = files w ∧ io_script w' = [] ∧ cache_typed w'
    ∧ ((∃ X, metacache w !! TxnLoc t x = Some (CVTxnLog X) ∧ r = Value X)
       ∨ (metacache w !! TxnLoc t x = None ∧ r = read_log (files w) t x))
    ∧ (∀ p cv, metacache w' !! p = Some cv →
         metacache w !! p = Some cv
         ∨ (p = TxnLoc t x
            ∧ ∃ l, cv = CVTxnLog l ∧ r = Value l
                   ∧ files w !! p = Some (BTxnLog l))).
Proof.
  intros Hq Ht.
  unfold get_txn_log, get_txn_log_path,
    lookup_txn_log, cache_lookup, txn_log_location.
  unfold bind at 1 2. cbn.
  destruct (metacache w !! TxnLoc t x) as [cv|] eqn:E.
  - pose proof (Ht _ _ E) as Hty. destruct cv; cbn in Hty; try contradiction.
    cbn. eexists _, _. split; [reflexivity|].
    repeat split; auto. left. eauto.
  - cbn. unfold load_txn_log, new_random_access_file, get_size,
      read_at_fully, fill_metacache.
    unfold bind at 1 2 3. rewrite (fs_call_quiet w Hq). cbn.
    unfold read_log.
    destruct (files w !! TxnLoc t x) as [blob|] eqn:Ef; cbn.
    2:{ eexists _, _. split; [reflexivity|]. repeat split; auto. }
    unfold bind. repeat (rewrite (fs_call_quiet w Hq); cbn).
    destruct blob as [m|l|]; cbn;
      try (eexists _, _; split; [reflexivity|]; repeat split; auto; fail).
    unfold bind.
    destruct (cache_insert_spec (TxnLoc t x) (CVTxnLog l) w)
      as (b & c & s & Ei & Hc & _).
    rewrite Ei. eexists _, _. split; [reflexivity|].
    split; [reflexivity|]. split; [exact Hq|]. split; [|split].
    + intros p cv Hp. cbn in Hp. apply Hc in Hp as [Hp|[-> ->]].
      * eapply Ht; eauto.
      * exact I.
    + right. auto.
    + intros p cv Hp. cbn in Hp. apply Hc in Hp as [Hp|[-> ->]]; [auto|].
      right. split; [reflexivity|]. eauto.
Qed.

(** In a good world the cache is transparent: a read returns what the store
    holds, and the world stays good. *)
Lemma get_tablet_metadata_good (t v : Z) (w : World) :
  good w →
  ∃ w', get_tablet_metadata t v w = Some (read_meta (files w) t v, w')
        ∧ files w' = files w ∧ good w'.
Proof.
  intros (Hq & Ht & Hc).
  destruct (get_tablet_metadata_quiet t v w Hq Ht)
    as (r & w' & E & Hf & Hq' & Ht' & Hr & Hnew).
  exists w'. split; [|split; [exact Hf|]].
  - rewrite E. f_equal. f_equal.
    destruct Hr as [(X & HX & ->)|[_ ->]]; [|reflexivity].
    apply Hc in HX. cbn in HX. unfold read_meta. rewrite HX. reflexivity.
  - split; [exact Hq'|]. split; [exact Ht'|].
    intros p cv Hp. unfold coherent_at. rewrite Hf.
    apply Hnew in Hp as [Hp|(-> & m & -> & _ & Hm)].
    + apply (Hc _ _ Hp).
    + exact Hm.
Qed.

Lemma get_txn_log_good (t x : Z) (w : World) :
  good w →
  ∃ w', get_txn_log t x w = Some (read_log (files w) t x, w')
        ∧ files w' = files w ∧ good w'.
Proof.
  intros (Hq & Ht & Hc).
  destruct (get_txn_log_quiet t x w Hq Ht)
    as (r & w' & E & Hf & Hq' & Ht' & Hr & Hnew).
  exists w'. split; [|split; [exact Hf|]].
  - rewrite E. f_equal. f_equal.
    destruct Hr as [(X & HX & ->)|[_ ->]]; [|reflexivity].
    apply Hc in HX. cbn in HX. unfold read_log. rewrite HX. reflexivity.
  - split; [exact Hq'|]. split; [exact Ht'|].
    intros p cv Hp. unfold coherent_at. rewrite Hf.
    apply Hnew in Hp as [Hp|(-> & m & -> & _ & Hm)].
    + apply (Hc _ _ Hp).
    + exact Hm.
Qed.

(** ** Writing and deleting without faults *)

Lemma put_tablet_metadata_quiet (md : TabletMetadata) (w : World) :
  io_script w = [] → cache_typed w →
  ∃ w',
    put_tablet_metadata md w = Some (OK, w')
    ∧ files w' = <[MetaLoc (tablet_id md) (version md) := BMetadata md]>
                   (files w)
    ∧ io_script w' = [] ∧ cache_typed w'
    ∧ (∀ p cv, metacache w' !! p = Some cv →
         metacache w !! p = Some cv
         ∨ (p = MetaLoc (tablet_id md) (version md) ∧ cv = CVMetadata md)).
Proof.
  intros Hq Ht.
  unfold put_tablet_metadata, tablet_metadata_location, new_writable_file,
    append, close_file, fill_metacache.
  set (L := MetaLoc (tablet_id md) (version md)).
  unfold bind at 1 2. rewrite (fs_call_quiet w Hq). cbn.
  unfold bind at 1 2. rewrite fs_call_quiet by exact Hq. cbn.
  unfold bind at 1. rewrite fs_call_quiet by exact Hq. cbn.
  unfold bind.
  match goal with
  | |- context [cache_insert L (CVMetadata md) ?w0] =>
      destruct (cache_insert_spec L (CVMetadata md) w0)
        as (b & c & s & Ei & Hc & _); rewrite Ei
  end.
  eexists. split; [reflexivity|]. cbn.
  split; [apply insert_insert_eq|]. split; [exact Hq|]. split.
  - intros p cv Hp. cbn in Hp. apply Hc in Hp as [Hp|[-> ->]].
    + eapply Ht; eauto.
    + exact I.
  - intros p cv Hp. apply Hc in Hp. exact Hp.
Qed.

Lemma delete_txn_log_quiet (t x : Z) (w : World) :
  io_script w = [] → cache_typed w →
  ∃ st w',
    delete_txn_log t x w = Some (st, w')
    ∧ files w' = delete (TxnLoc t x) (files w)
    ∧ io_script w' = [] ∧ cache_typed w'
    ∧ metacache w' = delete (TxnLoc t x) (metacache w).
Proof.
  intros Hq Ht.
  unfold delete_txn_log, txn_log_location, erase_metacache, delete_file.
  unfold bind at 1. cbn.
  unfold bind at 1. rewrite fs_call_quiet by exact Hq. cbn.
  assert (Hty : ∀ p cv,
             delete (TxnLoc t x) (metacache w) !! p = Some cv →
             well_typed p cv).
  { intros p cv Hp. apply lookup_delete_Some in Hp as [_ Hp].
    eapply Ht; eauto. }
  eexists _, _. split; [reflexivity|]. repeat split; auto.
Qed.

Lemma delete_logs_lookup_other (tablet : Z) (txns : list Z) :
  ∀ (f : gmap Path Blob) p,
    (∀ t, t ∈ txns → p ≠ TxnLoc tablet t) →
    delete_logs tablet txns f !! p = f !! p.
Proof.
  unfold delete_logs.
  induction txns as [|t txns IH]; intros f p Hp; cbn; [reflexivity|].
  rewrite IH.
  - apply lookup_delete_ne. intros Heq.
    apply (Hp t); [apply elem_of_cons; auto|symmetry; exact Heq].
  - intros t' Ht'. apply Hp. apply elem_of_cons. auto.
Qed.

Lemma delete_logs_lookup_None (tablet : Z) (txns : list Z) :
  ∀ (f : gmap Path Blob) p,
    f !! p = None → delete_logs tablet txns f !! p = None.
Proof.
  unfold delete_logs.
  induction txns as [|t txns IH]; intros f p Hp; cbn; [exact Hp|].
  apply IH. apply lookup_delete_None. auto.
Qed.

Lemma delete_logs_lookup_deleted (tablet : Z) (txns : list Z) :
  ∀ (f : gmap Path Blob) t,
    t ∈ txns → delete_logs tablet txns f !! TxnLoc tablet t = None.
Proof.
  induction txns as [|t0 txns IH]; intros f t Ht.
  { apply elem_of_nil in Ht. contradiction. }
  unfold delete_logs. cbn. fold (delete_logs tablet txns).
  apply elem_of_cons in Ht as [->|Ht].
  - apply delete_logs_lookup_None. apply lookup_delete_eq.
  - apply IH. exact Ht.
Qed.

Lemma publish_delete_logs_quiet (tablet : Z) (txns : list Z) :
  ∀ w, io_script w = [] → cache_typed w →
  ∃ w',
    publish_delete_logs tablet txns w = Some (tt, w')
    ∧ files w' = delete_logs tablet txns (files w)
    ∧ io_script w' = [] ∧ cache_typed w'
    ∧ (∀ p cv, metacache w' !! p = Some cv →
         metacache w !! p = Some cv
         ∧ ∀ t, t ∈ txns → p ≠ TxnLoc tablet t).
Proof.
  induction txns as [|t txns IH]; intros w Hq Ht; cbn.
  { eexists. split; [reflexivity|]. repeat split; auto.
    intros t Hin. apply elem_of_nil in Hin. contradiction. }
  unfold bind, Tablet_delete_txn_log.
  destruct (delete_txn_log_quiet tablet t w Hq Ht)
    as (st & w0 & E & Hf & Hq0 & Ht0 & Hc0).
  rewrite E.
  destruct (IH w0 Hq0 Ht0) as (w' & E' & Hf' & Hq' & Ht' & Hc').
  exists w'. split; [exact E'|]. split; [|split; [exact Hq'|split; [exact Ht'|]]].
  - rewrite Hf', Hf. reflexivity.
  - intros p cv Hp. apply Hc' in Hp as [Hp Hne]. rewrite Hc0 in Hp.
    apply lookup_delete_Some in Hp as [Hne0 Hp]. split; [exact Hp|].
    intros t' Hin. apply elem_of_cons in Hin as [->|Hin]; [congruence|].
    apply Hne. exact Hin.
Qed.

(** ** The loop over the logs in a good world *)

Lemma publish_apply_logs_good (tablet new_version : Z) (txns : list Z) :
  ∀ md w, good w →
    ∃ w', files w' = files w ∧ good w'
          ∧ publish_apply_logs tablet new_version txns md w
            = (fun r => (r, w'))
                <$> apply_logs_ref (files w) tablet new_version txns md.
Proof.
  induction txns as [|t txns IH]; intros md w Hg; cbn.
  { exists w. auto. }
  unfold bind at 1. unfold Tablet_get_txn_log.
  destruct (get_txn_log_good tablet t w Hg) as (w0 & E0 & Hf0 & Hg0).
  rewrite E0.
  destruct (read_log (files w) tablet t) as [log|st] eqn:El; cbn.
  - destruct (apply_txn_log log md) as [[st md']|]; [|exists w; auto].
    destruct (negb (ok st)).
    + exists w0. auto.
    + destruct (IH md' w0 Hg0) as (w' & Hf' & Hg' & E').
      rewrite Hf0 in E'. exists w'. split; [congruence|]. auto.
  - unfold bind at 1.
    destruct (is_not_found st) eqn:Enf; cbn.
    + unfold bind at 1. unfold Tablet_get_metadata.
      destruct (get_tablet_metadata_good tablet new_version w0 Hg0)
        as (w1 & E1 & Hf1 & Hg1).
      rewrite E1, Hf0. cbn. exists w1. split; [congruence|].
      split; [exact Hg1|].
      destruct (ok (status_of (read_meta (files w) tablet new_version)));
        reflexivity.
    + exists w0. auto.
Qed.

(** ** Publish against the store *)

Lemma read_meta_error (f : gmap Path Blob) (t v : Z) (st : Status) :
  read_meta f t v = Error st → ok st = false.
Proof.
  unfold read_meta. destruct (f !! MetaLoc t v) as [[m|l|]|]; intros [=];
    subst; reflexivity.
Qed.

Lemma read_log_error (f : gmap Path Blob) (t x : Z) (st : Status) :
  read_log f t x = Error st → ok st = false.
Proof.
  unfold read_log. destruct (f !! TxnLoc t x) as [[m|l|]|]; intros [=];
    subst; reflexivity.
Qed.

Lemma read_meta_ok (f : gmap Path Blob) (t v : Z) :
  ok (status_of (read_meta f t v)) = true →
  ∃ m, f !! MetaLoc t v = Some (BMetadata m).
Proof.
  unfold read_meta. destruct (f !! MetaLoc t v) as [[m|l|]|]; cbn;
    try discriminate. eauto.
Qed.

Lemma read_meta_Value (f : gmap Path Blob) (t v : Z) (m : TabletMetadata) :
  read_meta f t v = Value m ↔ f !! MetaLoc t v = Some (BMetadata m).
Proof.
  unfold read_meta. destruct (f !! MetaLoc t v) as [[m'|l|]|];
    split; congruence.
Qed.

Lemma apply_compaction_log_ids (c : TxnLogPB_OpCompaction)
    (md md' : TabletMetadata) (st : Status) :
  apply_compaction_log c md = Some (st, md') →
  tablet_id md' = tablet_id md ∧ version md' = version md.
Proof.
  unfold apply_compaction_log.
  destruct (input_rowsets c); [intros [= <- <-]; auto|].
  destruct (_ =? _)%nat; [intros [= <- <-]; auto|].
  destruct (adjacency_loop _ _ _ _ _) as [[pre|st']|]; [| |discriminate].
  - destruct (output_rowset c) as [out|];
      [destruct (0 <? num_rows out)|]; intros [= <- <-]; auto.
  - intros [= <- <-]; auto.
Qed.

Lemma apply_txn_log_ids (log : TxnLog) (md md' : TabletMetadata) st :
  apply_txn_log log md = Some (st, md') →
  tablet_id md' = tablet_id md ∧ version md' = version md.
Proof.
  rewrite apply_txn_log_unfold.
  assert (Hw : tablet_id (after_write log md) = tablet_id md
               ∧ version (after_write log md) = version md).
  { unfold after_write, apply_write_log.
    destruct (op_write log) as [w|]; [|auto].
    destruct (op_write_rowset w) as [r|]; [|auto].
    destruct (0 <? num_rows r); auto. }
  destruct (compaction_part log (after_write log md)) as [[st2 md2]|] eqn:Ec;
    [|discriminate].
  assert (Hc : tablet_id md2 = tablet_id (after_write log md)
               ∧ version md2 = version (after_write log md)).
  { unfold compaction_part in Ec. destruct (op_compaction log) as [c|].
    - eapply apply_compaction_log_ids; eauto.
    - injection Ec as <- <-. auto. }
  destruct Hw, Hc.
  destruct (negb (ok st2)); [intros [= <- <-]; split; congruence|].
  destruct (op_schema_change log); intros [= <- <-]; split; congruence.
Qed.

Lemma apply_logs_ref_ids (f : gmap Path Blob) (t n : Z) (txns : list Z) :
  ∀ md md', apply_logs_ref f t n txns md = Some (inr md') →
            tablet_id md' = tablet_id md ∧ version md' = version md.
Proof.
  induction txns as [|x txns IH]; intros md md'; cbn.
  { intros [= <-]. auto. }
  destruct (read_log f t x) as [log|st].
  - destruct (apply_txn_log log md) as [[st md1]|] eqn:Ea; [|discriminate].
    apply apply_txn_log_ids in Ea as [Hi1 Hv1].
    destruct (negb (ok st)); [discriminate|].
    intros Hr. apply IH in Hr as [Hi2 Hv2]. split; congruence.
  - destruct (_ && _); discriminate.
Qed.

Lemma apply_logs_ref_inl_OK (f : gmap Path Blob) (t n : Z) (txns : list Z) :
  ∀ md, apply_logs_ref f t n txns md = Some (inl OK) →
        ok (status_of (read_meta f t n)) = true.
Proof.
  induction txns as [|x txns IH]; intros md; cbn; [discriminate|].
  destruct (read_log f t x) as [log|st] eqn:El.
  - destruct (apply_txn_log log md) as [[st md1]|]; [|discriminate].
    destruct st; cbn; try discriminate. apply IH.
  - apply read_log_error in El.
    destruct (is_not_found st); cbn.
    + destruct (ok (status_of (read_meta f t n))); [reflexivity|].
      intros [= ->]. discriminate.
    + intros [= ->]. discriminate.
Qed.

(** A missing or unreadable base version. *)
Lemma publish_good_no_base (tablet base new : Z) (txns : list Z)
    (w : World) (st : Status) :
  good w →
  read_meta (files w) tablet base = Error st →
  ∃ w', publish tablet base new txns w
        = Some ((if is_not_found st
                    && ok (status_of (read_meta (files w) tablet new))
                 then OK else st), w')
        ∧ files w' = files w ∧ good w'.
Proof.
  intros Hg Hb. unfold publish, Tablet_get_metadata.
  unfold bind at 1.
  destruct (get_tablet_metadata_good tablet base w Hg) as (w0 & E0 & Hf0 & Hg0).
  rewrite E0, Hb. unfold bind at 1.
  destruct (is_not_found st); cbn.
  - unfold bind at 1.
    destruct (get_tablet_metadata_good tablet new w0 Hg0)
      as (w1 & E1 & Hf1 & Hg1).
    rewrite E1, Hf0. cbn. exists w1.
    split; [|split; [congruence|exact Hg1]].
    destruct (ok (status_of (read_meta (files w) tablet new))); reflexivity.
  - exists w0. auto.
Qed.

(** The loop over the logs leaves [publish] early, or leaves defined
    behaviour. *)
Lemma publish_good_early (tablet base new : Z) (txns : list Z)
    (w : World) (m0 : TabletMetadata) (st : Status) :
  good w →
  read_meta (files w) tablet base = Value m0 →
  apply_logs_ref (files w) tablet new txns (set_version new m0)
    = Some (inl st) →
  ∃ w', publish tablet base new txns w = Some (st, w')
        ∧ files w' = files w ∧ good w'.
Proof.
  intros Hg Hb Ha. unfold publish, Tablet_get_metadata.
  unfold bind at 1.
  destruct (get_tablet_metadata_good tablet base w Hg) as (w0 & E0 & Hf0 & Hg0).
  rewrite E0, Hb. unfold bind at 1.
  destruct (publish_apply_logs_good tablet new txns (set_version new m0) w0 Hg0)
    as (w1 & Hf1 & Hg1 & E1).
  rewrite E1, Hf0, Ha. cbn. exists w1. split; [reflexivity|].
  split; [congruence|exact Hg1].
Qed.

Lemma publish_good_undefined (tablet base new : Z) (txns : list Z)
    (w : World) (m0 : TabletMetadata) :
  good w →
  read_meta (files w) tablet base = Value m0 →
  apply_logs_ref (files w) tablet new txns (set_version new m0) = None →
  publish tablet base new txns w = None.
Proof.
  intros Hg Hb Ha. unfold publish, Tablet_get_metadata.
  unfold bind at 1.
  destruct (get_tablet_metadata_good tablet base w Hg) as (w0 & E0 & Hf0 & Hg0).
  rewrite E0, Hb. unfold bind at 1.
  destruct (publish_apply_logs_good tablet new txns (set_version new m0) w0 Hg0)
    as (w1 & Hf1 & Hg1 & E1).
  rewrite E1, Hf0, Ha. reflexivity.
Qed.

(** [publish] runs to its end: the new version is written and the logs are
    deleted.  The cache holds nothing under the deleted logs, and each of its
    entries agrees with the store as it was, or is the new metadata. *)
Lemma publish_good_full (tablet base new : Z) (txns : list Z)
    (w : World) (m0 md : TabletMetadata) :
  good w →
  read_meta (files w) tablet base = Value m0 →
  tablet_id m0 = tablet →
  apply_logs_ref (files w) tablet new txns (set_version new m0)
    = Some (inr md) →
  ∃ w', publish tablet base new txns w = Some (OK, w')
        ∧ files w' = delete_logs tablet txns
                       (<[MetaLoc tablet new := BMetadata md]> (files w))
        ∧ io_script w' = [] ∧ cache_typed w'
        ∧ (∀ p cv, metacache w' !! p = Some cv →
             (∀ t, t ∈ txns → p ≠ TxnLoc tablet t)
             ∧ (coherent_at w p cv
                ∨ (p = MetaLoc tablet new ∧ cv = CVMetadata md))).
Proof.
  intros Hg Hb Hid Ha. unfold publish, Tablet_get_metadata.
  unfold bind at 1.
  destruct (get_tablet_metadata_good tablet base w Hg) as (w0 & E0 & Hf0 & Hg0).
  rewrite E0, Hb. unfold bind at 1.
  destruct (publish_apply_logs_good tablet new txns (set_version new m0) w0 Hg0)
    as (w1 & Hf1 & (Hq1 & Ht1 & Hc1) & E1).
  rewrite E1, Hf0, Ha. cbn.
  destruct (apply_logs_ref_ids _ _ _ _ _ _ Ha) as [Hmid Hmv]. cbn in Hmid, Hmv.
  unfold bind at 1. unfold Tablet_put_metadata.
  destruct (put_tablet_metadata_quiet md w1 Hq1 Ht1)
    as (w2 & E2 & Hf2 & Hq2 & Ht2 & Hc2).
  rewrite E2. cbn. unfold bind.
  destruct (publish_delete_logs_quiet tablet txns w2 Hq2 Ht2)
    as (w3 & E3 & Hf3 & Hq3 & Ht3 & Hc3).
  rewrite E3. exists w3. split; [reflexivity|].
  rewrite Hmid, Hmv, Hid in *.
  split; [rewrite Hf3, Hf2; congruence|].
  split; [exact Hq3|]. split; [exact Ht3|].
  intros p cv Hp. apply Hc3 in Hp as [Hp Hne]. split; [exact Hne|].
  apply Hc2 in Hp as [Hp|Hp]; [left|right; exact Hp].
  apply Hc1 in Hp. unfold coherent_at in *. rewrite <- Hf0, <- Hf1. exact Hp.
Qed.

(** ** Replaying a publish *)

(** Replay with at least one transaction, after its log is gone. *)
Lemma publish_replay_cons (tablet base new t0 : Z) (txns : list Z)
    (w : World) :
  io_script w = [] → cache_typed w →
  (∃ m, files w !! MetaLoc tablet base = Some (BMetadata m)) →
  (∃ m, files w !! MetaLoc tablet new = Some (BMetadata m)) →
  metacache w !! TxnLoc tablet t0 = None →
  files w !! TxnLoc tablet t0 = None →
  ∃ w', publish tablet base new (t0 :: txns) w = Some (OK, w')
        ∧ files w' = files w.
Proof.
  intros Hq Ht [mb Hb] [mn Hn] Hc0 Hf0.
  unfold publish, Tablet_get_metadata. unfold bind at 1.
  destruct (get_tablet_metadata_quiet tablet base w Hq Ht)
    as (r & w1 & E1 & Hf1 & Hq1 & Ht1 & Hr1 & Hc1).
  rewrite E1.
  assert (∃ X, r = Value X) as [X ->].
  { destruct Hr1 as [(X & _ & ->)|[_ ->]]; [eauto|].
    exists mb. apply read_meta_Value. exact Hb. }
  cbn. unfold bind at 1 2. unfold Tablet_get_txn_log.
  destruct (get_txn_log_quiet tablet t0 w1 Hq1 Ht1)
    as (r2 & w2 & E2 & Hf2 & Hq2 & Ht2 & Hr2 & Hc2).
  rewrite E2.
  assert (r2 = Error NotFound) as ->.
  { destruct Hr2 as [(l & Hl & _)|[_ ->]].
    - apply Hc1 in Hl as [Hl|[[=] _]]. congruence.
    - unfold read_log. rewrite Hf1, Hf0. reflexivity. }
  cbn. unfold bind at 1 2. unfold Tablet_get_metadata.
  destruct (get_tablet_metadata_quiet tablet new w2 Hq2 Ht2)
    as (r3 & w3 & E3 & Hf3 & Hq3 & Ht3 & Hr3 & Hc3).
  rewrite E3.
  assert (∃ Y, r3 = Value Y) as [Y ->].
  { destruct Hr3 as [(Y & _ & ->)|[_ ->]]; [eauto|].
    exists mn. apply read_meta_Value. rewrite Hf2, Hf1. exact Hn. }
  cbn. exists w3. split; [reflexivity|]. congruence.
Qed.

(** Replay without transactions: the same metadata is written again. *)
Lemma publish_replay_nil (tablet base new : Z) (w : World)
    (md : TabletMetadata) :
  io_script w = [] → cache_typed w →
  tablet_id md = tablet → version md = new →
  files w !! MetaLoc tablet new = Some (BMetadata md) →
  (∀ X, metacache w !! MetaLoc tablet base = Some (CVMetadata X) →
        set_version new X = md) →
  (∃ X, files w !! MetaLoc tablet base = Some (BMetadata X)
        ∧ set_version new X = md) →
  ∃ w', publish tablet base new [] w = Some (OK, w') ∧ files w' = files w.
Proof.
  intros Hq Ht Hid Hv Hn Hcache (Xf & Hfile & HXf).
  unfold publish, Tablet_get_metadata. unfold bind at 1.
  destruct (get_tablet_metadata_quiet tablet base w Hq Ht)
    as (r & w1 & E1 & Hf1 & Hq1 & Ht1 & Hr1 & Hc1).
  rewrite E1.
  assert (∃ X, r = Value X ∧ set_version new X = md) as (X & -> & HX).
  { destruct Hr1 as [(X & HXc & ->)|[_ ->]]; [eauto|].
    exists Xf. split; [|exact HXf]. apply read_meta_Value. exact Hfile. }
  cbn. rewrite HX. unfold bind at 1. unfold Tablet_put_metadata.
  destruct (put_tablet_metadata_quiet md w1 Hq1 Ht1)
    as (w2 & E2 & Hf2 & _).
  rewrite E2. cbn. exists w2. split; [reflexivity|].
  rewrite Hf2, Hid, Hv, Hf1. apply insert_id. exact Hn.
Qed.

Lemma set_version_idemp (v : Z) (m : TabletMetadata) :
  set_version v (set_version v m) = set_version v m.
Proof. reflexivity. Qed.

Lemma publish_apply_logs_app (tablet new : Z) (pre post : list Z) :
  ∀ md w md' w',
    publish_apply_logs tablet new pre md w = Some (inr md', w') →
    publish_apply_logs tablet new (pre ++ post) md w
    = publish_apply_logs tablet new post md' w'.
Proof.
  induction pre as [|t pre IH]; intros md w md' w'; cbn.
  { intros [= <- <-]. reflexivity. }
  unfold bind.
  destruct (Tablet_get_txn_log tablet t w) as [[txnlog w0]|]; [|discriminate].
  match goal with
  | |- context [match ?c with Some _ => _ | None => None end] =>
      destruct c as [[[] w1]|]; try discriminate
  end.
  destruct txnlog as [log|st]; [|discriminate].
  destruct (apply_txn_log log md) as [[st md1]|]; [|discriminate].
  destruct (negb (ok st)); [discriminate|].
  apply IH.
Qed.

(** C1.  Publish is idempotent.  In a world without injected faults, whose
    cache agrees with the store and whose metadata objects are stored under
    their own tablet id, a [publish] that has returned [OK] has left the
    metadata of the new version in the store, and the same call again
    returns [OK] and leaves the store as it is, the object of the new
    version included.  Moreover, in any world: when the base version is
    reported as not found and the new version can be read, [publish] returns
    [OK] and the store is untouched; and when, after the logs before it have
    been applied, a log is reported as not found and the new version can be
    read, [publish] returns [OK] and the store is untouched. *)
Theorem publish_idempotent (tablet base new : Z) (txns : list Z) :
  (∀ w w1,
     good w → metadata_ids_match w →
     publish tablet base new txns w = Some (OK, w1) →
     ∃ md w2,
       files w1 !! MetaLoc tablet new = Some (BMetadata md)
       ∧ publish tablet base new txns w1 = Some (OK, w2)
       ∧ files w2 = files w1)
  ∧ (∀ w w0 w1 m,
       Tablet_get_metadata tablet base w = Some (Error NotFound, w0) →
       Tablet_get_metadata tablet new w0 = Some (Value m, w1) →
       publish tablet base new txns w = Some (OK, w1)
       ∧ files w1 = files w)
  ∧ (∀ w w0 w1 w2 w3 b md m pre t post,
       txns = pre ++ t :: post →
       Tablet_get_metadata tablet base w = Some (Value b, w0) →
       publish_apply_logs tablet new pre (set_version new b) w0
         = Some (inr md, w1) →
       Tablet_get_txn_log tablet t w1 = Some (Error NotFound, w2) →
       Tablet_get_metadata tablet new w2 = Some (Value m, w3) →
       publish tablet base new txns w = Some (OK, w3)
       ∧ files w3 = files w).
Proof.
  split; [|split].
  - intros w w1 Hg Hids Hpub.
    destruct (read_meta (files w) tablet base) as [m0|st] eqn:Hb.
    2:{ (* the base version is missing *)
      destruct (publish_good_no_base tablet base new txns w st Hg Hb)
        as (w' & E & Hf & Hg').
      rewrite E in Hpub.
      pose proof (read_meta_error _ _ _ _ Hb) as Hst.
      destruct (is_not_found st && ok (status_of (read_meta (files w) tablet new)))
        eqn:Hc; [|injection Hpub as -> _; discriminate].
      injection Hpub as <-.
      apply andb_prop in Hc as [Hnf Hok].
      destruct (read_meta_ok _ _ _ Hok) as [md Hmd].
      rewrite <- Hf in Hb, Hok.
      destruct (publish_good_no_base tablet base new txns w' st Hg' Hb)
        as (w2 & E2 & Hf2 & _).
      rewrite Hnf, Hok in E2. cbn in E2.
      exists md, w2. split; [congruence|]. auto. }
    assert (Hid : tablet_id m0 = tablet).
    { apply read_meta_Value in Hb. eapply Hids; eauto. }
    destruct (apply_logs_ref (files w) tablet new txns (set_version new m0))
      as [[st|md]|] eqn:Ha.
    + (* the loop over the logs returns *)
      destruct (publish_good_early tablet base new txns w m0 st Hg Hb Ha)
        as (w' & E & Hf & Hg').
      rewrite E in Hpub. injection Hpub as -> <-.
      destruct (read_meta_ok _ _ _ (apply_logs_ref_inl_OK _ _ _ _ _ Ha))
        as [md Hmd].
      rewrite <- Hf in Hb, Ha.
      destruct (publish_good_early tablet base new txns w' m0 OK Hg' Hb Ha)
        as (w2 & E2 & Hf2 & _).
      exists md, w2. split; [congruence|]. auto.
    + (* the new version is written *)
      destruct (publish_good_full tablet base new txns w m0 md Hg Hb Hid Ha)
        as (w' & E & Hf & Hq & Ht & Hc).
      rewrite E in Hpub. injection Hpub as <-.
      destruct (apply_logs_ref_ids _ _ _ _ _ _ Ha) as [Hmid Hmv].
      cbn in Hmid, Hmv.
      assert (Hnew : files w' !! MetaLoc tablet new = Some (BMetadata md)).
      { rewrite Hf, delete_logs_lookup_other by (intros; discriminate).
        apply lookup_insert_eq. }
      assert (Hbase : ∃ X, files w' !! MetaLoc tablet base
                           = Some (BMetadata X)
                           ∧ (X = m0 ∨ (base = new ∧ X = md))).
      { rewrite Hf, delete_logs_lookup_other by (intros; discriminate).
        destruct (decide (base = new)) as [->|Hne].
        - exists md. rewrite lookup_insert_eq. auto.
        - exists m0. rewrite lookup_insert_ne by congruence.
          apply read_meta_Value in Hb. auto. }
      exists md. destruct txns as [|t0 txns].
      * cbn in Ha. injection Ha as <-.
        destruct (publish_replay_nil tablet base new w' (set_version new m0))
          as (w2 & E2 & Hf2); auto.
        -- intros X HX. apply Hc in HX as [_ [HX|[_ HX]]].
           ++ unfold coherent_at in HX. cbn in HX.
              apply read_meta_Value in Hb. congruence.
           ++ injection HX as ->. reflexivity.
        -- destruct Hbase as (X & HX & [->|[_ ->]]); eauto.
        -- eauto.
      * destruct (publish_replay_cons tablet base new t0 txns w')
          as (w2 & E2 & Hf2); auto.
        -- destruct Hbase as (X & HX & _). eauto.
        -- eauto.
        -- destruct (metacache w' !! TxnLoc tablet t0) as [cv|] eqn:Ec;
             [|reflexivity].
           apply Hc in Ec as [Hne _]. exfalso.
           apply (Hne t0); [apply elem_of_cons; auto|reflexivity].
        -- rewrite Hf. apply delete_logs_lookup_deleted.
           apply elem_of_cons; auto.
        -- eauto.
    + rewrite (publish_good_undefined tablet base new txns w m0 Hg Hb Ha)
        in Hpub. discriminate.
  - intros w w0 w1 m Hb Hn. unfold publish, bind. rewrite Hb. cbn.
    rewrite Hn. cbn. split; [reflexivity|].
    apply get_tablet_metadata_path_files in Hb, Hn. congruence.
  - intros w w0 w1 w2 w3 b md m pre t post -> Hb Hpre Hlog Hn.
    unfold publish. unfold bind at 1. rewrite Hb. unfold bind at 1.
    rewrite (publish_apply_logs_app tablet new pre (t :: post) _ _ _ _ Hpre).
    cbn. unfold bind at 1. rewrite Hlog. cbn. unfold bind at 1 2.
    rewrite Hn. cbn. split; [reflexivity|].
    apply get_tablet_metadata_path_files in Hb, Hn.
    apply publish_apply_logs_files in Hpre.
    apply get_txn_log_path_files in Hlog. congruence.
Qed.

Lemma world_v5_good : good world_v5 ∧ metadata_ids_match world_v5.
Proof.
  split; [split; [reflexivity|split]|].
  - intros p cv H. cbn in H. rewrite lookup_empty in H. discriminate.
  - intros p cv H. cbn in H. rewrite lookup_empty in H. discriminate.
  - intros t v m H. cbn in H.
    apply lookup_insert_Some in H as [[[= <- <-] [= <-]]|[_ H]];
      [reflexivity|].
    apply lookup_insert_Some in H as [[[=] _]|[_ H]].
    apply lookup_insert_Some in H as [[[=] _]|[_ H]].
    rewrite lookup_empty in H. discriminate.
Qed.

Lemma publish_idempotent_witness :
  ∃ w1 md w2,
    publish 10 5 6 [1; 2] world_v5 = Some (OK, w1)
    ∧ files w1 !! MetaLoc 10 6 = Some (BMetadata md)
    ∧ publish 10 5 6 [1; 2] w1 = Some (OK, w2)
    ∧ files w2 = files w1.
Proof.
  assert (E : ∃ w1, publish 10 5 6 [1; 2] world_v5 = Some (OK, w1)).
  { eexists. vm_compute. reflexivity. }
  destruct E as [w1 E]. exists w1.
  destruct (proj1 (publish_idempotent 10 5 6 [1; 2]) world_v5 w1
              (proj1 world_v5_good) (proj2 world_v5_good) E)
    as (md & w2 & H1 & H2 & H3).
  exists md, w2. auto.
Defined.

(** * Properties of the connector scan node *)

Import Scan.

(** ** Priority aging *)

Ltac priority_cases :=
  unfold compute_priority;
  repeat match goal with
         | |- context [?a <? ?b] => destruct (Z.ltb_spec a b); try lia
         end.

Lemma compute_priority_step (n : Z) :
  compute_priority n ≤ compute_priority (n - 1) ≤ compute_priority n + 1.
Proof. priority_cases. Qed.

Lemma compute_priority_bounds (n : Z) : 0 ≤ compute_priority n ≤ 20.
Proof. priority_cases. Qed.

Lemma compute_priority_mono_nat (n : Z) (k : nat) :
  compute_priority (n + Z.of_nat k) ≤ compute_priority n.
Proof.
  induction k as [|k IH].
  - replace (n + Z.of_nat 0) with n by lia. lia.
  - pose proof (compute_priority_step (n + Z.of_nat (S k))) as H.
    replace (n + Z.of_nat (S k) - 1) with (n + Z.of_nat k) in H by lia. lia.
Qed.

(** C5.  [compute_priority] does not increase with the submit count, its
    values lie between 0 and 20, and it steps down from 20 to 0 exactly at
    the thresholds: it is 20 below the first threshold, it loses one at each
    threshold, it is constant from one count to the next everywhere else,
    and it is 0 from the last threshold on. *)
Theorem compute_priority_aging :
  (∀ n m, n ≤ m → compute_priority m ≤ compute_priority n)
  ∧ (∀ n, 0 ≤ compute_priority n ≤ 20)
  ∧ (∀ n, n < 5 → compute_priority n = 20)
  ∧ (∀ t, t ∈ thresholds → compute_priority t = compute_priority (t - 1) - 1)
  ∧ (∀ n, n ∉ thresholds → compute_priority n = compute_priority (n - 1))
  ∧ (∀ n, 2395 ≤ n → compute_priority n = 0)
  ∧ length thresholds = 20%nat.
Proof.
  split; [|split; [|split; [|split; [|split; [|split]]]]].
  - intros n m Hnm.
    replace m with (n + Z.of_nat (Z.to_nat (m - n))) by lia.
    apply compute_priority_mono_nat.
  - apply compute_priority_bounds.
  - intros n Hn. priority_cases.
  - intros t Ht. unfold thresholds in Ht.
    repeat (apply elem_of_cons in Ht as [->|Ht]; [reflexivity|]).
    apply elem_of_nil in Ht. contradiction.
  - intros n Hn. unfold thresholds in Hn.
    repeat (apply not_elem_of_cons in Hn as [? Hn]).
    priority_cases.
  - intros n Hn. priority_cases.
  - reflexivity.
Qed.

Lemma compute_priority_aging_witness :
  compute_priority 600 ≤ compute_priority 594
  ∧ compute_priority 595 = compute_priority 594 - 1
  ∧ compute_priority 600 = compute_priority 599
  ∧ compute_priority 600 = 10.
Proof.
  destruct compute_priority_aging as (Hmono & _ & _ & Hstep & Hflat & _).
  split; [apply Hmono; lia|]. split; [|split].
  - apply Hstep. unfold thresholds.
    repeat (apply elem_of_cons; first [left; reflexivity|right]).
  - apply (Hflat 600). unfold thresholds. intros H.
    repeat (apply elem_of_cons in H as [H|H]; [discriminate|]).
    apply elem_of_nil in H. exact H.
  - reflexivity.
Defined.

(** ** Submitting a scanner *)

Import ConnectorScanNode.

Lemma wrap32_int32 (x : Z) : is_int32 (wrap32 x).
Proof. unfold is_int32, wrap32. Z.div_mod_to_equations. lia. Qed.

Lemma wrap32_id (x : Z) : is_int32 x → wrap32 x = x.
Proof. unfold is_int32, wrap32. intros H. Z.div_mod_to_equations. lia. Qed.

Lemma wrap32_undo (x d : Z) : is_int32 x → wrap32 (wrap32 (x + d) - d) = x.
Proof. unfold is_int32, wrap32. intros H. Z.div_mod_to_equations. lia. Qed.

Lemma submit_actions_returned (scanner : nat) (blockable : bool) (k : nat)
    (r : bool) (n : t) :
  submit_actions scanner blockable k (Returned r) n = Some (Returned r, n).
Proof. induction k as [|k IH]; [reflexivity|exact IH]. Qed.

Lemma try_offer_tasks (task : Task) (pool p : PriorityThreadPool)
    (accepted : bool) :
  try_offer task pool = (accepted, p) →
  tasks p = tasks pool ++ (if accepted then [task] else []).
Proof.
  unfold try_offer. destruct (try_offer_script pool) as [|a rest].
  - intros [= <- <-]. reflexivity.
  - intros [= <- <-]. cbn. destruct a; [reflexivity|].
    rewrite app_nil_r. reflexivity.
Qed.

(** C6.  [_submit_scanner] adds 0 to the submit count for a scanner that
    keeps its priority and 1 otherwise, and adds 1 to [_running_threads];
    the task, whose priority is computed from the count before the
    addition, is offered in the state [offered] that holds both additions.
    It returns [true] when the pool takes the task or when the call is
    blockable, and both additions then stay; when the pool refuses a call
    that is not blockable it returns [false] with both counters back at
    their values and no task added.

    The order is that of the actions of the call.  Every state that the
    call passes through is one of: the state of the start; the state
    [counted] with the addition to the submit count; the state [offered]
    with both additions, in which, and not before, the pool is asked;
    after a refusal, the state with both additions still in place, from
    which a call that is not blockable takes back first the 1 of
    [_running_threads], then the addition to the submit count, and only
    then returns [false].  So whenever the pool holds a task it did not
    hold at the start, both additions are in place.  Five actions bring
    every call to its return, with the result of [_submit_scanner]. *)
Theorem submit_scanner_counters (n : t) (scanner : nat)
    (s : ConnectorScanner.t) (blockable : bool) :
  _pool n !! scanner = Some s →
  is_int32 (_running_threads n) → is_int32 (_scanner_submit_count n) →
  let delta := if ConnectorScanner._keep_priority s then 0 else 1 in
  let task := {| work_function := scanner;
                 priority := compute_priority (_scanner_submit_count n) |} in
  let counted :=
    set_scanner_submit_count (wrap32 (_scanner_submit_count n + delta)) n in
  let offered :=
    set_running_threads (wrap32 (_running_threads n + 1)) counted in
  ∃ accepted p r n',
    try_offer task (thread_pool offered) = (accepted, p)
    ∧ _submit_scanner scanner blockable n = Some (r, n')
    ∧ r = accepted || blockable
    ∧ (blockable = true → r = true)
    ∧ (accepted = true → n' = set_thread_pool p offered)
    ∧ (accepted = false → blockable = true →
         n' = set_thread_pool (offer task p) offered)
    ∧ (r = true →
         _running_threads n' = wrap32 (_running_threads n + 1)
         ∧ _scanner_submit_count n'
           = wrap32 (_scanner_submit_count n + delta)
         ∧ work_function <$> tasks (thread_pool n')
           = (work_function <$> tasks (thread_pool n)) ++ [scanner])
    ∧ (r = false →
         accepted = false ∧ blockable = false
         ∧ _running_threads n' = _running_threads n
         ∧ _scanner_submit_count n' = _scanner_submit_count n
         ∧ tasks (thread_pool n') = tasks (thread_pool n))
    ∧ (∀ k pc m,
         submit_actions scanner blockable k AtFetchAddSubmitCount n
         = Some (pc, m) →
         match pc with
         | AtFetchAddSubmitCount => m = n
         | AtFetchAddRunning d tk => d = delta ∧ tk = task ∧ m = counted
         | AtTryOffer d tk => d = delta ∧ tk = task ∧ m = offered
         | AtOffer tk =>
             tk = task ∧ accepted = false ∧ blockable = true
             ∧ m = set_thread_pool p offered
         | AtFetchSubRunning d =>
             d = delta ∧ accepted = false ∧ blockable = false
             ∧ m = set_thread_pool p offered
         | AtFetchSubSubmitCount d =>
             d = delta ∧ accepted = false ∧ blockable = false
             ∧ m = set_running_threads (_running_threads n)
                     (set_thread_pool p offered)
         | Returned r0 => r0 = r ∧ m = n'
         end)
    ∧ (∀ k pc m,
         submit_actions scanner blockable k AtFetchAddSubmitCount n
         = Some (pc, m) →
         tasks (thread_pool m) ≠ tasks (thread_pool n) →
         _running_threads m = wrap32 (_running_threads n + 1)
         ∧ _scanner_submit_count m
           = wrap32 (_scanner_submit_count n + delta))
    ∧ submit_actions scanner blockable 5 AtFetchAddSubmitCount n
      = Some (Returned r, n').
Proof.
  intros Hs Hrun Hcnt delta task counted offered.
  destruct (try_offer task (thread_pool n)) as [accepted p] eqn:Eo.
  pose proof (try_offer_tasks _ _ _ _ Eo) as Htasks.
  assert (Hsub : ∃ r n',
             _submit_scanner scanner blockable n = Some (r, n')
             ∧ r = accepted || blockable
             ∧ n' = (if accepted then set_thread_pool p offered
                     else if blockable
                          then set_thread_pool (offer task p) offered
                          else set_scanner_submit_count
                                 (_scanner_submit_count n)
                                 (set_running_threads (_running_threads n)
                                    (set_thread_pool p offered)))).
  { unfold _submit_scanner, scanner_read, bind. rewrite Hs.
    fold delta. fold task. cbn -[wrap32 compute_priority].
    fold counted. fold offered. rewrite Eo.
    destruct accepted; [eauto|]. destruct blockable; [eauto|].
    eexists _, _. split; [reflexivity|]. split; [reflexivity|].
    cbn -[wrap32]. rewrite !wrap32_undo by assumption. reflexivity. }
  destruct Hsub as (r & n' & Hsub & Hr & Hn').
  assert (Hact : ∀ k pc m,
             submit_actions scanner blockable k AtFetchAddSubmitCount n
             = Some (pc, m) →
             match pc with
             | AtFetchAddSubmitCount => m = n
             | AtFetchAddRunning d tk => d = delta ∧ tk = task ∧ m = counted
             | AtTryOffer d tk => d = delta ∧ tk = task ∧ m = offered
             | AtOffer tk =>
                 tk = task ∧ accepted = false ∧ blockable = true
                 ∧ m = set_thread_pool p offered
             | AtFetchSubRunning d =>
                 d = delta ∧ accepted = false ∧ blockable = false
                 ∧ m = set_thread_pool p offered
             | AtFetchSubSubmitCount d =>
                 d = delta ∧ accepted = false ∧ blockable = false
                 ∧ m = set_running_threads (_running_threads n)
                         (set_thread_pool p offered)
             | Returned r0 => r0 = r ∧ m = n'
             end).
  { intros k pc m.
    destruct k as [|k]; [intros [= <- <-]; reflexivity|].
    cbn [submit_actions]. unfold bind at 1.
    cbn [submit_action]. unfold scanner_read, bind at 1. rewrite Hs.
    fold delta. fold task. fold counted.
    destruct k as [|k]; [intros [= <- <-]; auto|].
    cbn [submit_actions]. unfold bind at 1. cbn [submit_action].
    change (set_running_threads (wrap32 (_running_threads counted + 1))
              counted) with offered.
    destruct k as [|k]; [intros [= <- <-]; auto|].
    cbn [submit_actions]. unfold bind at 1. cbn [submit_action].
    change (thread_pool offered) with (thread_pool n). rewrite Eo.
    destruct accepted.
    { rewrite submit_actions_returned. intros [= <- <-]. subst r n'. auto. }
    destruct blockable.
    { destruct k as [|k]; [intros [= <- <-]; auto|].
      cbn [submit_actions]. unfold bind at 1. cbn [submit_action].
      rewrite submit_actions_returned. intros [= <- <-]. subst r n'. auto. }
    destruct k as [|k]; [intros [= <- <-]; auto|].
    cbn [submit_actions]. unfold bind at 1. cbn [submit_action].
    change (_running_threads (set_thread_pool p offered))
      with (wrap32 (_running_threads n + 1)).
    rewrite (wrap32_undo (_running_threads n) 1 Hrun).
    destruct k as [|k]; [intros [= <- <-]; auto|].
    cbn [submit_actions]. unfold bind at 1. cbn [submit_action].
    rewrite submit_actions_returned. intros [= <- <-]. subst r n'.
    split; [reflexivity|]. cbn -[wrap32].
    rewrite (wrap32_undo (_scanner_submit_count n) delta Hcnt).
    reflexivity. }
  exists accepted, p, r, n'.
  split; [exact Eo|]. split; [exact Hsub|]. split; [exact Hr|].
  split; [intros ->; rewrite Hr; apply orb_true_r|].
  split; [intros ->; exact Hn'|].
  split; [intros -> ->; exact Hn'|].
  split.
  { intros ->. rewrite Hn'.
    destruct accepted; [|destruct blockable; [|discriminate]];
      cbn -[wrap32]; (split; [reflexivity|]); (split; [reflexivity|]);
      rewrite ?fmap_app, Htasks, ?fmap_app, ?app_nil_r; reflexivity. }
  split.
  { intros ->. symmetry in Hr. apply orb_false_iff in Hr as [-> ->].
    rewrite Hn'. cbn. rewrite Htasks, app_nil_r. auto. }
  split; [exact Hact|]. split.
  { intros k pc m Hk Hne. specialize (Hact k pc m Hk).
    destruct pc.
    - subst m. contradiction.
    - destruct Hact as (_ & _ & ->). contradiction.
    - destruct Hact as (_ & _ & ->). contradiction.
    - destruct Hact as (_ & -> & _ & ->). cbn in Hne.
      rewrite Htasks, app_nil_r in Hne. contradiction.
    - destruct Hact as (_ & -> & _ & ->). cbn in Hne.
      rewrite Htasks, app_nil_r in Hne. contradiction.
    - destruct Hact as (_ & -> & _ & ->). cbn in Hne.
      rewrite Htasks, app_nil_r in Hne. contradiction.
    - destruct Hact as (_ & ->). rewrite Hn' in Hne |- *.
      destruct accepted; [cbn -[wrap32]; auto|].
      destruct blockable; [cbn -[wrap32]; auto|].
      cbn in Hne. rewrite Htasks, app_nil_r in Hne. contradiction. }
  cbn [submit_actions]. unfold bind at 1.
  cbn [submit_action]. unfold scanner_read, bind at 1. rewrite Hs.
  fold delta. fold task. fold counted.
  unfold bind at 1. cbn [submit_action].
  change (set_running_threads (wrap32 (_running_threads counted + 1))
            counted) with offered.
  unfold bind at 1. cbn [submit_action].
  change (thread_pool offered) with (thread_pool n). rewrite Eo.
  rewrite Hr, Hn'.
  destruct accepted; [reflexivity|].
  destruct blockable; [reflexivity|].
  unfold bind at 1. cbn [submit_action].
  change (_running_threads (set_thread_pool p offered))
    with (wrap32 (_running_threads n + 1)).
  rewrite (wrap32_undo (_running_threads n) 1 Hrun).
  unfold bind at 1. cbn [submit_action]. cbn -[wrap32].
  rewrite (wrap32_undo (_scanner_submit_count n) delta Hcnt).
  reflexivity.
Qed.

(** ** The pending token *)

Lemma sum_list_insert {A} (f : A → nat) (l : list A) (i : nat) (x y : A) :
  l !! i = Some x →
  (sum_list (map f (<[i := y]> l)) + f x = sum_list (map f l) + f y)%nat.
Proof.
  revert i. induction l as [|a l IH]; intros i Hi.
  - rewrite lookup_nil in Hi. discriminate.
  - destruct i as [|i]; simpl in *.
    + injection Hi as ->. lia.
    + specialize (IH i Hi). lia.
Qed.

Lemma holders_le_budget (s : PendingToken.state) :
  (PendingToken.holders s ≤ budget s)%nat.
Proof.
  unfold PendingToken.holders, budget.
  apply Nat.add_le_mono_l.
  induction (PendingToken.threads s) as [|th l IH]; cbn; [lia|].
  unfold weight at 1. lia.
Qed.

Lemma sum_list_snoc (l : list nat) (x : nat) :
  sum_list (l ++ [x]) = (sum_list l + x)%nat.
Proof. induction l as [|a l IH]; simpl in *; lia. Qed.

Lemma sum_list_lookup_le {A} (f : A → nat) (l : list A) (i : nat) (x : A) :
  l !! i = Some x → (f x ≤ sum_list (map f l))%nat.
Proof.
  revert i. induction l as [|a l IH]; intros i Hi.
  - rewrite lookup_nil in Hi. discriminate.
  - destruct i as [|i]; simpl in *.
    + injection Hi as ->. lia.
    + specialize (IH i Hi). lia.
Qed.

Ltac token_case Hi th new :=
  let E := fresh "E" in
  pose proof (sum_list_lookup_le weight _ _ th Hi);
  let wt := fresh "wt" in
  let wn := fresh "wn" in
  let Hwt := fresh "Hwt" in
  let Hwn := fresh "Hwn" in
  pose proof (sum_list_insert weight _ _ th new Hi) as E;
  remember (weight th) as wt eqn:Hwt;
  remember (weight new) as wn eqn:Hwn;
  unfold weight in Hwt, Hwn; cbn in Hwt, Hwn.

Lemma token_step_budget (s s' : PendingToken.state) :
  PendingToken.step s s' → (budget s ≤ 1)%nat → (budget s' ≤ 1)%nat.
Proof.
  intros Hstep Hb. unfold budget in *.
  destruct Hstep as [s i th Hi Hpc Hslot|s i th Hi Hpc Hslot|s i th Hi Hpc
                    |s i th Hi Hpc Hflag|s i th Hi Hpc|s];
    unfold PendingToken.set_thread; cbn [PendingToken.slot PendingToken.threads].
  - token_case Hi th {| PendingToken.flag := PendingToken.flag th;
                        PendingToken.at_pc := PendingToken.Swapping |}.
    rewrite Hpc in *. rewrite Hslot in Hb.
    destruct (PendingToken.flag th); cbn in *; lia.
  - exact Hb.
  - token_case Hi th {| PendingToken.flag := true;
                        PendingToken.at_pc := PendingToken.Idle |}.
    rewrite Hpc in *.
    destruct (PendingToken.flag th); cbn in *; lia.
  - token_case Hi th {| PendingToken.flag := false;
                        PendingToken.at_pc := PendingToken.Releasing |}.
    rewrite Hpc, Hflag in *. cbn in *. lia.
  - token_case Hi th {| PendingToken.flag := PendingToken.flag th;
                        PendingToken.at_pc := PendingToken.Idle |}.
    rewrite Hpc in *.
    destruct (PendingToken.slot s), (PendingToken.flag th); cbn in *; lia.
  - rewrite map_app. cbn [map]. rewrite sum_list_snoc. cbn. lia.
Qed.

Lemma token_reachable_budget (s : PendingToken.state) :
  PendingToken.reachable s → (budget s ≤ 1)%nat.
Proof.
  induction 1 as [s Hinit|s s' _ IH Hstep].
  - unfold budget. rewrite Hinit. cbn.
    destruct (PendingToken.slot s); cbn; lia.
  - eapply token_step_budget; eauto.
Qed.

(** ** The node: how its operations change the views *)

Lemma bind_Some {S A B} (m : StateM S A) (k : A → StateM S B) s b s'' :
  bind m k s = Some (b, s'') ↔
  ∃ a s', m s = Some (a, s') ∧ k a s' = Some (b, s'').
Proof.
  unfold bind. destruct (m s) as [[a s']|]; split.
  - eauto.
  - intros (a0 & s0 & [= <- <-] & H). exact H.
  - discriminate.
  - intros (a0 & s0 & [=] & _).
Qed.

Lemma consumer_frame_refl (n : t) : consumer_frame n n.
Proof. unfold consumer_frame. auto. Qed.

Lemma consumer_frame_trans (n1 n2 n3 : t) :
  consumer_frame n1 n2 → consumer_frame n2 n3 → consumer_frame n1 n3.
Proof.
  unfold consumer_frame.
  intros (? & ? & ? & ? & ?) (? & ? & ? & ? & ?).
  repeat split; try congruence. auto.
Qed.

Lemma settles_refl (n : t) : settles n n.
Proof.
  split; [apply consumer_frame_refl|].
  split; [lia|]. split; reflexivity.
Qed.

Lemma changes_requeue (scanner : nat) (o : open_change) (n n' : t) :
  changes scanner false o n n' → changes scanner true o n n'.
Proof.
  intros (Hc & Ht & Hl & Ho). split; [exact Hc|]. split; [exact Ht|].
  split; [|exact Ho]. apply submseteq_cons. exact Hl.
Qed.

(** A piece that settles, after any piece. *)
Lemma changes_then_settles (scanner : nat) (q : bool) (o : open_change)
    (n1 n2 n3 : t) :
  changes scanner q o n1 n2 → settles n2 n3 → changes scanner q o n1 n3.
Proof.
  intros (Hc1 & Ht1 & Hl1 & Ho1) (Hc2 & Ht2 & Hl2 & Ho2).
  split; [eapply consumer_frame_trans; eauto|].
  split; [lia|]. split; [etrans; eauto|].
  destruct o; [congruence|..];
    destruct Ho1 as (c & Hc & Ho1); exists c; split; congruence.
Qed.

(** Any piece, after a piece that settles. *)
Lemma settles_then_changes (scanner : nat) (q : bool) (o : open_change)
    (n1 n2 n3 : t) :
  settles n1 n2 → changes scanner q o n2 n3 → changes scanner q o n1 n3.
Proof.
  intros (Hc1 & Ht1 & Hl1 & Ho1) (Hc2 & Ht2 & Hl2 & Ho2).
  split; [eapply consumer_frame_trans; eauto|].
  split; [lia|]. split.
  - etrans; [exact Hl2|]. destruct q; [apply submseteq_skip|]; exact Hl1.
  - rewrite <- Ho1. exact Ho2.
Qed.

(** The scanner is queued again after its data source was opened. *)
Lemma changes_then_requeue (scanner : nat) (o : open_change) (q : bool)
    (n1 n2 n3 : t) :
  changes scanner false o n1 n2 → changes scanner q Same n2 n3 →
  changes scanner q o n1 n3.
Proof.
  intros (Hc1 & Ht1 & Hl1 & Ho1) (Hc2 & Ht2 & Hl2 & Ho2).
  split; [eapply consumer_frame_trans; eauto|].
  split; [lia|]. split.
  - etrans; [exact Hl2|]. destruct q; [apply submseteq_skip|]; exact Hl1.
  - destruct o; [congruence|..];
      destruct Ho1 as (c & Hc & Ho1); exists c; split; congruence.
Qed.

Lemma settles_trans (n1 n2 n3 : t) :
  settles n1 n2 → settles n2 n3 → settles n1 n3.
Proof. apply changes_then_settles. Qed.

(** Operations that leave the scanners, the token, the pending queue and
    the tasks alone. *)
Lemma settles_of_same (n n' : t) :
  consumer_frame n n' →
  _pool n' = _pool n → _pending_token n' = _pending_token n →
  _pending_scanners n' = _pending_scanners n →
  tasks (thread_pool n') = tasks (thread_pool n) →
  settles n n'.
Proof.
  intros Hc Hp Ht Hq Hk. split; [exact Hc|].
  unfold scanners_change, tokens, live, opens.
  rewrite Hp, Ht, Hq, Hk. split; [lia|]. split; reflexivity.
Qed.

Ltac frame_same :=
  apply settles_of_same;
  [unfold consumer_frame; cbn; repeat split; auto|reflexivity..].

Lemma update_status_settles (st : Status) (n n' : t) a :
  _update_status st n = Some (a, n') → settles n n'.
Proof.
  unfold _update_status. intros [= <- <-].
  destruct (ok (_status n)) eqn:E.
  - frame_same. congruence.
  - apply settles_refl.
Qed.

Lemma get_status_settles (n n' : t) a :
  _get_status n = Some (a, n') → settles n n' ∧ n' = n ∧ a = _status n.
Proof. intros [= <- <-]. split; [apply settles_refl|auto]. Qed.

Lemma fill_chunk_pool_settles (count : Z) (n n' : t) a :
  _fill_chunk_pool count n = Some (a, n') → settles n n'.
Proof. intros [= <- <-]. frame_same. Qed.

Lemma result_chunks_shutdown_settles (n n' : t) a :
  result_chunks_shutdown n = Some (a, n') → settles n n'.
Proof. intros [= <- <-]. frame_same. Qed.

Lemma add_closed_scanners_settles (d : Z) (n n' : t) a :
  add_closed_scanners d n = Some (a, n') → settles n n'.
Proof. intros [= <- <-]. frame_same. Qed.

Lemma add_running_threads_settles (d : Z) (n n' : t) a :
  add_running_threads d n = Some (a, n') → settles n n'.
Proof. intros [= <- <-]. frame_same. Qed.

Lemma scanner_read_same {A} (scanner : nat) (f : ConnectorScanner.t → A)
    (n n' : t) a :
  scanner_read scanner f n = Some (a, n') →
  n' = n ∧ ∃ s, _pool n !! scanner = Some s ∧ a = f s.
Proof.
  unfold scanner_read. destruct (_pool n !! scanner) as [s|] eqn:E;
    [|discriminate].
  intros [= <- <-]. eauto.
Qed.

Lemma sum_list_insert_le {A} (f : A → nat) (l : list A) (i : nat) (x y : A) :
  l !! i = Some x → (f y ≤ f x)%nat →
  (sum_list (map f (<[i := y]> l)) ≤ sum_list (map f l))%nat.
Proof. intros Hi Hle. pose proof (sum_list_insert f l i x y Hi). lia. Qed.

(** A call on a scanner that keeps its open state and does not raise its
    token flag. *)
Lemma scanner_call_settles {A} (scanner : nat)
    (f : ConnectorScanner.t → A * ConnectorScanner.t) (n n' : t) a :
  (∀ s, open_state (snd (f s)) = open_state s
        ∧ (token_flag (snd (f s)) ≤ token_flag s)%nat) →
  scanner_call scanner f n = Some (a, n') →
  settles n n'
  ∧ ∃ s, _pool n !! scanner = Some s ∧ a = fst (f s)
         ∧ _pool n' = <[scanner := snd (f s)]> (_pool n).
Proof.
  intros Hf. unfold scanner_call.
  destruct (_pool n !! scanner) as [s|] eqn:E; [|discriminate].
  destruct (f s) as [a0 s'] eqn:Efs. intros [= <- <-].
  specialize (Hf s). rewrite Efs in Hf. cbn in Hf. destruct Hf as [Ho Ht].
  split; [|exists s; rewrite Efs; cbn; auto].
  split; [unfold consumer_frame; cbn; auto|].
  unfold scanners_change, tokens, live, opens. cbn.
  split; [|split; [reflexivity|]].
  - apply Nat.add_le_mono_l. eapply sum_list_insert_le; eauto.
  - rewrite list_fmap_insert, Ho. apply list_insert_id.
    rewrite list_lookup_fmap, E. reflexivity.
Qed.

Lemma close_settles (scanner : nat) (n n' : t) a :
  scanner_call scanner (fun s => (tt, ConnectorScanner.close s)) n
    = Some (a, n') →
  settles n n'.
Proof.
  intros H. eapply scanner_call_settles in H as [H _]; [exact H|].
  intros s. cbn. split; [reflexivity|]. unfold token_flag. cbn. lia.
Qed.

Lemma set_keep_priority_settles (scanner : nat) (v : bool) (n n' : t) a :
  scanner_call scanner
    (fun s => (tt, ConnectorScanner.set_keep_priority v s)) n = Some (a, n') →
  settles n n'.
Proof.
  intros H. eapply scanner_call_settles in H as [H _]; [exact H|].
  intros s. cbn. split; [reflexivity|]. unfold token_flag. cbn. lia.
Qed.

Lemma scanner_get_next_settles (scanner : nat) (n n' : t) a :
  scanner_call scanner
    (fun s => let '(st, c, s') := ConnectorScanner.get_next s
              in ((st, c), s')) n = Some (a, n') →
  settles n n'.
Proof.
  intros H. eapply scanner_call_settles in H as [H _]; [exact H|].
  intros s. unfold ConnectorScanner.get_next, ds_get_next.
  destruct (next_script (ConnectorScanner._data_source s)) as [|[[st r] raw] l];
    cbn; (split; [reflexivity|]); unfold token_flag; cbn; lia.
Qed.

(** A write to the token slot of the node and to the flag of a scanner. *)
Lemma token_update_settles (scanner : nat) (n : t) (s s' : ConnectorScanner.t)
    (token : bool) :
  _pool n !! scanner = Some s →
  open_state s' = open_state s →
  (PendingToken.count token + token_flag s'
   ≤ PendingToken.count (_pending_token n) + token_flag s)%nat →
  settles n (set_pending_token token
               (set_pool (<[scanner := s']> (_pool n)) n)).
Proof.
  intros E Ho Hle. split; [unfold consumer_frame; cbn; auto|].
  unfold scanners_change, tokens, live, opens. cbn.
  split; [|split; [reflexivity|]].
  - pose proof (sum_list_insert token_flag (_pool n) scanner s s' E). lia.
  - rewrite list_fmap_insert, Ho. apply list_insert_id.
    rewrite list_lookup_fmap, E. reflexivity.
Qed.

Lemma acquire_pending_token_settles (scanner : nat) (n n' : t) a :
  acquire_pending_token scanner n = Some (a, n') → settles n n'.
Proof.
  unfold acquire_pending_token.
  destruct (_pool n !! scanner) as [s|] eqn:E; [|discriminate].
  unfold ConnectorScanner.acquire_pending_token, atomic_cas.
  destruct (Bool.eqb (_pending_token n) true) eqn:Et; intros [= <- <-];
    apply (token_update_settles scanner n s); try exact E; try reflexivity;
    unfold token_flag; cbn.
  all: destruct (_pending_token n), (ConnectorScanner._pending_token s);
    cbn in *; lia.
Qed.

Lemma release_pending_token_settles (scanner : nat) (n n' : t) a :
  release_pending_token scanner n = Some (a, n') → settles n n'.
Proof.
  unfold release_pending_token.
  destruct (_pool n !! scanner) as [s|] eqn:E; [|discriminate].
  unfold ConnectorScanner.release_pending_token.
  destruct (ConnectorScanner._pending_token s) eqn:Et; intros [= <- <-];
    apply (token_update_settles scanner n s); try exact E; try reflexivity;
    unfold token_flag; cbn; rewrite ?Et; cbn.
  all: destruct (_pending_token n); cbn; lia.
Qed.

Lemma push_pending_scanner_requeues (scanner : nat) (n n' : t) a :
  _push_pending_scanner scanner n = Some (a, n') →
  changes scanner true Same n n'.
Proof.
  intros [= <- <-]. split; [unfold consumer_frame; cbn; auto|].
  unfold scanners_change, tokens, live, opens. cbn.
  split; [lia|]. split; reflexivity.
Qed.

(** Popping a scanner takes it out of those that wait. *)
Lemma pop_pending_scanner_spec (n n' : t) (scanner : nat) :
  _pop_pending_scanner n = Some (scanner, n') →
  consumer_frame n n' ∧ tokens n' = tokens n ∧ opens n' = opens n
  ∧ live n = scanner :: live n'.
Proof.
  unfold _pop_pending_scanner.
  destruct (_pending_scanners n) as [|sc rest] eqn:E; [discriminate|].
  intros [= <- <-]. split; [unfold consumer_frame; cbn; auto|].
  unfold tokens, live, opens. cbn. rewrite E. auto.
Qed.

(** Submitting a scanner makes it wait in the pool when the result is
    [true], and changes nothing of the views otherwise. *)
Lemma submit_scanner_requeues (scanner : nat) (blockable : bool)
    (n n' : t) (r : bool) :
  _submit_scanner scanner blockable n = Some (r, n') →
  changes scanner r Same n n'.
Proof.
  unfold _submit_scanner. intros H.
  apply bind_Some in H as (keep & n0 & Hr & H).
  apply scanner_read_same in Hr as [-> _].
  cbn -[wrap32 compute_priority] in H.
  destruct (try_offer _ (thread_pool n)) as [accepted p] eqn:Eo.
  assert (Hp : work_function <$> tasks p
               = (work_function <$> tasks (thread_pool n))
                   ++ (if accepted then [scanner] else [])).
  { unfold try_offer in Eo.
    destruct (try_offer_script (thread_pool n)) as [|b rest];
      injection Eo as <- <-; cbn.
    - rewrite fmap_app. reflexivity.
    - destruct b; [rewrite fmap_app|rewrite app_nil_r]; reflexivity. }
  assert (Hperm : ∀ l k : list nat, l ++ k ++ [scanner]
                                    ⊆+ scanner :: l ++ k).
  { intros l k. apply Permutation_submseteq.
    rewrite app_assoc. symmetry. apply Permutation_cons_append. }
  destruct accepted.
  - injection H as <- <-. split; [unfold consumer_frame; cbn; auto|].
    unfold scanners_change, tokens, live, opens. cbn -[wrap32].
    split; [lia|]. split; [|reflexivity]. rewrite Hp. apply Hperm.
  - destruct blockable; injection H as <- <-;
      (split; [unfold consumer_frame; cbn; auto|]);
      unfold scanners_change, tokens, live, opens; cbn -[wrap32];
      (split; [lia|]); (split; [|reflexivity]).
    + rewrite fmap_app, Hp, app_nil_r. cbn. apply Hperm.
    + rewrite Hp, app_nil_r. reflexivity.
Qed.

Lemma pop_then_requeue (scanner : nat) (q : bool) (n n1 n2 : t) :
  _pop_pending_scanner n = Some (scanner, n1) →
  changes scanner q Same n1 n2 → settles n n2.
Proof.
  intros Hpop (Hc & Ht & Hl & Ho).
  apply pop_pending_scanner_spec in Hpop as (Hc0 & Ht0 & Ho0 & Hl0).
  split; [eapply consumer_frame_trans; eauto|].
  split; [lia|]. split; [|cbn in *; congruence].
  rewrite Hl0. etrans; [exact Hl|].
  destruct q; [reflexivity|apply submseteq_cons; reflexivity].
Qed.

Lemma yield_loop_settles (need_put : nat) :
  ∀ n n' a, yield_loop need_put n = Some (a, n') → settles n n'.
Proof.
  induction need_put as [|k IH]; intros n n' a; cbn.
  { intros [= <- <-]. apply settles_refl. }
  destruct (_pending_scanners n) as [|sc rest] eqn:E.
  { intros [= <- <-]. apply settles_refl. }
  intros H. apply bind_Some in H as (scanner & n1 & Hpop & H).
  apply bind_Some in H as (submitted & n2 & Hsub & H).
  apply submit_scanner_requeues in Hsub.
  pose proof (pop_then_requeue _ _ _ _ _ Hpop Hsub) as Hs.
  destruct submitted.
  - eapply settles_trans; [exact Hs|]. eapply IH; eauto.
  - injection H as <- <-. exact Hs.
Qed.

Lemma close_scanners_settles (pending : list nat) :
  ∀ n n' a, close_scanners pending n = Some (a, n') → settles n n'.
Proof.
  induction pending as [|sc rest IH]; intros n n' a; cbn.
  { intros [= <- <-]. apply settles_refl. }
  intros H. apply bind_Some in H as (u1 & n1 & H1 & H).
  apply bind_Some in H as (u2 & n2 & H2 & H).
  apply close_settles in H1. apply add_closed_scanners_settles in H2.
  eapply settles_trans; [exact H1|].
  eapply settles_trans; [exact H2|]. eapply IH; eauto.
Qed.

Lemma close_pending_scanners_settles (n n' : t) a :
  _close_pending_scanners n = Some (a, n') → settles n n'.
Proof.
  unfold _close_pending_scanners. intros H.
  apply close_scanners_settles in H.
  eapply settles_trans; [|exact H].
  split; [unfold consumer_frame; cbn; auto|].
  unfold scanners_change, tokens, live, opens. cbn.
  split; [lia|]. split; [|reflexivity].
  apply submseteq_inserts_l. reflexivity.
Qed.

Lemma release_scanner_settles (scanner : nat) (n n' : t) a :
  _release_scanner scanner n = Some (a, n') → settles n n'.
Proof.
  unfold _release_scanner. intros H.
  apply bind_Some in H as (u1 & n1 & H1 & H).
  apply bind_Some in H as (u2 & n2 & H2 & H).
  apply bind_Some in H as (u3 & n3 & H3 & H).
  apply release_pending_token_settles in H1. apply close_settles in H2.
  apply add_closed_scanners_settles in H3.
  apply close_pending_scanners_settles in H.
  eauto using settles_trans.
Qed.

Lemma set_chunk_pool_settles (pool : list Chunk) (n : t) :
  settles n (set_chunk_pool pool n).
Proof. frame_same. Qed.

Lemma set_result_chunks_settles (q : BlockingQueue) (n : t) :
  settles n (set_result_chunks q n).
Proof. frame_same. Qed.

(** The produce loop hands the scanner to the pending queue at most once,
    and only with the local status [OK]; it asks for a resubmission only
    with the local status [OK]. *)
Lemma produce_loop_changes (fuel : nat) (scanner : nat) (threshold : Z) :
  ∀ n e n',
    produce_loop fuel scanner threshold n = Some (e, n') →
    changes scanner (handed_off e) Same n n'
    ∧ (handed_off e = true → exit_status e = OK ∧ resubmit e = false)
    ∧ (resubmit e = true → exit_status e = OK ∧ handed_off e = false).
Proof.
  induction fuel as [|fuel IH]; intros n e n'; [discriminate|].
  cbn [produce_loop]. intros H.
  apply bind_Some in H as (global & n0 & Hg & H).
  apply get_status_settles in Hg as (_ & -> & ->).
  destruct (negb (ok (_status n))).
  { injection H as <- <-. cbn. split; [apply settles_refl|].
    split; [discriminate|discriminate]. }
  destruct (_chunk_pool n) as [|c pool] eqn:Epool.
  - apply bind_Some in H as (u1 & n1 & H1 & H).
    apply bind_Some in H as (u2 & n2 & H2 & H).
    apply bind_Some in H as (u3 & n3 & H3 & H).
    injection H as <- <-. cbn.
    apply set_keep_priority_settles in H1.
    apply release_pending_token_settles in H2.
    apply push_pending_scanner_requeues in H3.
    split; [|split; [auto|discriminate]].
    eapply settles_then_changes; [exact H1|].
    eapply settles_then_changes; [exact H2|]. exact H3.
  - apply bind_Some in H as ([status chunk] & n1 & H1 & H).
    apply scanner_get_next_settles in H1.
    pose proof (settles_trans _ _ _ (set_chunk_pool_settles pool n) H1) as Hs1.
    destruct (negb (ok status)).
    { injection H as <- <-. cbn. split; [|split; discriminate].
      eapply settles_trans; [exact Hs1|]. apply set_chunk_pool_settles. }
    destruct (queue_put chunk (_result_chunks n1)) as [put q] eqn:Eput.
    pose proof (settles_trans _ _ _ Hs1 (set_result_chunks_settles q n1))
      as Hs2.
    destruct (negb put).
    { injection H as <- <-. cbn. split; [exact Hs2|]. split; discriminate. }
    apply bind_Some in H as (rows & n2 & Hr1 & H).
    apply scanner_read_same in Hr1 as [-> _].
    apply bind_Some in H as (raw & n3 & Hr2 & H).
    apply scanner_read_same in Hr2 as [-> _].
    destruct (negb (_limit (set_result_chunks q n1) =? -1)
              && (_limit (set_result_chunks q n1) <=? rows)).
    { injection H as <- <-. cbn. split; [exact Hs2|]. split; discriminate. }
    destruct (threshold <=? raw).
    { injection H as <- <-. cbn. split; [exact Hs2|]. split; [discriminate|].
      auto. }
    apply IH in H as (Hc & Hh & Hr). split; [|auto].
    eapply settles_then_changes; eauto.
Qed.

(** [scanner->open]: nothing changes for an open scanner; otherwise the data
    source is opened once more, and the scanner is open afterwards exactly
    when the call returns [OK]. *)
Lemma scanner_open_changes (scanner : nat) (n n' : t) (status : Status) :
  scanner_call scanner ConnectorScanner.open n = Some (status, n') →
  ∃ o, changes scanner false o n n'
       ∧ (o = Failed ↔ ok status = false).
Proof.
  unfold scanner_call.
  destruct (_pool n !! scanner) as [s|] eqn:E; [|discriminate].
  destruct (ConnectorScanner.open s) as [st s'] eqn:Eo.
  intros [= <- <-].
  assert (Hframe : consumer_frame n
                     (set_pool (<[scanner := s']> (_pool n)) n))
    by (unfold consumer_frame; cbn; auto).
  assert (Hflag : token_flag s' = token_flag s).
  { unfold ConnectorScanner.open in Eo.
    destruct (ConnectorScanner._is_open s); [congruence|].
    destruct (ds_open _) as [st0 d].
    destruct (negb (ok st0)); injection Eo as <- <-; reflexivity. }
  assert (Htok : (tokens (set_pool (<[scanner := s']> (_pool n)) n)
                  ≤ tokens n)%nat).
  { unfold tokens. cbn.
    pose proof (sum_list_insert token_flag (_pool n) scanner s s' E). lia. }
  assert (Hopens : opens (set_pool (<[scanner := s']> (_pool n)) n)
                   = <[scanner := open_state s']> (opens n)).
  { unfold opens. cbn. apply list_fmap_insert. }
  assert (Hlook : opens n !! scanner = Some (open_state s)).
  { unfold opens. rewrite list_lookup_fmap, E. reflexivity. }
  unfold ConnectorScanner.open in Eo.
  destruct (ConnectorScanner._is_open s) eqn:Eopen.
  - injection Eo as <- <-. exists Same.
    split; [|split; [discriminate|discriminate]].
    split; [exact Hframe|]. split; [exact Htok|]. split; [reflexivity|].
    rewrite Hopens. apply list_insert_id. exact Hlook.
  - unfold ds_open in Eo.
    destruct (negb (ok (hd OK (open_script (ConnectorScanner._data_source s)))))
      eqn:Est; injection Eo as <- <-.
    + exists Failed. apply negb_true_iff in Est.
      split; [|split; auto].
      split; [exact Hframe|]. split; [exact Htok|]. split; [reflexivity|].
      exists (open_calls (ConnectorScanner._data_source s)).
      split; [|exact Hopens].
      rewrite Hlook. unfold open_state. rewrite Eopen. reflexivity.
    + exists Opened. split; [|split; discriminate].
      split; [exact Hframe|]. split; [exact Htok|]. split; [reflexivity|].
      exists (open_calls (ConnectorScanner._data_source s)).
      split; [|exact Hopens].
      rewrite Hlook. unfold open_state. rewrite Eopen. reflexivity.
Qed.

Lemma scanner_thread_epilogue_changes (scanner : nat) (e : LoopExit)
    (n n' : t) a :
  scanner_thread_epilogue scanner e n = Some (a, n') →
  changes scanner (ok (exit_status e) && resubmit e) Same n n'.
Proof.
  unfold scanner_thread_epilogue. intros H.
  apply bind_Some in H as (global & n0 & Hg & H).
  apply get_status_settles in Hg as (_ & -> & ->).
  assert (Hweak : settles n n' →
                  changes scanner (ok (exit_status e) && resubmit e) Same n n').
  { intros Hs. destruct (ok (exit_status e) && resubmit e);
      [apply changes_requeue|]; exact Hs. }
  destruct (ok (_status n)).
  - destruct (ok (exit_status e) && resubmit e) eqn:Eq.
    + apply bind_Some in H as (submitted & n1 & Hsub & H).
      apply submit_scanner_requeues in Hsub.
      destruct submitted.
      * injection H as <- <-. exact Hsub.
      * apply bind_Some in H as (u & n2 & Hrel & H).
        apply release_pending_token_settles in Hrel.
        apply push_pending_scanner_requeues in H.
        eapply changes_then_requeue; [exact Hsub|].
        eapply settles_then_changes; eauto.
    + destruct (ok (exit_status e)).
      { injection H as <- <-. apply settles_refl. }
      destruct (is_end_of_file (exit_status e)).
      * apply bind_Some in H as (u1 & n1 & H1 & H).
        apply bind_Some in H as (u2 & n2 & H2 & H).
        apply bind_Some in H as (u3 & n3 & H3 & H).
        apply release_pending_token_settles in H1.
        apply close_settles in H2. apply add_closed_scanners_settles in H3.
        eapply settles_trans; [exact H1|].
        eapply settles_trans; [exact H2|].
        eapply settles_trans; [exact H3|].
        destruct (_pending_scanners n3) as [|sc rest].
        { injection H as <- <-. apply settles_refl. }
        apply bind_Some in H as (nscanner & n4 & Hpop & H).
        apply bind_Some in H as (submitted & n5 & Hsub & H).
        apply submit_scanner_requeues in Hsub.
        destruct submitted.
        -- injection H as <- <-. eapply pop_then_requeue; eauto.
        -- apply push_pending_scanner_requeues in H.
           eapply pop_then_requeue; [exact Hpop|].
           eapply changes_then_requeue; eauto.
      * apply bind_Some in H as (u1 & n1 & H1 & H).
        apply update_status_settles in H1.
        apply release_scanner_settles in H.
        eapply settles_trans; eauto.
  - apply Hweak. destruct (handed_off e).
    + injection H as <- <-. apply settles_refl.
    + eapply release_scanner_settles; eauto.
Qed.

Lemma open_limit_same (n n' : t) a :
  open_limit n = Some (a, n') → n' = n.
Proof. intros [= <- <-]. reflexivity. Qed.

(** A worker task on a scanner: the scanner waits again at most once, and
    not after its data source failed to open. *)
Lemma scanner_thread_body_changes (scanner : nat) (n n' : t) a :
  scanner_thread_body scanner n = Some (a, n') →
  ∃ q o, changes scanner q o n n' ∧ (o = Failed → q = false).
Proof.
  unfold scanner_thread_body. intros H.
  apply bind_Some in H as (global & n0 & Hg & H).
  apply get_status_settles in Hg as (_ & -> & ->).
  destruct (negb (ok (_status n))).
  { exists false, Same. split; [|auto]. eapply release_scanner_settles; eauto. }
  apply bind_Some in H as (tok1 & n0 & Hr & H).
  apply scanner_read_same in Hr as [-> _].
  apply bind_Some in H as (u1 & n1 & Hy & H).
  assert (Hs1 : settles n n1).
  { destruct tok1.
    - destruct (0 <? _); [eapply yield_loop_settles; eauto|].
      injection Hy as <- <-. apply settles_refl.
    - injection Hy as <- <-. apply settles_refl. }
  clear Hy.
  apply bind_Some in H as (tok2 & n0 & Hr & H).
  apply scanner_read_same in Hr as [-> _].
  apply bind_Some in H as (u2 & n2 & Ha & H).
  assert (Hs2 : settles n n2).
  { eapply settles_trans; [exact Hs1|]. destruct tok2.
    - injection Ha as <- <-. apply settles_refl.
    - eapply acquire_pending_token_settles; eauto. }
  clear Ha Hs1.
  apply bind_Some in H as (is_open & n0 & Hr & H).
  apply scanner_read_same in Hr as [-> _].
  apply bind_Some in H as (tok3 & n0 & Hr & H).
  apply scanner_read_same in Hr as [-> _].
  apply bind_Some in H as (limit & n0 & Hr & H).
  apply open_limit_same in Hr as ->.
  destruct (negb is_open && (max_hdfs_file_handle (config n2) <? limit)
            && negb tok3).
  { exists true, Same. split; [|discriminate].
    apply push_pending_scanner_requeues in H.
    eapply settles_then_changes; eauto. }
  apply bind_Some in H as (status & n3 & Ho & H).
  apply scanner_open_changes in Ho as (o & Ho & Hfail).
  apply bind_Some in H as (u3 & n4 & Hk & H).
  apply set_keep_priority_settles in Hk.
  apply bind_Some in H as (raw & n0 & Hr & H).
  apply scanner_read_same in Hr as [-> _].
  apply bind_Some in H as (e & n5 & Hl & H).
  apply scanner_thread_epilogue_changes in H.
  pose proof (settles_then_changes _ _ _ _ _ _ Hs2
                (changes_then_settles _ _ _ _ _ _ Ho Hk)) as Hc4.
  destruct (ok status) eqn:Est.
  - apply produce_loop_changes in Hl as (Hl & Hh & Hr).
    assert (o ≠ Failed) as Hnf by (intros Ho'; apply Hfail in Ho'; congruence).
    destruct (handed_off e) eqn:Eh.
    + destruct (Hh eq_refl) as [Hst Hres]. rewrite Hst, Hres in H. cbn in H.
      exists true, o. split; [|intros; contradiction].
      eapply changes_then_settles; [|exact H].
      eapply changes_then_requeue; eauto.
    + exists (ok (exit_status e) && resubmit e), o.
      split; [|intros; contradiction].
      eapply changes_then_requeue; [|exact H].
      eapply changes_then_settles; eauto.
  - injection Hl as <- <-. cbn in H. rewrite andb_false_r in H.
    exists false, o. split; [|auto].
    eapply changes_then_settles; eauto.
Qed.

Lemma scanner_thread_changes (scanner : nat) (n n' : t) a :
  _scanner_thread scanner n = Some (a, n') →
  ∃ q o, changes scanner q o n n' ∧ (o = Failed → q = false).
Proof.
  unfold _scanner_thread. intros H.
  apply bind_Some in H as (u1 & n1 & Hb & H).
  apply bind_Some in H as (u2 & n2 & Hr & H).
  apply scanner_thread_body_changes in Hb as (q & o & Hb & Hq).
  apply add_running_threads_settles in Hr.
  exists q, o. split; [|exact Hq].
  eapply changes_then_settles; [exact Hb|].
  eapply settles_trans; [exact Hr|].
  destruct (_closed_scanners n2 =? _num_scanners n2).
  - eapply result_chunks_shutdown_settles; eauto.
  - injection H as <- <-. apply settles_refl.
Qed.

(** ** The invariant of the node on its scanners *)

Lemma NoDup_of_submseteq {A} (l k : list A) : l ⊆+ k → NoDup k → NoDup l.
Proof.
  intros Hsub Hk. apply submseteq_Permutation in Hsub as [k' Hp].
  rewrite Hp in Hk. apply NoDup_app in Hk as [Hl _]. exact Hl.
Qed.

Lemma scanners_inv_settles (n n' : t) :
  scanners_inv n → settles n n' → scanners_inv n'.
Proof.
  intros (Hnd & Hopen & Hstart & Hranges & Htok)
         ((Hlim & Hret & Hst & Hrg & Hsticky) & Ht & Hl & Ho).
  cbn in Hl, Ho.
  split; [eapply NoDup_of_submseteq; eauto|].
  split; [|split; [|split]].
  - intros scanner c b Hs. rewrite Ho in Hs.
    destruct (Hopen scanner c b Hs) as [Hc Hdead]. split; [exact Hc|].
    intros Hc1 Hb Hin. apply (Hdead Hc1 Hb).
    eapply elem_of_submseteq; eauto.
  - rewrite Hst. intros Hs. destruct (Hstart Hs) as [Hp Hlive].
    split.
    + unfold opens in Ho. rewrite Hp in Ho. cbn in Ho.
      eapply fmap_nil_inv; eauto.
    + rewrite Hlive in Hl. apply submseteq_nil_r in Hl. exact Hl.
  - rewrite Hrg. exact Hranges.
  - lia.
Qed.

Lemma take_task_live (i : nat) (task : Task) (n : t) :
  tasks (thread_pool n) !! i = Some task →
  live n ≡ₚ work_function task :: live (take_task i n).
Proof.
  intros Hi. unfold live, take_task. cbn.
  rewrite list_fmap_delete.
  assert (Hf : (work_function <$> tasks (thread_pool n)) !! i
               = Some (work_function task))
    by (rewrite list_lookup_fmap, Hi; reflexivity).
  rewrite (delete_Permutation _ _ _ Hf) at 1.
  symmetry. apply Permutation_middle.
Qed.

(** A worker runs a task. *)
Lemma scanners_inv_worker (n n' : t) (i : nat) (task : Task) a :
  scanners_inv n →
  tasks (thread_pool n) !! i = Some task →
  _scanner_thread (work_function task) (take_task i n) = Some (a, n') →
  scanners_inv n' ∧ consumer_frame n n'.
Proof.
  intros (Hnd & Hopen & Hstart & Hranges & Htok) Hi Hrun.
  set (scanner := work_function task) in *.
  pose proof (take_task_live i task n Hi) as Hperm. fold scanner in Hperm.
  apply scanner_thread_changes in Hrun
    as (q & o & ((Hlim & Hret & Hst & Hrg & Hsticky) & Ht & Hl & Ho) & Hq).
  assert (Hin : scanner ∈ live n) by (rewrite Hperm; left).
  assert (Hstarted : _start n = true).
  { destruct (_start n) eqn:E; [reflexivity|].
    destruct (Hstart eq_refl) as [_ Hlive]. rewrite Hlive in Hin.
    apply elem_of_nil in Hin. contradiction. }
  rewrite Hperm in Hnd. apply NoDup_cons in Hnd as [Hfresh Hnd0].
  assert (Hopens0 : opens (take_task i n) = opens n) by reflexivity.
  assert (Htok0 : tokens (take_task i n) = tokens n) by reflexivity.
  rewrite Hopens0 in Ho. rewrite Htok0 in Ht.
  assert (Hlive' : live n' ⊆+ scanner :: live (take_task i n)).
  { destruct q; [exact Hl|apply submseteq_cons; exact Hl]. }
  assert (Hother : ∀ sc, sc ≠ scanner → sc ∈ live n' → sc ∈ live n).
  { intros sc Hne Hsc. rewrite Hperm.
    eapply elem_of_submseteq; eauto. }
  split; [|unfold consumer_frame; cbn in *; auto].
  split; [eapply NoDup_of_submseteq; [exact Hlive'|]; apply NoDup_cons; auto|].
  split; [|split; [|split]].
  - intros sc c b Hs. destruct o.
    + rewrite Ho in Hs. destruct (Hopen sc c b Hs) as [Hc Hdead].
      split; [exact Hc|]. intros Hc1 Hb Hsc.
      destruct (decide (sc = scanner)) as [->|Hne].
      * apply (Hdead Hc1 Hb Hin).
      * apply (Hdead Hc1 Hb). auto.
    + destruct Ho as (c0 & Hc0 & Ho). rewrite Ho in Hs.
      destruct (Hopen scanner c0 false Hc0) as [Hle Hdead].
      assert (c0 = 0%nat) as ->.
      { destruct c0 as [|[|c0]]; [reflexivity| |lia].
        exfalso. apply (Hdead eq_refl eq_refl Hin). }
      destruct (decide (sc = scanner)) as [->|Hne].
      * rewrite list_lookup_insert_eq in Hs
          by (eapply lookup_lt_Some; eauto).
        injection Hs as <- <-. split; [lia|discriminate].
      * rewrite list_lookup_insert_ne in Hs by congruence.
        destruct (Hopen sc c b Hs) as [Hc Hdead'].
        split; [exact Hc|]. intros Hc1 Hb Hsc. apply (Hdead' Hc1 Hb). auto.
    + destruct Ho as (c0 & Hc0 & Ho). rewrite Ho in Hs.
      destruct (Hopen scanner c0 false Hc0) as [Hle Hdead].
      assert (c0 = 0%nat) as ->.
      { destruct c0 as [|[|c0]]; [reflexivity| |lia].
        exfalso. apply (Hdead eq_refl eq_refl Hin). }
      destruct (decide (sc = scanner)) as [->|Hne].
      * rewrite list_lookup_insert_eq in Hs
          by (eapply lookup_lt_Some; eauto).
        injection Hs as <- <-. split; [lia|].
        intros _ _ Hsc. rewrite (Hq eq_refl) in Hl.
        apply Hfresh. eapply elem_of_submseteq; eauto.
      * rewrite list_lookup_insert_ne in Hs by congruence.
        destruct (Hopen sc c b Hs) as [Hc Hdead'].
        split; [exact Hc|]. intros Hc1 Hb Hsc. apply (Hdead' Hc1 Hb). auto.
  - cbn in Hst. rewrite Hst, Hstarted. discriminate.
  - cbn in Hrg. rewrite Hrg. exact Hranges.
  - lia.
Qed.

(** *** Starting the scan *)

Lemma create_scanners_spec (ranges : list DataSource) :
  ∀ n n' a,
    create_scanners ranges n = Some (a, n') →
    _pool n' = _pool n ++ (ConnectorScanner.new <$> ranges)
    ∧ _pending_scanners n'
      = reverse (seq (length (_pool n)) (length ranges))
          ++ _pending_scanners n
    ∧ _pending_token n' = _pending_token n
    ∧ thread_pool n' = thread_pool n
    ∧ _limit n' = _limit n ∧ _num_rows_returned n' = _num_rows_returned n
    ∧ _scan_ranges n' = _scan_ranges n ∧ _status n' = _status n
    ∧ _start n' = _start n.
Proof.
  induction ranges as [|d ranges IH]; intros n n' a H.
  { injection H as <- <-. cbn. rewrite app_nil_r. repeat split; reflexivity. }
  cbn [create_scanners] in H.
  apply bind_Some in H as (u & n1 & H1 & H).
  unfold _create_and_init_scanner, _push_pending_scanner in H1.
  injection H1 as <- <-.
  apply IH in H as (Hp & Hq & Ht & Hk & Hl & Hr & Hrg & Hs & Hst).
  cbn in Hp, Hq, Ht, Hk, Hl, Hr, Hrg, Hs, Hst.
  rewrite length_app in Hq. cbn [length] in Hq.
  replace (length (_pool n) + 1)%nat with (S (length (_pool n))) in Hq by lia.
  split; [rewrite Hp, <- app_assoc; reflexivity|].
  split; [|auto 10].
  rewrite Hq. cbn [length seq fmap list_fmap].
  rewrite reverse_cons, <- app_assoc. reflexivity.
Qed.

Lemma start_scanners_settles (k : nat) :
  ∀ n n' a, start_scanners k n = Some (a, n') → settles n n'.
Proof.
  induction k as [|k IH]; intros n n' a; cbn.
  { intros [= <- <-]. apply settles_refl. }
  intros H. apply bind_Some in H as (scanner & n1 & Hpop & H).
  apply bind_Some in H as (submitted & n2 & Hsub & H).
  apply submit_scanner_requeues in Hsub.
  pose proof (pop_then_requeue _ _ _ _ _ Hpop Hsub) as Hs.
  destruct submitted; [|discriminate].
  eapply settles_trans; [exact Hs|]. eapply IH; eauto.
Qed.

Lemma tokens_new_scanners (ranges : list DataSource) :
  sum_list (map token_flag (ConnectorScanner.new <$> ranges)) = 0%nat.
Proof. induction ranges as [|d l IH]; cbn; auto. Qed.

(** [_start_scan_thread] on a node without scanners: afterwards there is a
    scanner for each scan range, none is open, no scanner waits twice, and
    no flag of the token protocol was raised. *)
Lemma start_scan_thread_spec (n n' : t) (st : Status) :
  _start_scan_thread n = Some (st, n') →
  _pool n = [] → live n = [] →
  st = OK
  ∧ NoDup (live n')
  ∧ opens n' = (fun d => (open_calls d, false)) <$> _scan_ranges n
  ∧ (tokens n' ≤ tokens n)%nat
  ∧ consumer_frame n n'.
Proof.
  unfold _start_scan_thread. intros H Hpool Hlive.
  apply bind_Some in H as (u & n1 & Hc & H).
  apply create_scanners_spec in Hc
    as (Hp & Hq & Ht & Hk & Hl & Hr & Hrg & Hs & Hst).
  destruct (chunk_size n1 =? 0); [discriminate|].
  cbv zeta in H. destruct (negb _); [discriminate|].
  apply bind_Some in H as (u1 & n2 & Hf & H).
  apply bind_Some in H as (u2 & n3 & Hss & H).
  injection H as <- <-.
  apply fill_chunk_pool_settles in Hf. apply start_scanners_settles in Hss.
  pose proof (settles_trans _ _ _ Hf Hss)
    as ((Hl' & Hr' & Hst' & Hrg' & Hsticky) & Ht' & Hlv' & Ho').
  cbn in Hl', Hr', Hst', Hrg', Hsticky, Ht', Hlv', Ho'.
  unfold live in Hlive. apply app_eq_nil in Hlive as [Hpend Htasks].
  split; [reflexivity|]. split; [|split; [|split]].
  - eapply NoDup_of_submseteq; [exact Hlv'|].
    unfold live. cbn. rewrite Hq, Hpend, Hk, Htasks, Hpool. cbn.
    rewrite !app_nil_r, reverse_involutive. apply NoDup_seq.
  - rewrite Ho'. unfold opens. cbn. rewrite Hp, Hpool. cbn.
    rewrite <- list_fmap_compose. reflexivity.
  - etrans; [exact Ht'|]. unfold tokens. cbn.
    rewrite Hp, Ht, Hpool. cbn. rewrite tokens_new_scanners. lia.
  - unfold consumer_frame. rewrite Hl', Hr', Hst', Hrg'.
    repeat split; try assumption. rewrite <- Hs. exact Hsticky.
Qed.

(** *** The consumer and the closing of the node *)

Lemma scanners_inv_same (n n' : t) :
  scanners_inv n →
  opens n' = opens n → live n' = live n → tokens n' = tokens n →
  _scan_ranges n' = _scan_ranges n →
  (_start n' = false → _start n = false) →
  scanners_inv n'.
Proof.
  intros (Hnd & Hopen & Hstart & Hranges & Htok) Ho Hl Ht Hrg Hst.
  split; [rewrite Hl; exact Hnd|].
  split; [rewrite Ho, Hl; exact Hopen|].
  split; [|split; [rewrite Hrg; exact Hranges|lia]].
  intros Hs. destruct (Hstart (Hst Hs)) as [Hp Hlive].
  split; [|congruence].
  unfold opens in Ho. rewrite Hp in Ho. eapply fmap_nil_inv; eauto.
Qed.

Lemma start_scan_thread_frame (n n' : t) (st : Status) :
  _start_scan_thread n = Some (st, n') → st = OK ∧ consumer_frame n n'.
Proof.
  unfold _start_scan_thread. intros Hs.
  apply bind_Some in Hs as (u0 & m1 & Hc & Hs).
  apply create_scanners_spec in Hc
    as (Hp & Hq & Ht & Hk & Hl & Hr & Hrg & Hss & Hst).
  destruct (chunk_size m1 =? 0); [discriminate|].
  cbv zeta in Hs. destruct (negb _); [discriminate|].
  apply bind_Some in Hs as (u1 & m2 & Hf & Hs).
  apply bind_Some in Hs as (u3 & m3 & Hss' & Hs).
  injection Hs as <- <-.
  apply fill_chunk_pool_settles in Hf.
  apply start_scanners_settles in Hss'.
  destruct (settles_trans _ _ _ Hf Hss')
    as ((Hl' & Hr' & Hst' & Hrg' & Hsticky) & _).
  cbn in Hl', Hr', Hst', Hrg', Hsticky.
  split; [reflexivity|]. unfold consumer_frame.
  rewrite Hl', Hr', Hst', Hrg'. repeat split; try assumption.
  rewrite <- Hss. exact Hsticky.
Qed.

Lemma get_next_start_spec (n n' : t) (started : Status) :
  get_next_start n = Some (started, n') →
  started = OK
  ∧ _limit n' = _limit n ∧ _num_rows_returned n' = _num_rows_returned n
  ∧ _scan_ranges n' = _scan_ranges n
  ∧ (ok (_status n) = false → ok (_status n') = false)
  ∧ (scanners_inv n → scanners_inv n').
Proof.
  unfold get_next_start.
  destruct (_start n) eqn:Estart; cbn.
  { intros [= <- <-]. auto 10. }
  destruct (ok (_status n)) eqn:Eok; cbn.
  2:{ intros [= <- <-]. cbn. do 4 (split; [reflexivity|]).
      split; [intros _; exact Eok|].
      intros Hinv. eapply scanners_inv_same; eauto. }
  intros H.
  apply bind_Some in H as (st & n1 & Hs & H).
  apply bind_Some in H as (u & n2 & Hu & H).
  injection H as <- <-.
  apply update_status_settles in Hu.
  destruct Hu as ((Hl2 & Hr2 & Hst2 & Hrg2 & Hsticky2) & Ht2 & Hlv2 & Ho2).
  cbn in Hlv2, Ho2.
  destruct (start_scan_thread_frame n n1 st Hs) as [Hst0 Hcf].
  destruct Hcf as (Hl1 & Hr1 & Hst1 & Hrg1 & Hsticky1).
  split; [exact Hst0|]. cbn.
  split; [congruence|]. split; [congruence|]. split; [congruence|].
  split; [discriminate|].
  intros (Hnd & Hopen & Hstart & Hranges & Htok).
  destruct (Hstart Estart) as [Hpool Hlive].
  destruct (start_scan_thread_spec n n1 st Hs Hpool Hlive)
    as (_ & Hnd1 & Ho1 & Ht1 & _).
  split; [|split; [|split; [|split]]].
  - eapply NoDup_of_submseteq; [|exact Hnd1]. exact Hlv2.
  - intros sc c b Hsc.
    change (opens (set_start true n2)) with (opens n2) in Hsc.
    rewrite Ho2, Ho1, list_lookup_fmap in Hsc.
    destruct (_scan_ranges n !! sc) as [d|] eqn:Ed; [|discriminate].
    injection Hsc as <- <-.
    assert (open_calls d = 0%nat) as ->.
    { eapply (proj1 (Forall_lookup _ _) Hranges); eauto. }
    split; [lia|discriminate].
  - cbn. discriminate.
  - cbn. rewrite Hrg2, Hrg1. exact Hranges.
  - change (tokens (set_start true n2)) with (tokens n2). lia.
Qed.

Lemma get_next_schedule_spec (n n' : t) (r : option Result) :
  get_next_schedule n = Some (r, n') →
  settles n n'
  ∧ (ok (_status n) = false → ∃ res, r = Some res)
  ∧ (∀ res, r = Some res → chunk res = None)
  ∧ (r = None → ok (_status n) = true).
Proof.
  unfold get_next_schedule. intros H.
  apply bind_Some in H as (st & n0 & Hg & H).
  apply get_status_settles in Hg as (_ & -> & ->).
  destruct (ok (_status n)) eqn:Eok; cbn in H.
  - assert (Hr : settles n n' ∧ r = None).
    { destruct (_ && _).
      - apply bind_Some in H as (scanner & n1 & Hpop & H).
        apply bind_Some in H as (u & n2 & Hsub & H).
        injection H as <- <-. apply submit_scanner_requeues in Hsub.
        split; [|reflexivity]. eapply pop_then_requeue; eauto.
      - injection H as <- <-. split; [apply settles_refl|reflexivity]. }
    destruct Hr as [Hs ->]. split; [exact Hs|].
    split; [discriminate|]. split; [discriminate|]. auto.
  - injection H as <- <-. split; [apply settles_refl|].
    split; [eauto|]. split; [|discriminate].
    intros res [= <-]. reflexivity.
Qed.

Lemma get_next_begin_spec (n n' : t) (r : option Result) :
  get_next_begin n = Some (r, n') →
  _limit n' = _limit n ∧ _num_rows_returned n' = _num_rows_returned n
  ∧ (ok (_status n) = false → ok (_status n') = false ∧ ∃ res, r = Some res)
  ∧ (∀ res, r = Some res → chunk res = None)
  ∧ (scanners_inv n → scanners_inv n').
Proof.
  unfold get_next_begin. intros H.
  apply bind_Some in H as (started & n1 & Hs & H).
  apply get_next_start_spec in Hs as (-> & Hl & Hr & Hrg & Hsticky & Hinv).
  cbn in H.
  apply get_next_schedule_spec in H
    as (((Hl' & Hr' & Hst' & Hrg' & Hsticky') & Hsc) & Hret & Hchunk & _).
  split; [congruence|]. split; [congruence|].
  split; [|split; [exact Hchunk|]].
  - intros Hs. split; auto.
  - intros Hi. eapply scanners_inv_settles; [exact (Hinv Hi)|].
    split; [unfold consumer_frame; auto|exact Hsc].
Qed.

(** What the second half of [get_next] does: nothing to the scanners; with
    a chunk, the counter of returned rows grows by the rows that the chunk
    has after the runtime filters, and when that reaches the limit the chunk
    is cut down by the excess, [_update_status(EndOfFile)] is applied and the
    queue is shut down. *)
Lemma get_next_end_spec (n n' : t) (r : Result) :
  get_next_end n = Some (r, n') →
  _limit n' = _limit n ∧ _scan_ranges n' = _scan_ranges n
  ∧ _start n' = _start n
  ∧ _pool n' = _pool n ∧ _pending_token n' = _pending_token n
  ∧ _pending_scanners n' = _pending_scanners n
  ∧ thread_pool n' = thread_pool n
  ∧ (ok (_status n) = false → ok (_status n') = false)
  ∧ match chunk r with
    | None => _num_rows_returned n' = _num_rows_returned n
    | Some c =>
        ∃ rows : N,
          _num_rows_returned n' = _num_rows_returned n + Z.of_N rows
          ∧ if negb (_limit n =? -1) && (_limit n <=? _num_rows_returned n')
            then
              num_rows c
              = Z.to_N (to_size_t
                          (Z.of_N rows - (_num_rows_returned n' - _limit n)))
              ∧ ok (_status n') = false
              ∧ (ok (_status n) = true → _status n' = EndOfFile)
              ∧ is_shutdown (_result_chunks n') = true
            else num_rows c = rows
    end.
Proof.
  unfold get_next_end.
  destruct (queue_blocking_get (_result_chunks n)) as [[[c|] q]|];
    [| |discriminate].
  - unfold bind, _fill_chunk_pool. cbn -[to_size_t].
    set (n1 := set_chunk_pool _ _).
    set (c1 := eval_join_runtime_filters n c).
    unfold reached_limit. cbn -[to_size_t].
    destruct (negb (_limit n =? -1)
              && (_limit n <=? _num_rows_returned n + Z.of_N (num_rows c1)))
      eqn:Er.
    + unfold _update_status, result_chunks_shutdown. cbn -[to_size_t].
      intros [= <- <-]. cbn -[to_size_t].
      destruct (ok (_status n)) eqn:Eok; cbn -[to_size_t];
        (do 7 (split; [reflexivity|])); (split; [auto|]);
        exists (num_rows c1); (split; [reflexivity|]); rewrite Er;
        (split; [reflexivity|]); rewrite ?Eok;
        (split; [reflexivity|]); (split; [auto; discriminate|reflexivity]).
    + intros [= <- <-]. cbn -[to_size_t].
      do 7 (split; [reflexivity|]). split; [auto|].
      exists (num_rows c1). split; [reflexivity|]. rewrite Er. reflexivity.
  - unfold bind, _update_status, _get_status. cbn.
    intros [= <- <-]. cbn.
    destruct (ok (_status n)) eqn:Eok; cbn;
      (do 7 (split; [reflexivity|])); (split; [auto|]); reflexivity.
Qed.

Lemma close_begin_settles (n n' : t) a :
  close_begin n = Some (a, n') → settles n n'.
Proof.
  unfold close_begin. destruct (_closed n).
  { intros [= <- <-]. apply settles_refl. }
  intros H.
  apply bind_Some in H as (u1 & n1 & H1 & H).
  apply bind_Some in H as (u2 & n2 & H2 & H).
  injection H as <- <-.
  apply update_status_settles in H1.
  apply result_chunks_shutdown_settles in H2.
  eapply settles_trans; [|exact H2].
  eapply settles_trans; [|exact H1]. frame_same.
Qed.

Lemma close_end_settles (n n' : t) a :
  close_end n = Some (a, n') → settles n n'.
Proof.
  unfold close_end. destruct (0 <? _running_threads n); [discriminate|].
  intros H. apply bind_Some in H as (u1 & n1 & H1 & H).
  injection H as <- <-. eapply close_pending_scanners_settles; eauto.
Qed.

Lemma consumer_frame_interference (n n' : t) :
  consumer_frame n n' → interference n n'.
Proof. intros (? & ? & _ & _ & ?). split; [|split]; assumption. Qed.

(** Every step of the node keeps the invariant on the scanners. *)
Lemma step_scanners_inv (n n' : t) :
  scanners_inv n → step n n' → scanners_inv n'.
Proof.
  intros Hinv Hstep.
  destruct Hstep as [n r n' H|n r n' H|n i task n' Hi H|n r n' H|n r n' H
                    |n script].
  - apply get_next_begin_spec in H as (_ & _ & _ & _ & H). auto.
  - apply get_next_end_spec in H
      as (Hl & Hrg & Hst & Hp & Ht & Hq & Hk & _).
    eapply scanners_inv_same; [exact Hinv|..].
    + unfold opens. rewrite Hp. reflexivity.
    + unfold live. rewrite Hq, Hk. reflexivity.
    + unfold tokens. rewrite Hp, Ht. reflexivity.
    + exact Hrg.
    + congruence.
  - eapply scanners_inv_worker; eauto.
  - eapply scanners_inv_settles; [exact Hinv|].
    eapply close_begin_settles; eauto.
  - eapply scanners_inv_settles; [exact Hinv|].
    eapply close_end_settles; eauto.
  - eapply scanners_inv_same; [exact Hinv|reflexivity..|auto].
Qed.

Lemma initial_scanners_inv (n : t) : initial n → scanners_inv n.
Proof.
  intros (Hranges & Hpool & _ & _ & _ & _ & _ & _ & _ & Hpend & _ & _ & _
          & Htasks).
  assert (Hlive : live n = []) by (unfold live; rewrite Hpend, Htasks; auto).
  split; [rewrite Hlive; apply NoDup_nil_2|].
  split; [|split; [auto|split; [exact Hranges|]]].
  - intros sc c b H. unfold opens in H. rewrite Hpool in H.
    cbn in H. rewrite lookup_nil in H. discriminate.
  - unfold tokens. rewrite Hpool. cbn.
    destruct (_pending_token n); cbn; lia.
Qed.

Lemma reachable_scanners_inv (n : t) : reachable n → scanners_inv n.
Proof.
  induction 1 as [n Hinit|n n' _ IH Hstep].
  - apply initial_scanners_inv. exact Hinit.
  - eapply step_scanners_inv; eauto.
Qed.

(** The steps of the node that are not the consumer's are interference
    for the consumer. *)
Lemma step_interference (n n' : t) :
  scanners_inv n →
  (∃ i task, tasks (thread_pool n) !! i = Some task
             ∧ _scanner_thread (work_function task) (take_task i n)
               = Some (tt, n'))
  ∨ (∃ r, close_begin n = Some (r, n'))
  ∨ (∃ r, close_end n = Some (r, n')) →
  interference n n'.
Proof.
  intros Hinv [(i & task & Hi & H)|[[r H]|[r H]]].
  - apply consumer_frame_interference.
    eapply scanners_inv_worker; eauto.
  - apply consumer_frame_interference.
    apply close_begin_settles in H as [H _]. exact H.
  - apply consumer_frame_interference.
    apply close_end_settles in H as [H _]. exact H.
Qed.

(** ** The limit of the node *)






(** ** Sample runs of the node *)

Lemma node0_initial : initial node0.
Proof. unfold initial. cbn. repeat split; repeat constructor. Qed.

Lemma node2_reachable : reachable node2.
Proof.
  apply (reachable_step node1 node2).
  - apply (reachable_step node0 node1).
    + apply reachable_initial, node0_initial.
    + apply (step_get_next_begin node0 None node1). vm_compute. reflexivity.
  - apply (step_worker node1 0 {| work_function := 0; priority := 20 |} node2).
    + vm_compute. reflexivity.
    + vm_compute. reflexivity.
Qed.

Lemma token_held_reachable : PendingToken.reachable token_held.
Proof.
  pose (s0 := {| PendingToken.slot := true; PendingToken.threads := [] |}).
  pose (idle := {| PendingToken.flag := false;
                   PendingToken.at_pc := PendingToken.Idle |}).
  pose (s1 := {| PendingToken.slot := true; PendingToken.threads := [idle] |}).
  pose (swapping := {| PendingToken.flag := false;
                       PendingToken.at_pc := PendingToken.Swapping |}).
  pose (s2 := {| PendingToken.slot := false;
                 PendingToken.threads := [swapping] |}).
  apply (PendingToken.reachable_step s2).
  - apply (PendingToken.reachable_step s1).
    + apply (PendingToken.reachable_step s0).
      * apply PendingToken.reachable_initial. reflexivity.
      * apply (PendingToken.step_new s0).
    + apply (PendingToken.step_cas_success s1 0 idle); reflexivity.
  - apply (PendingToken.step_swap_store s2 0 swapping); reflexivity.
Qed.


Lemma submit_scanner_counters_witness :
  _pool node_busy !! 0%nat = Some (ConnectorScanner.new three_chunks)
  ∧ is_int32 (_running_threads node_busy)
  ∧ is_int32 (_scanner_submit_count node_busy)
  ∧ ∃ n', _submit_scanner 0 false node_busy = Some (false, n')
          ∧ _running_threads n' = 1
          ∧ _scanner_submit_count n' = 1
          ∧ tasks (thread_pool n') = tasks (thread_pool node_busy)
          ∧ submit_actions 0 false 5 AtFetchAddSubmitCount node_busy
            = Some (Returned false, n').
Proof.
  assert (Hs : _pool node_busy !! 0%nat
               = Some (ConnectorScanner.new three_chunks)) by reflexivity.
  assert (Hrun : is_int32 (_running_threads node_busy))
    by (unfold is_int32; cbn; lia).
  assert (Hcnt : is_int32 (_scanner_submit_count node_busy))
    by (unfold is_int32; cbn; lia).
  repeat (split; [assumption|]).
  destruct (submit_scanner_counters node_busy 0 _ false Hs Hrun Hcnt)
    as (accepted & p & r & n' & Ho & Hsub & Hr & _ & _ & _ & _ & Hundo
        & _ & _ & Hfive).
  vm_compute in Ho. injection Ho as <- <-.
  cbn in Hr. subst r.
  destruct (Hundo eq_refl) as (_ & _ & Hrun' & Hcnt' & Htasks).
  exists n'. split; [exact Hsub|]. split; [exact Hrun'|].
  split; [exact Hcnt'|]. split; [exact Htasks|exact Hfive].
Defined.


(** ** The pending token *)

Lemma sum_list_two {A} (f : A → nat) (l : list A) (i j : nat) (x y : A) :
  l !! i = Some x → l !! j = Some y → i ≠ j →
  (f x + f y ≤ sum_list (map f l))%nat.
Proof.
  revert i j. induction l as [|a l IH]; intros i j Hi Hj Hne.
  - rewrite lookup_nil in Hi. discriminate.
  - destruct i as [|i], j as [|j]; simpl in *.
    + congruence.
    + injection Hi as ->.
      pose proof (sum_list_lookup_le f l j y Hj). lia.
    + injection Hj as ->.
      pose proof (sum_list_lookup_le f l i x Hi). lia.
    + assert (i ≠ j) by congruence.
      pose proof (IH i j Hi Hj). lia.
Qed.

(** C7.  In every reachable state of the node the slot of the node and the
    flags of its scanners hold at most one [true] between them, so at most
    one scanner holds the pending token; the same bound holds in every
    state that the atomic operations of the two methods reach under any
    interleaving of the threads of the scanners.
    [acquire_pending_token] succeeds exactly when the slot holds [true],
    and then swaps the slot with the flag of the scanner; on [false] it
    changes nothing.  [release_pending_token] gives the token back to the
    slot exactly when the scanner holds it, and changes nothing
    otherwise. *)
Theorem pending_token_single_holder (n : t) (p : PendingToken.state) :
  reachable n → PendingToken.reachable p →
  (tokens n ≤ 1)%nat
  ∧ (∀ i j si sj,
       _pool n !! i = Some si → _pool n !! j = Some sj →
       ConnectorScanner._pending_token si = true →
       ConnectorScanner._pending_token sj = true → i = j)
  ∧ (PendingToken.holders p ≤ 1)%nat
  ∧ (∀ s, ConnectorScanner.acquire_pending_token true s
          = (true, ConnectorScanner._pending_token s,
             ConnectorScanner.set_pending_token true s))
  ∧ (∀ s, ConnectorScanner.acquire_pending_token false s = (false, false, s))
  ∧ (∀ token s, ConnectorScanner._pending_token s = true →
       ConnectorScanner.release_pending_token token s
       = (true, true, ConnectorScanner.set_pending_token false s))
  ∧ (∀ token s, ConnectorScanner._pending_token s = false →
       ConnectorScanner.release_pending_token token s = (false, token, s)).
Proof.
  intros Hn Hp.
  apply reachable_scanners_inv in Hn as (_ & _ & _ & _ & Htok).
  split; [exact Htok|]. split.
  { intros i j si sj Hi Hj Hsi Hsj.
    destruct (decide (i = j)) as [|Hne]; [assumption|exfalso].
    pose proof (sum_list_two token_flag (_pool n) i j si sj Hi Hj Hne) as Hsum.
    unfold tokens in Htok. unfold token_flag in Hsum at 1 2.
    rewrite Hsi, Hsj in Hsum. cbn in Hsum. lia. }
  split.
  { pose proof (holders_le_budget p).
    pose proof (token_reachable_budget p Hp). lia. }
  split; [reflexivity|]. split; [intros []; reflexivity|].
  split; intros token s Hs;
    unfold ConnectorScanner.release_pending_token; rewrite Hs; reflexivity.
Qed.

Lemma pending_token_single_holder_witness :
  reachable node2 ∧ PendingToken.reachable token_held
  ∧ (tokens node2 ≤ 1)%nat ∧ (PendingToken.holders token_held ≤ 1)%nat.
Proof.
  destruct (pending_token_single_holder node2 token_held
              node2_reachable token_held_reachable)
    as (Htok & _ & Hhold & _).
  split; [exact node2_reachable|]. split; [exact token_held_reachable|].
  split; [exact Htok|exact Hhold].
Defined.

(** ** Opening a scanner *)

(** C9.  [ConnectorScanner::open] on a scanner that is open returns OK and
    leaves the scanner, its data source included, as it is; on a scanner
    that is not open it calls the data source once, and the scanner is open
    afterwards exactly when that call succeeded.  In every reachable state
    of the node the data source of every scanner has been opened at most
    once. *)
Theorem scanner_open_once (n : t) (scanner : nat) (s : ConnectorScanner.t) :
  reachable n → _pool n !! scanner = Some s →
  (open_calls (ConnectorScanner._data_source s) ≤ 1)%nat
  ∧ (∀ s0, ConnectorScanner._is_open s0 = true →
       ConnectorScanner.open s0 = (OK, s0))
  ∧ (∀ s0 st s1,
       ConnectorScanner._is_open s0 = false →
       ConnectorScanner.open s0 = (st, s1) →
       st = (ds_open (ConnectorScanner._data_source s0)).1
       ∧ open_calls (ConnectorScanner._data_source s1)
         = S (open_calls (ConnectorScanner._data_source s0))
       ∧ ConnectorScanner._is_open s1 = ok st).
Proof.
  intros Hn Hs.
  apply reachable_scanners_inv in Hn as (_ & Hopen & _).
  split.
  { apply (Hopen scanner _ (ConnectorScanner._is_open s)).
    unfold opens. rewrite list_lookup_fmap, Hs. reflexivity. }
  split.
  { intros s0 H0. unfold ConnectorScanner.open. rewrite H0. reflexivity. }
  intros s0 st s1 H0 Ho.
  unfold ConnectorScanner.open in Ho. rewrite H0 in Ho.
  destruct (ds_open (ConnectorScanner._data_source s0)) as [st0 d] eqn:Ed.
  unfold ds_open in Ed. injection Ed as <- <-.
  destruct (hd OK (open_script (ConnectorScanner._data_source s0)));
    cbn in Ho; injection Ho as <- <-; cbn; auto.
Qed.

Lemma scanner_open_once_witness :
  ∃ s, reachable node2 ∧ _pool node2 !! 0%nat = Some s
       ∧ open_calls (ConnectorScanner._data_source s) = 1%nat
       ∧ (open_calls (ConnectorScanner._data_source s) ≤ 1)%nat.
Proof.
  eexists. split; [exact node2_reachable|].
  split; [vm_compute; reflexivity|]. split; [reflexivity|].
  apply (scanner_open_once node2 0 _ node2_reachable). reflexivity.
Defined.

(** ** The loop of a worker ends *)

(** Every turn of the loop of [_scanner_thread] that goes on to the next
    has taken a chunk out of the chunk pool, so one turn more than the pool
    has chunks is enough. *)
Lemma produce_loop_returns (fuel scanner : nat) (threshold : Z) :
  ∀ n, (scanner < length (_pool n))%nat →
       (length (_chunk_pool n) < fuel)%nat →
       is_Some (produce_loop fuel scanner threshold n).
Proof.
  induction fuel as [|fuel IH]; intros n Hs Hf; [lia|].
  apply lookup_lt_is_Some_2 in Hs as Hl. destruct Hl as [s Hl].
  cbn [produce_loop]. unfold bind at 1. cbn [_get_status].
  destruct (negb (ok (_status n))); [eexists; reflexivity|].
  destruct (_chunk_pool n) as [|c pool] eqn:Ep.
  - unfold bind, scanner_call, release_pending_token, _push_pending_scanner,
      ret.
    rewrite Hl. cbn. rewrite list_lookup_insert_eq by exact Hs.
    destruct (ConnectorScanner.release_pending_token _ _) as [[? ?] ?].
    eexists. reflexivity.
  - unfold bind at 1. unfold scanner_call at 1. cbn. rewrite Hl.
    destruct (ConnectorScanner.get_next s) as [[st ch] s'].
    destruct (negb (ok st)); [eexists; reflexivity|].
    cbn.
    destruct (queue_put ch (_result_chunks n)) as [put q].
    destruct (negb put); [eexists; reflexivity|].
    unfold bind, scanner_read, set_result_chunks, set_pool, set_chunk_pool.
    cbn. repeat (rewrite list_lookup_insert_eq by exact Hs; cbn).
    destruct (_ && _); [eexists; reflexivity|].
    destruct (_ <=? _); [eexists; reflexivity|].
    apply IH; cbn.
    + rewrite length_insert. exact Hs.
    + cbn in Hf. lia.
Qed.

(** * Further properties of the tablet manager *)

Local Open Scope Z_scope.

(** ** Compaction logs *)

Lemma find_if_le (id : Z) (rs : list RowsetMetadata) :
  (find_if id rs ≤ length rs)%nat.
Proof. induction rs as [|r rs IH]; cbn; [lia|]. destruct (_ =? _); lia. Qed.

Lemma find_if_lookup (id : Z) (rs : list RowsetMetadata) :
  (find_if id rs < length rs)%nat →
  ∃ r, rs !! find_if id rs = Some r ∧ rowset_id r = id.
Proof.
  induction rs as [|r rs IH]; cbn; [lia|].
  destruct (rowset_id r =? id) eqn:E.
  - intros _. exists r. split; [reflexivity|]. apply Z.eqb_eq. exact E.
  - intros H. apply IH. lia.
Qed.

Lemma find_if_end (id : Z) (rs : list RowsetMetadata) :
  find_if id rs = length rs ↔ ∀ r, r ∈ rs → rowset_id r ≠ id.
Proof.
  induction rs as [|r rs IH]; cbn.
  - split; [|reflexivity]. intros _ r Hr. apply elem_of_nil in Hr. contradiction.
  - destruct (rowset_id r =? id) eqn:E.
    + split; [discriminate|]. intros H. exfalso.
      apply (H r); [apply elem_of_cons; auto|]. apply Z.eqb_eq. exact E.
    + split.
      * intros [= H] x Hx. apply elem_of_cons in Hx as [->|Hx].
        -- apply Z.eqb_neq. exact E.
        -- apply IH; assumption.
      * intros H. f_equal. apply IH. intros x Hx. apply H.
        apply elem_of_cons. auto.
Qed.

(** [find_if] from a position finds its element at that very position
    exactly when the rowset there has the id. *)
Lemma find_if_from_here (from : nat) (id : Z) (rs : list RowsetMetadata) :
  (from ≤ length rs)%nat →
  ((find_if_from from id rs =? length rs)%nat = false
   ∧ (find_if_from from id rs =? from)%nat = true)
  ↔ ∃ r, rs !! from = Some r ∧ rowset_id r = id.
Proof.
  intros Hle. unfold find_if_from.
  destruct (drop from rs) as [|r rest] eqn:Ed.
  - assert (Hlen : (length rs ≤ from)%nat).
    { apply (f_equal length) in Ed. rewrite length_drop in Ed. cbn in Ed. lia. }
    cbn. split.
    + intros [H _]. apply Nat.eqb_neq in H. lia.
    + intros (r & Hr & _). apply lookup_lt_Some in Hr. lia.
  - assert (Hr : rs !! from = Some r).
    { rewrite <- (Nat.add_0_r from), <- lookup_drop, Ed. reflexivity. }
    assert (Hlt : (from < length rs)%nat)
      by (apply lookup_lt_Some in Hr; exact Hr).
    cbn. destruct (rowset_id r =? id) eqn:E.
    + split.
      * intros _. exists r. split; [exact Hr|]. apply Z.eqb_eq. exact E.
      * intros _. split; [apply Nat.eqb_neq|apply Nat.eqb_eq]; lia.
    + split.
      * intros [_ H]. apply Nat.eqb_eq in H. lia.
      * intros (r' & Hr' & Hid). rewrite Hr in Hr'. injection Hr' as <-.
        apply Z.eqb_neq in E. contradiction.
Qed.

(** The safety loop runs to its end exactly when each of its inputs is the
    id of the rowset that follows the position of the input before. *)
Lemma adjacency_loop_Value (inputs : list Z) (rs : list RowsetMetadata)
    (iters : nat) :
  ∀ i pre q, (pre < length rs)%nat →
    adjacency_loop inputs rs iters i pre = Some (Value q)
    ↔ q = (pre + iters)%nat ∧ (pre + iters < length rs)%nat
      ∧ ∀ k, (k < iters)%nat →
          ∃ r, inputs !! (i + k)%nat = Some (rowset_id r)
               ∧ rs !! (S pre + k)%nat = Some r.
Proof.
  induction iters as [|iters IH]; intros i pre q Hpre; cbn [adjacency_loop].
  - split.
    + intros [= <-]. repeat split; [lia..|]. intros k Hk. lia.
    + intros (-> & _ & _). f_equal. f_equal. lia.
  - destruct (inputs !! i) as [id|] eqn:Ei.
    2:{ split; [discriminate|]. intros (_ & _ & H).
        destruct (H 0%nat) as (r & Hr & _); [lia|].
        rewrite Nat.add_0_r, Ei in Hr. discriminate. }
    pose proof (find_if_from_here (S pre) id rs) as Hhere.
    cbn zeta.
    destruct (find_if_from (S pre) id rs =? length rs)%nat eqn:E1.
    { split; [discriminate|]. intros (_ & Hlt & H).
      destruct (H 0%nat) as (r & Hr & Hs); [lia|].
      rewrite Nat.add_0_r, Ei in Hr. injection Hr as ->.
      rewrite Nat.add_0_r in Hs.
      destruct Hhere as [_ Hhere]; [lia|].
      destruct Hhere as [? _]; [eauto|]. discriminate. }
    destruct (find_if_from (S pre) id rs =? S pre)%nat eqn:E2; cbn [negb].
    2:{ split; [discriminate|]. intros (_ & Hlt & H).
        destruct (H 0%nat) as (r & Hr & Hs); [lia|].
        rewrite Nat.add_0_r, Ei in Hr. injection Hr as ->.
        rewrite Nat.add_0_r in Hs.
        destruct Hhere as [_ Hhere]; [lia|].
        destruct Hhere as [_ ?]; [eauto|]. discriminate. }
    destruct Hhere as [Hhere _]; [lia|].
    destruct Hhere as (r0 & Hr0 & Hid0); [auto|].
    apply Nat.eqb_eq in E2. rewrite E2.
    assert (S pre < length rs)%nat by (apply lookup_lt_Some in Hr0; exact Hr0).
    rewrite IH by assumption. split.
    + intros (-> & Hlt & H'). repeat split; [lia..|].
      intros k Hk. destruct k as [|k].
      * exists r0. rewrite !Nat.add_0_r, Ei, Hid0. auto.
      * destruct (H' k) as (r & Hr & Hs); [lia|]. exists r.
        rewrite <- Hr, <- Hs. split; f_equal; lia.
    + intros (-> & Hlt & H'). repeat split; [lia..|].
      intros k Hk. destruct (H' (S k)) as (r & Hr & Hs); [lia|]. exists r.
      rewrite <- Hr, <- Hs. split; f_equal; lia.
Qed.

Lemma adjacency_loop_Error (inputs : list Z) (rs : list RowsetMetadata)
    (iters : nat) :
  ∀ i pre st,
    adjacency_loop inputs rs iters i pre = Some (Error st) →
    st = InternalError.
Proof.
  induction iters as [|iters IH]; intros i pre st; cbn [adjacency_loop].
  - discriminate.
  - destruct (inputs !! i); [|discriminate]. cbn zeta.
    destruct (_ =? length rs)%nat; [congruence|].
    destruct (negb _); [congruence|]. apply IH.
Qed.

Lemma find_if_from_0 (id : Z) (rs : list RowsetMetadata) :
  find_if_from 0 id rs = find_if id rs.
Proof. reflexivity. Qed.

(** What an accepted compaction has gone through: its first input is the
    first rowset and the loop has walked over all the rowsets. *)
Lemma apply_compaction_log_OK_inv (op : TxnLogPB_OpCompaction)
    (md md' : TabletMetadata) :
  input_rowsets op ≠ [] →
  apply_compaction_log op md = Some (OK, md') →
  rowsets md ≠ []
  ∧ (∀ k, (k < length (rowsets md))%nat →
       ∃ r, input_rowsets op !! k = Some (rowset_id r)
            ∧ rowsets md !! k = Some r)
  ∧ md' = match output_rowset op with
          | Some out =>
              if 0 <? Lake.num_rows out then
                let output := set_id (next_rowset_id md) out in
                let metadata1 :=
                  set_rowsets (<[0%nat := output]> (rowsets md)) md in
                let metadata2 :=
                  set_next_rowset_id
                    (to_uint32
                       (next_rowset_id metadata1 + segments_size output))
                    metadata1 in
                set_rowsets
                  (erase 1 (length (rowsets md)) (rowsets metadata2)) metadata2
              else set_rowsets (erase 0 (length (rowsets md)) (rowsets md)) md
          | None => set_rowsets (erase 0 (length (rowsets md)) (rowsets md)) md
          end.
Proof.
  intros Hne H. unfold apply_compaction_log in H.
  destruct (input_rowsets op) as [|id0 tl] eqn:Ei; [contradiction|].
  rewrite find_if_from_0 in H.
  destruct (find_if id0 (rowsets md) =? length (rowsets md))%nat eqn:E0;
    [discriminate|].
  apply Nat.eqb_neq in E0. pose proof (find_if_le id0 (rowsets md)) as Hle.
  destruct (adjacency_loop _ _ _ _ _) as [[q|st]|] eqn:El; [| |discriminate].
  2:{ apply adjacency_loop_Error in El. congruence. }
  apply adjacency_loop_Value in El as (-> & Hlt & Hk); [|lia].
  assert (Hp : find_if id0 (rowsets md) = 0%nat) by lia.
  destruct (find_if_lookup id0 (rowsets md)) as (r0 & Hr0 & Hid0); [lia|].
  rewrite Hp in *.
  split; [intros Hnil; rewrite Hnil in Hr0; discriminate|]. split.
  - intros k Hklt. destruct k as [|k].
    + exists r0. rewrite Hid0. auto.
    + destruct (Hk k) as (r & Hr & Hs); [lia|]. exists r. auto.
  - replace (S (0 + (length (rowsets md) - 1)))%nat
      with (length (rowsets md)) in H by lia.
    destruct (output_rowset op) as [out|];
      [destruct (0 <? Lake.num_rows out)|]; congruence.
Qed.

Lemma erase_all (rs : list RowsetMetadata) : erase 0 (length rs) rs = [].
Proof. unfold erase. rewrite take_0, drop_all. reflexivity. Qed.

Lemma erase_all_but_first (out : RowsetMetadata) (rs : list RowsetMetadata) :
  rs ≠ [] → erase 1 (length rs) (<[0%nat := out]> rs) = [out].
Proof.
  intros Hne. destruct rs as [|r rs]; [contradiction|].
  unfold erase. cbn. rewrite take_0, drop_all. reflexivity.
Qed.

(** A log whose inputs start with the ids of all the rowsets, in their
    order, is accepted. *)
Lemma apply_compaction_log_accepts_all (op : TxnLogPB_OpCompaction)
    (md : TabletMetadata) (rest : list Z) :
  rowsets md ≠ [] →
  input_rowsets op = (rowset_id <$> rowsets md) ++ rest →
  ∃ md', apply_compaction_log op md = Some (OK, md').
Proof.
  intros Hrs Hin.
  unfold apply_compaction_log. rewrite Hin.
  destruct (rowsets md) as [|r0 rs] eqn:Er; [contradiction|].
  cbn [fmap list_fmap app]. rewrite find_if_from_0.
  cbn [find_if]. rewrite Z.eqb_refl. cbn [Nat.eqb length].
  assert (El : adjacency_loop (rowset_id r0 :: (rowset_id <$> rs) ++ rest)
                 (r0 :: rs) (length (r0 :: rs) - 1) 1 0
               = Some (Value (0 + (length (r0 :: rs) - 1))%nat)).
  { apply adjacency_loop_Value; [cbn; lia|].
    split; [reflexivity|]. split; [cbn; lia|].
    intros k Hk. cbn in Hk.
    destruct (lookup_lt_is_Some_2 rs k) as [r Hr]; [lia|].
    exists r. split; [|exact Hr].
    change (((rowset_id <$> rs) ++ rest) !! k = Some (rowset_id r)).
    rewrite lookup_app_l by (rewrite length_fmap; lia).
    rewrite list_lookup_fmap, Hr. reflexivity. }
  cbn [length] in El. rewrite El.
  destruct (output_rowset op) as [out|];
    [destruct (0 <? Lake.num_rows out)|]; eexists; reflexivity.
Qed.

Lemma segments_size_nonneg (r : RowsetMetadata) : 0 ≤ segments_size r.
Proof. unfold segments_size. lia. Qed.

(** X1.  With the loop of the safety check bounded by the number of rowsets
    of the metadata, [apply_compaction_log] accepts a log with inputs
    exactly when the inputs start with the ids of all the rowsets of the
    metadata, in their order, and there is at least one rowset.  An accepted
    compaction replaces all the rowsets: by the output rowset, which gets
    the id [next_rowset_id] and moves [next_rowset_id] on by its number of
    segments modulo 2^32, which is the sum itself as long as it is at most
    4294967295, when the log has an output rowset with rows, and by nothing
    otherwise.  Tablet id, version and schema stay. *)
Theorem apply_compaction_log_accepts_full_only (op : TxnLogPB_OpCompaction)
    (md : TabletMetadata) :
  input_rowsets op ≠ [] →
  ((∃ md', apply_compaction_log op md = Some (OK, md'))
   ↔ rowsets md ≠ []
     ∧ ∃ rest, input_rowsets op = (rowset_id <$> rowsets md) ++ rest)
  ∧ (∀ md', apply_compaction_log op md = Some (OK, md') →
       tablet_id md' = tablet_id md ∧ version md' = version md
       ∧ schema md' = schema md
       ∧ match output_rowset op with
         | Some out =>
             if 0 <? Lake.num_rows out then
               rowsets md' = [set_id (next_rowset_id md) out]
               ∧ next_rowset_id md'
                 = to_uint32 (next_rowset_id md + segments_size out)
               ∧ (0 ≤ next_rowset_id md →
                  next_rowset_id md + segments_size out ≤ 4294967295 →
                  next_rowset_id md'
                  = next_rowset_id md + segments_size out)
             else rowsets md' = [] ∧ next_rowset_id md' = next_rowset_id md
         | None => rowsets md' = [] ∧ next_rowset_id md' = next_rowset_id md
         end).
Proof.
  intros Hne. split; [split|].
  - intros [md' H].
    apply apply_compaction_log_OK_inv in H as (Hrs & Hk & _); [|exact Hne].
    split; [exact Hrs|].
    exists (drop (length (rowsets md)) (input_rowsets op)).
    rewrite <- (take_drop (length (rowsets md)) (input_rowsets op)) at 1.
    f_equal. apply list_eq. intros k.
    rewrite list_lookup_fmap.
    destruct (decide (k < length (rowsets md))%nat) as [Hlt|Hge].
    + rewrite lookup_take_lt by exact Hlt.
      destruct (Hk k Hlt) as (r & -> & ->). reflexivity.
    + rewrite lookup_take_ge by lia.
      rewrite (lookup_ge_None_2 (rowsets md)) by lia. reflexivity.
  - intros (Hrs & rest & Hin).
    eapply apply_compaction_log_accepts_all; eauto.
  - intros md' H.
    apply apply_compaction_log_OK_inv in H as (Hrs & _ & ->); [|exact Hne].
    destruct (output_rowset op) as [out|];
      [destruct (0 <? Lake.num_rows out)|]; cbn -[erase to_uint32];
      rewrite ?erase_all, ?erase_all_but_first by exact Hrs; auto.
    repeat split; try reflexivity.
    intros H0 Hfit. apply to_uint32_id.
    pose proof (segments_size_nonneg out).
    change (segments_size (set_id (next_rowset_id md) out))
      with (segments_size out).
    lia.
Qed.

Lemma apply_compaction_log_rejects_cleanly_aux (op : TxnLogPB_OpCompaction)
    (md : TabletMetadata) (st : Status) (md' : TabletMetadata) :
  apply_compaction_log op md = Some (st, md') → st ≠ OK →
  st = InternalError ∧ md' = md.
Proof.
  intros H Hst. unfold apply_compaction_log in H.
  destruct (input_rowsets op) as [|id0 tl]; [congruence|].
  destruct (_ =? _)%nat; [split; congruence|].
  destruct (adjacency_loop _ _ _ _ _) as [[q|st']|] eqn:El; [| |discriminate].
  - destruct (output_rowset op) as [out|];
      [destruct (0 <? Lake.num_rows out)|]; congruence.
  - apply adjacency_loop_Error in El. split; congruence.
Qed.

(** X2.  Whenever [apply_compaction_log] rejects a log, the status is
    [InternalError] and the metadata is as it was; a first input that is
    the id of no rowset is always rejected. *)
Theorem apply_compaction_log_rejects_cleanly (op : TxnLogPB_OpCompaction)
    (md : TabletMetadata) :
  (∀ st md', apply_compaction_log op md = Some (st, md') → st ≠ OK →
     st = InternalError ∧ md' = md)
  ∧ (∀ id0 tl, input_rowsets op = id0 :: tl →
       (∀ r, r ∈ rowsets md → rowset_id r ≠ id0) →
       apply_compaction_log op md = Some (InternalError, md)).
Proof.
  split.
  - intros st md' H Hst.
    eapply apply_compaction_log_rejects_cleanly_aux; eauto.
  - intros id0 tl Hin Hmiss. unfold apply_compaction_log. rewrite Hin.
    rewrite find_if_from_0. apply find_if_end in Hmiss. rewrite Hmiss.
    rewrite Nat.eqb_refl. reflexivity.
Qed.

(** ** Ranges of rowset ids *)

Lemma write_segments_nonneg (w : TxnLogPB_OpWrite) : 0 ≤ write_segments w.
Proof.
  unfold write_segments. destruct (op_write_rowset w) as [r|]; [|lia].
  pose proof (segments_size_nonneg r). destruct (0 <? Lake.num_rows r); lia.
Qed.

Lemma compaction_segments_nonneg (c : TxnLogPB_OpCompaction) :
  0 ≤ compaction_segments c.
Proof.
  unfold compaction_segments. destruct (output_rowset c) as [r|]; [|lia].
  pose proof (segments_size_nonneg r). destruct (0 <? Lake.num_rows r); lia.
Qed.

Lemma apply_write_log_ranges (w : TxnLogPB_OpWrite) (md : TabletMetadata) :
  ranges_ok md → 0 ≤ next_rowset_id md →
  next_rowset_id md + write_segments w ≤ 4294967295 →
  ranges_ok (apply_write_log w md).2
  ∧ next_rowset_id md ≤ next_rowset_id (apply_write_log w md).2
  ∧ next_rowset_id (apply_write_log w md).2
    ≤ next_rowset_id md + write_segments w.
Proof.
  intros [Hord Hbnd] H0. unfold apply_write_log, write_segments.
  destruct (op_write_rowset w) as [r|]; [|cbn; repeat split; auto; lia].
  destruct (0 <? Lake.num_rows r); [|cbn; repeat split; auto; lia].
  intros Hfit. pose proof (segments_size_nonneg r) as Hseg.
  cbn -[to_uint32].
  change (segments_size (set_id (next_rowset_id md) r))
    with (segments_size r).
  rewrite to_uint32_id by lia.
  split; [split|lia].
  - intros i j a b Hij Ha Hb. cbn in Ha, Hb.
    assert (Hj : (j < length (rowsets md
                                ++ [set_id (next_rowset_id md) r]))%nat)
      by (apply lookup_lt_Some in Hb; exact Hb).
    rewrite length_app in Hj. cbn in Hj.
    rewrite lookup_app_l in Ha by lia.
    destruct (decide (j < length (rowsets md))%nat) as [Hlt|Hge].
    + rewrite lookup_app_l in Hb by exact Hlt. exact (Hord i j a b Hij Ha Hb).
    + rewrite lookup_app_r in Hb by lia.
      replace (j - length (rowsets md))%nat with 0%nat in Hb by lia.
      injection Hb as <-. cbn. apply Hbnd.
      eapply list_elem_of_lookup_2. exact Ha.
  - intros x Hx. cbn in Hx |- *. apply elem_of_app in Hx as [Hx|Hx].
    + apply Hbnd in Hx. lia.
    + apply list_elem_of_singleton in Hx. subst x. cbn.
      change (segments_size (set_id (next_rowset_id md) r))
        with (segments_size r).
      lia.
Qed.

Lemma apply_compaction_log_ranges (c : TxnLogPB_OpCompaction)
    (md md' : TabletMetadata) (st : Status) :
  ranges_ok md → 0 ≤ next_rowset_id md →
  next_rowset_id md + compaction_segments c ≤ 4294967295 →
  apply_compaction_log c md = Some (st, md') →
  ranges_ok md' ∧ next_rowset_id md ≤ next_rowset_id md'
  ≤ next_rowset_id md + compaction_segments c.
Proof.
  intros Hok H0 Hfit H. pose proof (compaction_segments_nonneg c) as Hcs.
  destruct (decide (st = OK)) as [->|Hst].
  2:{ destruct (apply_compaction_log_rejects_cleanly_aux c md st md' H Hst)
        as [_ ->]. split; [exact Hok|lia]. }
  destruct (input_rowsets c) as [|id0 tl] eqn:Ei.
  { unfold apply_compaction_log in H. rewrite Ei in H. injection H as <-.
    split; [exact Hok|lia]. }
  apply apply_compaction_log_OK_inv in H as (Hrs & _ & ->);
    [|rewrite Ei; discriminate].
  unfold compaction_segments in Hfit, Hcs |- *.
  destruct (output_rowset c) as [out|];
    [destruct (0 <? Lake.num_rows out)|]; cbn -[erase to_uint32];
    rewrite ?erase_all, ?erase_all_but_first by exact Hrs.
  - pose proof (segments_size_nonneg out).
    change (segments_size (set_id (next_rowset_id md) out))
      with (segments_size out).
    rewrite to_uint32_id by lia.
    split; [split|lia].
    + intros i j a b Hij Ha Hb. cbn in Ha, Hb.
      apply lookup_lt_Some in Hb. cbn in Hb. lia.
    + intros x Hx. cbn in Hx. apply list_elem_of_singleton in Hx. subst x.
      cbn.
      change (segments_size (set_id (next_rowset_id md) out))
        with (segments_size out).
      lia.
  - split; [split|lia].
    + intros i j a b _ Ha. cbn in Ha. rewrite lookup_nil in Ha. discriminate.
    + intros x Hx. cbn in Hx. apply elem_of_nil in Hx. contradiction.
  - split; [split|lia].
    + intros i j a b _ Ha. cbn in Ha. rewrite lookup_nil in Ha. discriminate.
    + intros x Hx. cbn in Hx. apply elem_of_nil in Hx. contradiction.
Qed.

Lemma new_segments_nonneg (log : TxnLog) : 0 ≤ new_segments log.
Proof.
  unfold new_segments.
  destruct (op_write log) as [w|], (op_compaction log) as [c|]; cbn;
    try pose proof (write_segments_nonneg w);
    try pose proof (compaction_segments_nonneg c); lia.
Qed.

Lemma apply_txn_log_ranges (log : TxnLog) (md md' : TabletMetadata)
    (st : Status) :
  ranges_ok md → 0 ≤ next_rowset_id md →
  next_rowset_id md + new_segments log ≤ 4294967295 →
  apply_txn_log log md = Some (st, md') →
  ranges_ok md'
  ∧ next_rowset_id md ≤ next_rowset_id md'
    ≤ next_rowset_id md + new_segments log.
Proof.
  intros Hok H0 Hfit H. rewrite apply_txn_log_unfold in H.
  unfold new_segments in Hfit |- *.
  assert (Hcn : 0 ≤ from_option compaction_segments 0 (op_compaction log)).
  { destruct (op_compaction log) as [c|]; cbn;
      [apply compaction_segments_nonneg|lia]. }
  assert (Hw : ranges_ok (after_write log md)
               ∧ next_rowset_id md ≤ next_rowset_id (after_write log md)
                 ≤ next_rowset_id md
                   + from_option write_segments 0 (op_write log)).
  { unfold after_write. destruct (op_write log) as [w|]; cbn in Hfit |- *.
    - destruct (apply_write_log_ranges w md Hok H0) as (? & ? & ?); [lia|].
      auto.
    - split; [exact Hok|lia]. }
  destruct Hw as (Hw1 & Hw2).
  destruct (compaction_part log (after_write log md)) as [[st2 md2]|] eqn:Ec;
    [|discriminate].
  assert (Hc : ranges_ok md2
               ∧ next_rowset_id (after_write log md) ≤ next_rowset_id md2
                 ≤ next_rowset_id (after_write log md)
                   + from_option compaction_segments 0 (op_compaction log)).
  { unfold compaction_part in Ec. destruct (op_compaction log) as [c|].
    - cbn in Hfit, Hcn |- *.
      eapply apply_compaction_log_ranges; eauto; lia.
    - injection Ec as <- <-. cbn. split; [exact Hw1|lia]. }
  destruct Hc as [Hc1 Hc2].
  assert (md' = md2) as ->.
  { destruct (negb (ok st2)); [congruence|].
    destruct (op_schema_change log); congruence. }
  split; [exact Hc1|lia].
Qed.

(** X3.  As long as [next_rowset_id] does not wrap around, [apply_txn_log]
    keeps the ranges of ids of the rowsets in order.  When the ranges
    follow each other in the order of the rowsets and end at or below
    [next_rowset_id], and [next_rowset_id] plus the segments that the log
    brings is at most 4294967295, the ranges do so afterwards, whatever the
    status; [next_rowset_id] does not go down; and two rowsets of which
    the earlier has a segment have different ids. *)
Theorem apply_txn_log_keeps_ranges (log : TxnLog) (md md' : TabletMetadata)
    (st : Status) :
  ranges_ok md → 0 ≤ next_rowset_id md →
  next_rowset_id md + new_segments log ≤ 4294967295 →
  apply_txn_log log md = Some (st, md') →
  ranges_ok md'
  ∧ next_rowset_id md ≤ next_rowset_id md'
  ∧ (∀ i j a b, (i < j)%nat →
       rowsets md' !! i = Some a → rowsets md' !! j = Some b →
       0 < segments_size a → rowset_id a < rowset_id b).
Proof.
  intros Hok H0 Hfit H.
  destruct (apply_txn_log_ranges log md md' st Hok H0 Hfit H) as [H1 H2].
  split; [exact H1|]. split; [lia|].
  intros i j a b Hij Ha Hb Hseg.
  pose proof (proj1 H1 i j a b Hij Ha Hb). lia.
Qed.

(** ** Objects and the metacache, whatever the file system and the cache do *)

Lemma fs_call_frame (w w' : World) (st : Status) :
  fs_call w = Some (st, w') →
  files w' = files w ∧ metacache w' = metacache w
  ∧ cache_script w' = cache_script w
  ∧ (io_script w = [] → st = OK ∧ w' = w).
Proof.
  unfold fs_call. destruct (io_script w) eqn:E; intros [= <- <-]; cbn;
    repeat split; auto; discriminate.
Qed.

Lemma evict_lookup_cases (ks : list Path) (c : gmap Path CacheValue) p :
  evict ks c !! p = None ∨ evict ks c !! p = c !! p.
Proof.
  induction ks as [|k ks IH]; cbn; [auto|].
  destruct (decide (k = p)) as [->|Hne].
  - left. apply lookup_delete_eq.
  - rewrite lookup_delete_ne by exact Hne. exact IH.
Qed.

(** The entry under the key of an insertion is afterwards the value, or
    none, or, when the cache has rejected the value, the one of before. *)
Lemma cache_insert_at (key : Path) (value : CacheValue) (w w' : World) b :
  cache_insert key value w = Some (b, w') →
  files w' = files w ∧ io_script w' = io_script w
  ∧ (metacache w' !! key = Some value ∨ metacache w' !! key = None
     ∨ (metacache w' !! key = metacache w !! key
        ∧ ∃ v rest, cache_script w = v :: rest ∧ taken v = false))
  ∧ (∀ p cv, metacache w' !! p = Some cv →
       metacache w !! p = Some cv ∨ (p = key ∧ cv = value)).
Proof.
  unfold cache_insert. destruct (cache_script w) as [|v rest] eqn:E;
    intros [= <- <-]; cbn.
  - split; [reflexivity|]. split; [reflexivity|]. split.
    + left. apply lookup_insert_eq.
    + intros p cv H. apply lookup_insert_Some in H as [[-> ->]|[_ H]]; auto.
  - split; [reflexivity|]. split; [reflexivity|]. split.
    + destruct (evict_lookup_cases (evicted v)
                  (if taken v then <[key := value]> (metacache w)
                   else metacache w) key) as [H|H]; [auto|].
      rewrite H. destruct (taken v) eqn:Et.
      * left. apply lookup_insert_eq.
      * right. right. split; [reflexivity|]. eauto.
    + intros p cv H. apply evict_lookup in H.
      destruct (taken v); [|auto].
      apply lookup_insert_Some in H as [[-> ->]|[_ H]]; auto.
Qed.

Ltac close_failure :=
  repeat split; auto; try congruence;
  try (intros; subst; cbn in *; discriminate).

Lemma put_tablet_metadata_write (md : TabletMetadata) :
  put_tablet_metadata md
  = write_object (tablet_metadata_location (tablet_id md) (version md))
      (BMetadata md) (CVMetadata md).
Proof. reflexivity. Qed.

Lemma put_txn_log_write (log : TxnLog) (t x : Z) :
  log_tablet_id log = Some t → log_txn_id log = Some x →
  put_txn_log log
  = write_object (txn_log_location t x) (BTxnLog log) (CVTxnLog log).
Proof. intros Ht Hx. unfold put_txn_log. rewrite Ht, Hx. reflexivity. Qed.

(** What writing an object does, under any answers of the file system and
    of the cache: no other object changes; no entry of the cache is new but
    the one of the object; a failure leaves the cache alone; after a
    success the object holds the data, and the cache holds the value or
    nothing for it unless it has rejected the value. *)
Lemma write_object_inv (loc : Path) (data : Blob) (value : CacheValue)
    (w w1 : World) (st : Status) :
  write_object loc data value w = Some (st, w1) →
  (∀ p, p ≠ loc → files w1 !! p = files w !! p)
  ∧ (∀ p cv, metacache w1 !! p = Some cv →
       metacache w !! p = Some cv ∨ (p = loc ∧ cv = value))
  ∧ (st ≠ OK → ok st = false ∧ metacache w1 = metacache w)
  ∧ (st = OK →
       files w1 !! loc = Some data
       ∧ (metacache w1 !! loc = Some value ∨ metacache w1 !! loc = None
          ∨ (metacache w1 !! loc = metacache w !! loc
             ∧ ∃ v rest, cache_script w = v :: rest ∧ taken v = false))).
Proof.
  unfold write_object, new_writable_file, append, close_file, fill_metacache.
  unfold bind at 1 2.
  destruct (fs_call w) as [[st1 w01]|] eqn:E1; [|discriminate].
  apply fs_call_frame in E1 as (F1 & C1 & S1 & _).
  destruct (ok st1) eqn:O1; cbn; rewrite ?O1; cbn.
  2:{ intros [= <- <-]. rewrite F1, C1. close_failure. }
  unfold bind at 1 2.
  destruct (fs_call _) as [[st2 w02]|] eqn:E2; [|discriminate].
  apply fs_call_frame in E2 as (F2 & C2 & S2 & _). cbn in F2, C2, S2.
  destruct (ok st2) eqn:O2; cbn; rewrite ?O2; cbn.
  2:{ intros [= <- <-]. rewrite F2, C2, C1, F1.
      split; [|close_failure].
      intros p Hp. apply lookup_insert_ne. congruence. }
  unfold bind at 1.
  destruct (fs_call _) as [[st3 w03]|] eqn:E3; [|discriminate].
  apply fs_call_frame in E3 as (F3 & C3 & S3 & _). cbn in F3, C3, S3.
  assert (Hf : ∀ p, p ≠ loc → files w03 !! p = files w !! p).
  { intros p Hp. rewrite F3, lookup_insert_ne by congruence.
    rewrite F2, lookup_insert_ne by congruence. rewrite F1. reflexivity. }
  destruct (ok st3) eqn:O3; cbn; rewrite ?O3; cbn.
  2:{ intros [= <- <-]. rewrite C3, C2, C1.
      split; [exact Hf|]. close_failure. }
  unfold bind.
  destruct (cache_insert loc value _) as [[b w04]|] eqn:E4; [|discriminate].
  apply cache_insert_at in E4 as (F4 & _ & Hat & Hnew).
  cbn in F4, Hat, Hnew. intros [= <- <-].
  rewrite C3, C2, C1 in Hat, Hnew. rewrite S3, S2, S1 in Hat.
  split; [intros p Hp; rewrite F4; cbn; exact (Hf p Hp)|].
  split; [exact Hnew|]. split; [congruence|]. intros _. split.
  - rewrite F4. cbn. rewrite F3. apply lookup_insert_eq.
  - exact Hat.
Qed.

(** A read that is served by the cache touches nothing. *)
Lemma get_tablet_metadata_path_hit (p : Path) (fc : bool) (w : World)
    (m : TabletMetadata) :
  metacache w !! p = Some (CVMetadata m) →
  get_tablet_metadata_path p fc w = Some (Value m, w).
Proof.
  intros H. unfold get_tablet_metadata_path, lookup_tablet_metadata,
    cache_lookup. unfold bind at 1 2. cbn. rewrite H. reflexivity.
Qed.

Lemma get_txn_log_path_hit (p : Path) (fc : bool) (w : World) (l : TxnLog) :
  metacache w !! p = Some (CVTxnLog l) →
  get_txn_log_path p fc w = Some (Value l, w).
Proof.
  intros H. unfold get_txn_log_path, lookup_txn_log, cache_lookup.
  unfold bind at 1 2. cbn. rewrite H. reflexivity.
Qed.

(** A read that returns a value took it from the cache, or from the object
    when the cache had no entry; the cache then holds that value or nothing
    for the path. *)
Lemma get_tablet_metadata_path_Value (p : Path) (fc : bool) (w w1 : World)
    (m : TabletMetadata) :
  get_tablet_metadata_path p fc w = Some (Value m, w1) →
  (metacache w !! p = Some (CVMetadata m) ∧ w1 = w)
  ∨ (metacache w !! p = None ∧ files w !! p = Some (BMetadata m)
     ∧ (metacache w1 !! p = Some (CVMetadata m) ∨ metacache w1 !! p = None)).
Proof.
  unfold get_tablet_metadata_path, lookup_tablet_metadata, cache_lookup,
    load_tablet_metadata, new_random_access_file, get_size, read_at_fully,
    fill_metacache.
  unfold bind at 1 2. cbn.
  destruct (metacache w !! p) as [[m0|l|s]|] eqn:Ec; cbn; try discriminate.
  { intros [= <- <-]. auto. }
  unfold bind at 1 2 3.
  destruct (fs_call w) as [[st0 w0]|] eqn:E0; [|discriminate].
  apply fs_call_frame in E0 as (F0 & C0 & _).
  destruct (ok st0); cbn; [|discriminate].
  destruct (files w0 !! p) as [blob|] eqn:Ef; cbn; [|discriminate].
  unfold bind at 1.
  destruct (fs_call w0) as [[st1 w01]|] eqn:E1; [|discriminate].
  apply fs_call_frame in E1 as (F1 & C1 & _).
  destruct (ok st1); cbn; [|discriminate].
  unfold bind at 1.
  destruct (fs_call w01) as [[st2 w02]|] eqn:E2; [|discriminate].
  apply fs_call_frame in E2 as (F2 & C2 & _).
  destruct (ok st2); cbn; [|discriminate].
  destruct blob as [m0|l|]; cbn; try discriminate.
  assert (Hc : metacache w02 !! p = None) by congruence.
  destruct fc; cbn.
  - unfold bind.
    destruct (cache_insert p (CVMetadata m0) w02) as [[b w03]|] eqn:E3;
      [|discriminate].
    apply cache_insert_at in E3 as (_ & _ & Hat & _).
    intros [= <- <-]. right. split; [reflexivity|].
    split; [congruence|].
    destruct Hat as [Hat|[Hat|[Hat _]]]; [auto|auto|].
    right. congruence.
  - intros [= <- <-]. right. split; [reflexivity|].
    split; [congruence|]. auto.
Qed.

Lemma get_txn_log_path_Value (p : Path) (fc : bool) (w w1 : World)
    (l : TxnLog) :
  get_txn_log_path p fc w = Some (Value l, w1) →
  (metacache w !! p = Some (CVTxnLog l) ∧ w1 = w)
  ∨ (metacache w !! p = None ∧ files w !! p = Some (BTxnLog l)
     ∧ (metacache w1 !! p = Some (CVTxnLog l) ∨ metacache w1 !! p = None)).
Proof.
  unfold get_txn_log_path, lookup_txn_log, cache_lookup,
    load_txn_log, new_random_access_file, get_size, read_at_fully,
    fill_metacache.
  unfold bind at 1 2. cbn.
  destruct (metacache w !! p) as [[m0|l0|s]|] eqn:Ec; cbn; try discriminate.
  { intros [= <- <-]. auto. }
  unfold bind at 1 2 3.
  destruct (fs_call w) as [[st0 w0]|] eqn:E0; [|discriminate].
  apply fs_call_frame in E0 as (F0 & C0 & _).
  destruct (ok st0); cbn; [|discriminate].
  destruct (files w0 !! p) as [blob|] eqn:Ef; cbn; [|discriminate].
  unfold bind at 1.
  destruct (fs_call w0) as [[st1 w01]|] eqn:E1; [|discriminate].
  apply fs_call_frame in E1 as (F1 & C1 & _).
  destruct (ok st1); cbn; [|discriminate].
  unfold bind at 1.
  destruct (fs_call w01) as [[st2 w02]|] eqn:E2; [|discriminate].
  apply fs_call_frame in E2 as (F2 & C2 & _).
  destruct (ok st2); cbn; [|discriminate].
  destruct blob as [m0|l0|]; cbn; try discriminate.
  assert (Hc : metacache w02 !! p = None) by congruence.
  destruct fc; cbn.
  - unfold bind.
    destruct (cache_insert p (CVTxnLog l0) w02) as [[b w03]|] eqn:E3;
      [|discriminate].
    apply cache_insert_at in E3 as (_ & _ & Hat & _).
    intros [= <- <-]. right. split; [reflexivity|].
    split; [congruence|].
    destruct Hat as [Hat|[Hat|[Hat _]]]; [auto|auto|].
    right. congruence.
  - intros [= <- <-]. right. split; [reflexivity|].
    split; [congruence|]. auto.
Qed.

(** A read that finds no entry in the cache and no fault in the file system
    returns what the object holds. *)
Lemma get_tablet_metadata_path_miss (p : Path) (fc : bool) (w : World) :
  metacache w !! p = None → io_script w = [] →
  ∃ w', get_tablet_metadata_path p fc w
        = Some (match files w !! p with
                | None => Error NotFound
                | Some (BMetadata m) => Value m
                | Some _ => Error Corruption
                end, w')
        ∧ files w' = files w ∧ io_script w' = [].
Proof.
  intros Hc Hq.
  unfold get_tablet_metadata_path, lookup_tablet_metadata, cache_lookup,
    load_tablet_metadata, new_random_access_file, get_size, read_at_fully,
    fill_metacache.
  unfold bind at 1 2. cbn. rewrite Hc. cbn.
  unfold bind at 1 2 3. rewrite (fs_call_quiet w Hq). cbn.
  destruct (files w !! p) as [blob|] eqn:Ef; cbn; [|eauto].
  unfold bind. repeat (rewrite (fs_call_quiet w Hq); cbn).
  destruct blob as [m|l|]; cbn; eauto.
  destruct fc; cbn; [|eauto].
  destruct (cache_insert p (CVMetadata m) w) as [[b w1]|] eqn:E.
  - apply cache_insert_files in E as [F S]. eexists. split; [reflexivity|].
    split; congruence.
  - unfold cache_insert in E. destruct (cache_script w); discriminate.
Qed.

Lemma get_txn_log_path_miss (p : Path) (fc : bool) (w : World) :
  metacache w !! p = None → io_script w = [] →
  ∃ w', get_txn_log_path p fc w
        = Some (match files w !! p with
                | None => Error NotFound
                | Some (BTxnLog l) => Value l
                | Some _ => Error Corruption
                end, w')
        ∧ files w' = files w ∧ io_script w' = [].
Proof.
  intros Hc Hq.
  unfold get_txn_log_path, lookup_txn_log, cache_lookup,
    load_txn_log, new_random_access_file, get_size, read_at_fully,
    fill_metacache.
  unfold bind at 1 2. cbn. rewrite Hc. cbn.
  unfold bind at 1 2 3. rewrite (fs_call_quiet w Hq). cbn.
  destruct (files w !! p) as [blob|] eqn:Ef; cbn; [|eauto].
  unfold bind. repeat (rewrite (fs_call_quiet w Hq); cbn).
  destruct blob as [m|l|]; cbn; eauto.
  destruct fc; cbn; [|eauto].
  destruct (cache_insert p (CVTxnLog l) w) as [[b w1]|] eqn:E.
  - apply cache_insert_files in E as [F S]. eexists. split; [reflexivity|].
    split; congruence.
  - unfold cache_insert in E. destruct (cache_script w); discriminate.
Qed.

(** ** Round trips through the store *)

Lemma put_then_get_tablet_metadata_aux (md : TabletMetadata) (w w1 : World) :
  put_tablet_metadata md w = Some (OK, w1) →
  (metacache w !! tablet_metadata_location (tablet_id md) (version md) = None
   ∨ ∀ v rest, cache_script w = v :: rest → taken v = true) →
  io_script w1 = [] →
  ∃ w2, get_tablet_metadata (tablet_id md) (version md) w1
        = Some (Value md, w2)
        ∧ files w2 = files w1.
Proof.
  intros Hput Hcache Hq. rewrite put_tablet_metadata_write in Hput.
  apply write_object_inv in Hput as (_ & _ & _ & Hok).
  destruct Hok as [Hfile Hat]; [reflexivity|].
  unfold get_tablet_metadata.
  set (loc := tablet_metadata_location (tablet_id md) (version md)) in *.
  assert (Hc : metacache w1 !! loc = Some (CVMetadata md)
               ∨ metacache w1 !! loc = None).
  { destruct Hat as [Hat|[Hat|(Hat & v & rest & Hs & Hv)]]; [auto|auto|].
    destruct Hcache as [Hnone|Htaken].
    - right. congruence.
    - rewrite (Htaken v rest Hs) in Hv. discriminate. }
  destruct Hc as [Hc|Hc].
  - exists w1. split; [|reflexivity].
    apply get_tablet_metadata_path_hit. exact Hc.
  - destruct (get_tablet_metadata_path_miss loc true w1 Hc Hq)
      as (w2 & Hget & Hf & _).
    rewrite Hfile in Hget. eauto.
Qed.

(** X4.  After [put_tablet_metadata] has returned [OK],
    [get_tablet_metadata] of the tablet id and version of the metadata
    returns that metadata and leaves the store alone, from the cache or from
    the object, provided the file system lets the read through and no older
    entry of the cache has survived a rejected insertion: the cache had no
    entry for the location, or it takes the value. *)
Theorem put_then_get_tablet_metadata (md : TabletMetadata) (w w1 : World) :
  put_tablet_metadata md w = Some (OK, w1) →
  (metacache w !! tablet_metadata_location (tablet_id md) (version md) = None
   ∨ ∀ v rest, cache_script w = v :: rest → taken v = true) →
  io_script w1 = [] →
  ∃ w2, get_tablet_metadata (tablet_id md) (version md) w1
        = Some (Value md, w2)
        ∧ files w2 = files w1.
Proof. apply put_then_get_tablet_metadata_aux. Qed.

(** X5.  [put_txn_log] returns [InvalidArgument] and touches nothing when
    the log lacks its tablet id or its transaction id.  Otherwise, after it
    has returned [OK], [get_txn_log] of the two ids returns the log and
    leaves the store alone, under the provisos of the round trip of
    metadata. *)
Theorem put_then_get_txn_log (log : TxnLog) (w w1 : World) (st : Status) :
  put_txn_log log w = Some (st, w1) →
  match log_tablet_id log, log_txn_id log with
  | Some t, Some x =>
      st = OK →
      (metacache w !! txn_log_location t x = None
       ∨ ∀ v rest, cache_script w = v :: rest → taken v = true) →
      io_script w1 = [] →
      ∃ w2, get_txn_log t x w1 = Some (Value log, w2) ∧ files w2 = files w1
  | _, _ => st = InvalidArgument ∧ w1 = w
  end.
Proof.
  intros Hput.
  destruct (log_tablet_id log) as [t|] eqn:Et.
  2:{ unfold put_txn_log in Hput. rewrite Et in Hput.
      injection Hput as <- <-. auto. }
  destruct (log_txn_id log) as [x|] eqn:Ex.
  2:{ unfold put_txn_log in Hput. rewrite Et, Ex in Hput.
      injection Hput as <- <-. auto. }
  intros -> Hcache Hq. rewrite (put_txn_log_write log t x Et Ex) in Hput.
  apply write_object_inv in Hput as (_ & _ & _ & Hok).
  destruct Hok as [Hfile Hat]; [reflexivity|].
  unfold get_txn_log. set (loc := txn_log_location t x) in *.
  assert (Hc : metacache w1 !! loc = Some (CVTxnLog log)
               ∨ metacache w1 !! loc = None).
  { destruct Hat as [Hat|[Hat|(Hat & v & rest & Hs & Hv)]]; [auto|auto|].
    destruct Hcache as [Hnone|Htaken].
    - right. congruence.
    - rewrite (Htaken v rest Hs) in Hv. discriminate. }
  destruct Hc as [Hc|Hc].
  - exists w1. split; [|reflexivity]. apply get_txn_log_path_hit. exact Hc.
  - destruct (get_txn_log_path_miss loc true w1 Hc Hq) as (w2 & Hget & Hf & _).
    rewrite Hfile in Hget. eauto.
Qed.

(** Erasing the entry of the cache and deleting the object, as both
    [delete_tablet_metadata] and [delete_txn_log] do. *)
Lemma erase_then_delete (loc : Path) (w w1 : World) (st : Status) :
  (_ <- erase_metacache loc ;; delete_file loc) w = Some (st, w1) →
  metacache w1 = delete loc (metacache w)
  ∧ (∀ p, p ≠ loc → files w1 !! p = files w !! p)
  ∧ (st = OK → files w1 = delete loc (files w))
  ∧ (st ≠ OK → files w1 = files w)
  ∧ (io_script w = [] → io_script w1 = [] ∧ st = OK).
Proof.
  unfold erase_metacache, delete_file. unfold bind at 1. cbn.
  unfold bind.
  destruct (fs_call _) as [[st0 w0]|] eqn:E0; [|discriminate].
  pose proof E0 as E0'.
  apply fs_call_frame in E0 as (F0 & C0 & _ & Hq0). cbn in F0, C0, Hq0.
  destruct (ok st0) eqn:O0; cbn.
  2:{ intros [= <- <-]. split; [exact C0|]. split; [congruence|].
      split; [intros ->; discriminate|]. split; [auto|].
      intros Hq. destruct (Hq0 Hq) as [-> _]. discriminate. }
  rewrite F0. intros [= <- <-]; cbn.
  split; [exact C0|]. split.
  { intros p Hp. apply lookup_delete_ne. congruence. }
  split; [reflexivity|].
  split; [congruence|].
  intros Hq. destruct (Hq0 Hq) as [_ ->]. auto.
Qed.


(** X7.  Reads do not write the store, whatever they return and whatever
    the file system and the cache answer; and they can be repeated: after
    [get_tablet_metadata] or [get_txn_log] has returned a value, the same
    call returns the same value again whenever the file system lets it
    through, whatever the cache has made of the value in between. *)
Theorem get_is_repeatable (t v : Z) (w w1 : World) :
  (∀ r, get_tablet_metadata t v w = Some (r, w1) →
     files w1 = files w
     ∧ ∀ m, r = Value m → io_script w1 = [] →
         ∃ w2, get_tablet_metadata t v w1 = Some (Value m, w2)
               ∧ files w2 = files w1)
  ∧ (∀ r, get_txn_log t v w = Some (r, w1) →
       files w1 = files w
       ∧ ∀ l, r = Value l → io_script w1 = [] →
           ∃ w2, get_txn_log t v w1 = Some (Value l, w2)
                 ∧ files w2 = files w1).
Proof.
  split.
  - intros r H. unfold get_tablet_metadata in *.
    pose proof (get_tablet_metadata_path_files _ _ _ _ _ H) as Hf.
    split; [exact Hf|]. intros m -> Hq.
    apply get_tablet_metadata_path_Value in H
      as [[Hc ->]|(_ & Hfile & [Hc|Hc])].
    + exists w. split; [|reflexivity].
      apply get_tablet_metadata_path_hit. exact Hc.
    + exists w1. split; [|reflexivity].
      apply get_tablet_metadata_path_hit. exact Hc.
    + destruct (get_tablet_metadata_path_miss _ true w1 Hc Hq)
        as (w2 & Hget & Hf2 & _).
      rewrite Hf, Hfile in Hget. eauto.
  - intros r H. unfold get_txn_log in *.
    pose proof (get_txn_log_path_files _ _ _ _ _ H) as Hf.
    split; [exact Hf|]. intros l -> Hq.
    apply get_txn_log_path_Value in H as [[Hc ->]|(_ & Hfile & [Hc|Hc])].
    + exists w. split; [|reflexivity]. apply get_txn_log_path_hit. exact Hc.
    + exists w1. split; [|reflexivity]. apply get_txn_log_path_hit. exact Hc.
    + destruct (get_txn_log_path_miss _ true w1 Hc Hq)
        as (w2 & Hget & Hf2 & _).
      rewrite Hf, Hfile in Hget. eauto.
Qed.

(** ** Publish *)

(** What holds of the metadata that enters the loop "Apply txn logs" and is
    kept by every [apply_txn_log] holds of the metadata that leaves it. *)
Lemma publish_apply_logs_preserves (P : TabletMetadata → Prop)
    (tablet new_version : Z) (txns : list Z) :
  (∀ log md st md', P md → apply_txn_log log md = Some (st, md') → P md') →
  ∀ md w md' w',
    P md →
    publish_apply_logs tablet new_version txns md w = Some (inr md', w') →
    P md'.
Proof.
  intros Hstep.
  induction txns as [|t txns IH]; intros md w md' w' HP; cbn.
  { intros [= <- <-]. exact HP. }
  unfold bind at 1.
  destruct (Tablet_get_txn_log tablet t w) as [[txnlog w0]|]; [|discriminate].
  unfold bind at 1.
  destruct (is_not_found (status_of txnlog)).
  - unfold bind at 1.
    destruct (Tablet_get_metadata tablet new_version w0) as [[res w1]|];
      [|discriminate].
    cbn. destruct (ok (status_of res)); [discriminate|].
    destruct txnlog as [log|st]; [|discriminate].
    destruct (apply_txn_log log md) as [[st md1]|] eqn:Ea; [|discriminate].
    destruct (negb (ok st)); [discriminate|].
    apply IH. eapply Hstep; eauto.
  - cbn. destruct txnlog as [log|st]; [|discriminate].
    destruct (apply_txn_log log md) as [[st md1]|] eqn:Ea; [|discriminate].
    destruct (negb (ok st)); [discriminate|].
    apply IH. eapply Hstep; eauto.
Qed.

(** The loop "Delete txn logs" touches the logs of the transactions only,
    whatever the file system answers. *)
Lemma publish_delete_logs_frame (tablet : Z) (txns : list Z) :
  ∀ w w1 p,
    publish_delete_logs tablet txns w = Some (tt, w1) →
    (∀ x, x ∈ txns → p ≠ TxnLoc tablet x) →
    files w1 !! p = files w !! p.
Proof.
  induction txns as [|t txns IH]; intros w w1 p; cbn.
  { intros [= <-]. reflexivity. }
  unfold bind at 1. unfold Tablet_delete_txn_log, delete_txn_log,
    txn_log_location.
  destruct ((_ <- erase_metacache (TxnLoc tablet t) ;;
             delete_file (TxnLoc tablet t)) w) as [[st w0]|] eqn:E0;
    [|discriminate].
  apply erase_then_delete in E0 as (_ & Hf & _).
  intros H Hp. rewrite (IH w0 w1 p H).
  - apply Hf. apply Hp. apply elem_of_cons. auto.
  - intros x Hx. apply Hp. apply elem_of_cons. auto.
Qed.

(** X8.  Whatever the file system and the cache answer, [publish] changes no
    object but the metadata of the new version and the logs of the
    transactions it was given; and a [publish] that does not return [OK] has
    changed no object but, at most, a metadata of the new version: every
    txn log is still as it was. *)
Theorem publish_frame (tablet base new : Z) (txns : list Z) (w w1 : World)
    (st : Status) :
  publish tablet base new txns w = Some (st, w1) →
  (∀ p, (∀ t, p ≠ MetaLoc t new) → (∀ x, x ∈ txns → p ≠ TxnLoc tablet x) →
        files w1 !! p = files w !! p)
  ∧ (st ≠ OK →
     ∀ p, (∀ t, p ≠ MetaLoc t new) → files w1 !! p = files w !! p).
Proof.
  unfold publish. unfold bind at 1.
  destruct (Tablet_get_metadata tablet base w) as [[res w0]|] eqn:E0;
    [|discriminate].
  apply get_tablet_metadata_path_files in E0.
  destruct res as [base_metadata|st0].
  2:{ unfold bind at 1. destruct (is_not_found st0).
      - unfold bind at 1.
        destruct (Tablet_get_metadata tablet new w0) as [[res' w01]|] eqn:E1;
          [|discriminate].
        apply get_tablet_metadata_path_files in E1. cbn.
        destruct (ok (status_of res')); intros [= <- <-];
          split; intros; congruence.
      - cbn. intros [= <- <-]. split; intros; congruence. }
  unfold bind at 1.
  destruct (publish_apply_logs _ _ _ _ w0) as [[applied w2]|] eqn:E2;
    [|discriminate].
  pose proof (publish_apply_logs_files _ _ _ _ _ _ _ E2) as F2.
  destruct applied as [st1|md']; [intros [= <- <-]; split; intros; congruence|].
  assert (Hv : version md' = new).
  { apply (publish_apply_logs_preserves (fun m => version m = new)
             tablet new txns) in E2; [exact E2| |reflexivity].
    intros log md st' md1 Hmd Ha. apply apply_txn_log_ids in Ha as [_ Ha].
    congruence. }
  unfold bind at 1. unfold Tablet_put_metadata.
  destruct (put_tablet_metadata md' w2) as [[st3 w3]|] eqn:E3; [|discriminate].
  rewrite put_tablet_metadata_write in E3.
  apply write_object_inv in E3 as (F3 & _).
  unfold tablet_metadata_location in F3. rewrite Hv in F3.
  destruct (negb (ok st3)) eqn:O3; cbn.
  { intros [= <- <-]. split; intros; rewrite F3 by auto; congruence. }
  unfold bind.
  destruct (publish_delete_logs tablet txns w3) as [[[] w4]|] eqn:E4;
    [|discriminate].
  intros [= <- <-]. split; [|congruence].
  intros p Hm Hx.
  rewrite (publish_delete_logs_frame tablet txns w3 w4 p E4 Hx).
  rewrite F3 by auto. congruence.
Qed.

(** Replaying logs that the store holds is what the loop "Apply txn logs"
    does on the store. *)
Lemma replay_apply_logs_ref (f : gmap Path Blob) (tablet new : Z)
    (txns : list Z) (logs : list TxnLog) :
  Forall2 (fun x l => f !! TxnLoc tablet x = Some (BTxnLog l)) txns logs →
  ∀ md md', replay logs md = Some md' →
            apply_logs_ref f tablet new txns md = Some (inr md').
Proof.
  induction 1 as [|x l txns logs Hx _ IH]; intros md md'; cbn.
  { intros [= <-]. reflexivity. }
  unfold read_log. rewrite Hx.
  destruct (apply_txn_log l md) as [[st md1]|]; [|discriminate].
  destruct (ok st); cbn; [|discriminate]. apply IH.
Qed.

Lemma replay_ranges (logs : list TxnLog) :
  ∀ md md',
    ranges_ok md → 0 ≤ next_rowset_id md →
    next_rowset_id md + all_new_segments logs ≤ 4294967295 →
    replay logs md = Some md' →
    ranges_ok md' ∧ next_rowset_id md ≤ next_rowset_id md'.
Proof.
  assert (Hnn : ∀ l, 0 ≤ all_new_segments l).
  { induction l as [|x l IH]; cbn; [lia|].
    fold (all_new_segments l). pose proof (new_segments_nonneg x). lia. }
  induction logs as [|l logs IH]; intros md md' Hok H0 Hfit; cbn.
  { intros [= <-]. split; [exact Hok|lia]. }
  cbn in Hfit. fold (all_new_segments logs) in Hfit.
  pose proof (Hnn logs) as Hn1. pose proof (new_segments_nonneg l) as Hn2.
  destruct (apply_txn_log l md) as [[st md1]|] eqn:Ea; [|discriminate].
  destruct (ok st); [|discriminate].
  destruct (apply_txn_log_ranges l md md1 st Hok H0) as [Hr1 Hr2];
    [lia|exact Ea|].
  intros Hr. destruct (IH md1 md' Hr1) as [Hr3 Hr4]; [lia|lia|exact Hr|].
  split; [exact Hr3|lia].
Qed.

Lemma publish_applies_logs_aux (tablet base new : Z) (txns : list Z)
    (logs : list TxnLog) (w : World) (m0 md : TabletMetadata) :
  good w →
  files w !! MetaLoc tablet base = Some (BMetadata m0) →
  tablet_id m0 = tablet →
  Forall2 (fun x l => files w !! TxnLoc tablet x = Some (BTxnLog l))
    txns logs →
  replay logs (set_version new m0) = Some md →
  ∃ w1,
    publish tablet base new txns w = Some (OK, w1)
    ∧ files w1 = delete_logs tablet txns
                   (<[MetaLoc tablet new := BMetadata md]> (files w))
    ∧ tablet_id md = tablet ∧ version md = new
    ∧ (ranges_ok m0 → 0 ≤ next_rowset_id m0 →
       next_rowset_id m0 + all_new_segments logs ≤ 4294967295 →
       ranges_ok md ∧ next_rowset_id m0 ≤ next_rowset_id md)
    ∧ (files w !! MetaLoc tablet new = None →
       ∃ w2, get_tablet_metadata tablet new w1 = Some (Value md, w2)).
Proof.
  intros Hg Hbase Hid Hlogs Hreplay.
  pose proof (replay_apply_logs_ref (files w) tablet new txns logs Hlogs
                _ _ Hreplay) as Href.
  destruct (publish_good_full tablet base new txns w m0 md Hg)
    as (w1 & Hpub & Hf & Hq & Ht & Hc); auto.
  { unfold read_meta. rewrite Hbase. reflexivity. }
  destruct (apply_logs_ref_ids _ _ _ _ _ _ Href) as [Hmid Hmv].
  cbn in Hmid, Hmv.
  exists w1. split; [exact Hpub|]. split; [exact Hf|].
  split; [congruence|]. split; [exact Hmv|]. split.
  { intros Hok H0 Hfit.
    apply (replay_ranges logs (set_version new m0) md);
      [|exact H0|exact Hfit|exact Hreplay].
    destruct Hok as [Ho Hb]. split; [exact Ho|exact Hb]. }
  intros Hnew.
  assert (Hfile : files w1 !! MetaLoc tablet new = Some (BMetadata md)).
  { rewrite Hf, delete_logs_lookup_other by discriminate.
    apply lookup_insert_eq. }
  destruct (metacache w1 !! MetaLoc tablet new) as [cv|] eqn:Ecv.
  - destruct (Hc _ _ Ecv) as [_ [Hco|[_ ->]]].
    + pose proof (Ht _ _ Ecv) as Hty. destruct cv; cbn in Hty; try contradiction.
      unfold coherent_at in Hco. cbn in Hco. congruence.
    + exists w1. apply get_tablet_metadata_path_hit. exact Ecv.
  - destruct (get_tablet_metadata_path_miss (MetaLoc tablet new) true w1 Ecv Hq)
      as (w2 & Hget & _).
    unfold get_tablet_metadata, tablet_metadata_location.
    rewrite Hfile in Hget. eauto.
Qed.

(** X9.  In a world without faults whose cache agrees with the store, with
    the metadata of the base version stored under its tablet and a log
    stored for every transaction: when the logs, applied one after the
    other to the base metadata with the new version, are all accepted,
    [publish] returns [OK]; the object of the new version holds the result
    and the logs are deleted, and nothing else changes.  The result carries
    the tablet id and the new version, and is what [get_tablet_metadata]
    returns afterwards when the new version did not exist before.  As long
    as [next_rowset_id] of the base plus the segments that the logs bring
    is at most 4294967295, so that it does not wrap around, the result
    keeps the ranges of rowset ids in order and its [next_rowset_id] has
    not gone down. *)
Theorem publish_applies_logs (tablet base new : Z) (txns : list Z)
    (logs : list TxnLog) (w : World) (m0 md : TabletMetadata) :
  good w →
  files w !! MetaLoc tablet base = Some (BMetadata m0) →
  tablet_id m0 = tablet →
  Forall2 (fun x l => files w !! TxnLoc tablet x = Some (BTxnLog l))
    txns logs →
  replay logs (set_version new m0) = Some md →
  ∃ w1,
    publish tablet base new txns w = Some (OK, w1)
    ∧ files w1 = delete_logs tablet txns
                   (<[MetaLoc tablet new := BMetadata md]> (files w))
    ∧ tablet_id md = tablet ∧ version md = new
    ∧ (ranges_ok m0 → 0 ≤ next_rowset_id m0 →
       next_rowset_id m0 + all_new_segments logs ≤ 4294967295 →
       ranges_ok md ∧ next_rowset_id m0 ≤ next_rowset_id md)
    ∧ (files w !! MetaLoc tablet new = None →
       ∃ w2, get_tablet_metadata tablet new w1 = Some (Value md, w2)).
Proof. apply publish_applies_logs_aux. Qed.

(** ** Dropping a tablet *)

Lemma delete_file_inv (loc : Path) (w w1 : World) (st : Status) :
  delete_file loc w = Some (st, w1) →
  metacache w1 = metacache w ∧ cache_script w1 = cache_script w
  ∧ (∀ p, p ≠ loc → files w1 !! p = files w !! p)
  ∧ (st ≠ OK → files w1 = files w)
  ∧ (io_script w = [] → io_script w1 = [] ∧ files w1 !! loc = None).
Proof.
  unfold delete_file, bind.
  destruct (fs_call w) as [[st0 w0]|] eqn:E0; [|discriminate].
  apply fs_call_frame in E0 as (F0 & C0 & S0 & Hq0).
  destruct (ok st0) eqn:O0; cbn.
  2:{ intros [= <- <-]. split; [exact C0|]. split; [exact S0|].
      split; [intros; congruence|]. split; [intros _; exact F0|].
      intros Hq. destruct (Hq0 Hq) as [-> _]. discriminate. }
  intros [= <- <-]; cbn.
  split; [exact C0|]. split; [exact S0|]. split.
  { intros p Hp. rewrite lookup_delete_ne by congruence. congruence. }
  split; [congruence|].
  intros Hq. destruct (Hq0 Hq) as [_ ->]. split; [exact Hq|].
  apply lookup_delete_eq.
Qed.

Lemma delete_file_total (loc : Path) (w : World) :
  ∃ st w1, delete_file loc w = Some (st, w1).
Proof.
  unfold delete_file, bind, fs_call.
  destruct (io_script w) as [|st rest]; cbn.
  - eauto.
  - destruct (negb (ok st)); cbn; eauto.
Qed.

(** The loop of [drop_tablet]: the entry of the cache of every object of the
    list is erased; no object outside the list changes; and when the file
    system lets the deletions through, no object of the list is left. *)
Lemma drop_objects_inv (l : list Path) :
  ∀ w, ∃ w1,
    drop_objects l w = Some (tt, w1)
    ∧ (∀ p, p ∉ l → files w1 !! p = files w !! p
                    ∧ metacache w1 !! p = metacache w !! p)
    ∧ (∀ p, p ∈ l → metacache w1 !! p = None)
    ∧ cache_script w1 = cache_script w
    ∧ (io_script w = [] →
       io_script w1 = [] ∧ ∀ p, p ∈ l → files w1 !! p = None).
Proof.
  induction l as [|obj l IH]; intros w; cbn [drop_objects].
  { exists w. split; [reflexivity|]. split; [auto|].
    split; [intros p Hp; apply elem_of_nil in Hp; contradiction|].
    split; [reflexivity|]. intros Hq. split; [exact Hq|].
    intros p Hp. apply elem_of_nil in Hp. contradiction. }
  unfold bind at 1. unfold erase_metacache at 1. cbn.
  set (w0 := with_metacache (delete obj (metacache w)) w).
  unfold bind at 1.
  destruct (delete_file_total obj w0) as (st & w01 & Ed). rewrite Ed.
  apply delete_file_inv in Ed as (C1 & S1 & F1 & _ & Hq1).
  destruct (IH w01) as (w1 & E1 & Hout & Hin & S2 & Hq2).
  exists w1. split; [exact E1|]. split; [|split; [|split]].
  - intros p Hp. apply not_elem_of_cons in Hp as [Hne Hp].
    destruct (Hout p Hp) as [Hf Hc]. rewrite Hf, Hc, C1, F1 by exact Hne.
    split; [reflexivity|]. apply lookup_delete_ne. congruence.
  - intros p Hp. destruct (decide (p ∈ l)) as [Hl|Hl]; [auto|].
    apply elem_of_cons in Hp as [->|Hp]; [|contradiction].
    destruct (Hout obj Hl) as [_ Hc]. rewrite Hc, C1.
    apply lookup_delete_eq.
  - rewrite S2, S1. reflexivity.
  - intros Hq. destruct (Hq1 Hq) as [Hq01 Hgone].
    destruct (Hq2 Hq01) as [Hq' Hgone']. split; [exact Hq'|].
    intros p Hp. destruct (decide (p ∈ l)) as [Hl|Hl]; [auto|].
    apply elem_of_cons in Hp as [->|Hp]; [|contradiction].
    destruct (Hout obj Hl) as [Hf _]. rewrite Hf. exact Hgone.
Qed.

(** The children of a root are objects of the store; when [readdir] hands
    out every child, they are all the objects of the tablets of the root. *)
Lemma children_elem_of (root_location : Z → Z) (readdir : list Path → list Path)
    (root : Z) (w : World) (p : Path) :
  (∀ l, readdir l ≡ₚ l) →
  p ∈ children root_location readdir root w
  ↔ is_Some (files w !! p) ∧ root_location (tablet_of p) = root.
Proof.
  intros Hperm. unfold children.
  rewrite list_elem_of_In, filter_In, <- list_elem_of_In, Hperm.
  rewrite Z.eqb_eq, list_elem_of_fmap. split.
  - intros [([q b] & -> & Hq) Hr]. apply elem_of_map_to_list in Hq.
    cbn. split; [eauto|exact Hr].
  - intros [[b Hb] Hr]. split; [|exact Hr].
    exists (p, b). split; [reflexivity|]. apply elem_of_map_to_list. exact Hb.
Qed.

Lemma is_object_of_tablet (tablet : Z) (p : Path) :
  is_object_of tablet p = true → tablet_of p = tablet.
Proof.
  unfold is_object_of. destruct p as [t v|t x|t]; cbn;
    rewrite ?orb_false_r; try discriminate; apply Z.eqb_eq.
Qed.

Lemma children_files (root_location : Z → Z) (readdir : list Path → list Path)
    (root : Z) (w w' : World) :
  files w' = files w →
  children root_location readdir root w'
  = children root_location readdir root w.
Proof. intros H. unfold children. rewrite H. reflexivity. Qed.

(** How [drop_tablet] runs: it fails before anything is touched, or it
    drops the objects that the listing has found and erases the key of the
    schema. *)
Lemma drop_tablet_inv (root_location : Z → Z) (readdir : list Path → list Path)
    (tablet : Z) (w w1 : World) (st : Status) :
  drop_tablet root_location readdir tablet w = Some (st, w1) →
  (ok st = false ∧ files w1 = files w ∧ metacache w1 = metacache w)
  ∨ (st = OK
     ∧ ∃ w0 w2,
         files w0 = files w ∧ metacache w0 = metacache w
         ∧ (io_script w = [] → io_script w0 = [])
         ∧ drop_objects
             (List.filter (is_object_of tablet)
                (children root_location readdir (root_location tablet) w)) w0
           = Some (tt, w2)
         ∧ w1 = with_metacache
                  (delete (tablet_schema_cache_key tablet) (metacache w2)) w2).
Proof.
  unfold drop_tablet, CreateSharedFromString, iterate_dir.
  unfold bind at 1.
  destruct (fs_call w) as [[st0 w0]|] eqn:E0; [|discriminate].
  apply fs_call_frame in E0 as (F0 & C0 & _ & Hq0).
  destruct (ok st0) eqn:O0; cbn.
  2:{ intros [= <- <-]. left. auto. }
  unfold bind at 1 2.
  destruct (fs_call w0) as [[st1 w01]|] eqn:E1; [|discriminate].
  apply fs_call_frame in E1 as (F1 & C1 & _ & Hq1).
  destruct (ok st1) eqn:O1; cbn.
  2:{ intros [= <- <-]. left. split; [exact O1|]. split; congruence. }
  unfold bind at 1.
  rewrite (children_files root_location readdir _ w01 w) by congruence.
  fold (is_object_of tablet).
  destruct (drop_objects _ w01) as [[[] w2]|] eqn:E2; [|discriminate].
  unfold bind, erase_metacache. cbn. intros [= <- <-]. right.
  split; [reflexivity|]. exists w01, w2.
  split; [congruence|]. split; [congruence|]. split; [|auto].
  intros Hq. destruct (Hq0 Hq) as [_ ->]. destruct (Hq1 Hq) as [_ ->].
  exact Hq.
Qed.

(** X10.  Whatever the file system answers, [drop_tablet] touches neither
    the objects nor the entries of the cache of another tablet; when it
    does not return [OK] it has touched nothing at all; and when it returns
    [OK], the cache holds no schema for the tablet and no entry for any
    metadata or txn log of the tablet that the store held, deleted or
    not. *)
Theorem drop_tablet_frame (root_location : Z → Z)
    (readdir : list Path → list Path) (tablet : Z) (w w1 : World)
    (st : Status) :
  (∀ l, readdir l ≡ₚ l) →
  drop_tablet root_location readdir tablet w = Some (st, w1) →
  (∀ p, tablet_of p ≠ tablet →
        files w1 !! p = files w !! p ∧ metacache w1 !! p = metacache w !! p)
  ∧ (st ≠ OK → files w1 = files w ∧ metacache w1 = metacache w)
  ∧ (st = OK →
     metacache w1 !! tablet_schema_cache_key tablet = None
     ∧ ∀ p, is_Some (files w !! p) → is_object_of tablet p = true →
            metacache w1 !! p = None).
Proof.
  intros Hperm H.
  apply drop_tablet_inv in H
    as [(Hst & Hf & Hc)|(-> & w0 & w2 & F0 & C0 & _ & Hdrop & ->)].
  { split; [intros; split; congruence|]. split; [auto|].
    intros ->. discriminate. }
  destruct (drop_objects_inv
              (List.filter (is_object_of tablet)
                 (children root_location readdir (root_location tablet) w)) w0)
    as (w2' & Hdrop' & Hout & Hin & _).
  rewrite Hdrop in Hdrop'. injection Hdrop' as <-.
  split; [|split; [congruence|]].
  - intros p Hp. cbn.
    assert (Hnot : p ∉ List.filter (is_object_of tablet)
                     (children root_location readdir (root_location tablet) w)).
    { rewrite list_elem_of_In, filter_In. intros [_ Hobj].
      apply is_object_of_tablet in Hobj. contradiction. }
    destruct (Hout p Hnot) as [Hf Hc]. split; [congruence|].
    rewrite lookup_delete_ne; [congruence|].
    unfold tablet_schema_cache_key. intros <-. apply Hp. reflexivity.
  - intros _. cbn. split; [apply lookup_delete_eq|].
    intros p Hex Hobj.
    rewrite lookup_delete_ne by (destruct p; cbn in Hobj; discriminate).
    apply Hin. rewrite list_elem_of_In, filter_In, <- list_elem_of_In.
    split; [|exact Hobj].
    apply children_elem_of; [exact Hperm|]. split; [exact Hex|].
    f_equal. apply is_object_of_tablet. exact Hobj.
Qed.

Lemma is_object_of_meta (tablet v : Z) :
  is_object_of tablet (MetaLoc tablet v) = true.
Proof. unfold is_object_of. cbn. rewrite Z.eqb_refl. reflexivity. Qed.

Lemma is_object_of_txn (tablet x : Z) :
  is_object_of tablet (TxnLoc tablet x) = true.
Proof. unfold is_object_of. cbn. rewrite Z.eqb_refl. reflexivity. Qed.

Lemma filter_nil_of {A} (f : A → bool) (l : list A) :
  (∀ x, x ∈ l → f x = false) → List.filter f l = [].
Proof.
  induction l as [|a l IH]; intros H; cbn; [reflexivity|].
  rewrite (H a) by (apply elem_of_cons; auto).
  apply IH. intros x Hx. apply H. apply elem_of_cons. auto.
Qed.

(** With no metadata of the tablet in the store and no schema in the cache,
    [get_tablet_schema] finds nothing. *)
Lemma get_tablet_schema_nothing (root_location : Z → Z)
    (readdir : list Path → list Path)
    (emplace : TabletSchema → option TabletSchema * bool) (fc : bool)
    (tablet : Z) (w : World) :
  (∀ l, readdir l ≡ₚ l) → io_script w = [] →
  metacache w !! tablet_schema_cache_key tablet = None →
  (∀ v, files w !! MetaLoc tablet v = None) →
  get_tablet_schema root_location readdir emplace fc tablet w
  = Some (Error NotFound, w).
Proof.
  intros Hperm Hq Hc Hf.
  unfold get_tablet_schema, lookup_tablet_schema, cache_lookup,
    list_tablet_metadata, CreateSharedFromString, iterate_dir.
  unfold bind at 1 2. cbn. rewrite Hc. cbn.
  unfold bind at 1 2. rewrite (fs_call_quiet w Hq). cbn.
  unfold bind at 1 2. rewrite (fs_call_quiet w Hq). cbn.
  rewrite filter_nil_of; [reflexivity|].
  intros p Hp. apply children_elem_of in Hp as [[b Hb] _]; [|exact Hperm].
  destruct p as [t v|t x|t]; cbn; try reflexivity.
  apply Z.eqb_neq. intros ->. rewrite Hf in Hb. discriminate.
Qed.

(** X11.  In a world without faults whose cache agrees with the store,
    [drop_tablet] returns [OK] and removes every metadata and every txn log
    of the tablet and nothing else; afterwards [get_tablet_metadata],
    [get_txn_log] and [get_tablet_schema] of the tablet return
    [NotFound]. *)
Theorem drop_tablet_removes_all (root_location : Z → Z)
    (readdir : list Path → list Path) (tablet : Z) (w : World) :
  (∀ l, readdir l ≡ₚ l) → good w →
  ∃ w1,
    drop_tablet root_location readdir tablet w = Some (OK, w1)
    ∧ (∀ p, files w1 !! p
            = if is_object_of tablet p then None else files w !! p)
    ∧ (∀ v, ∃ w2,
         get_tablet_metadata tablet v w1 = Some (Error NotFound, w2))
    ∧ (∀ x, ∃ w2, get_txn_log tablet x w1 = Some (Error NotFound, w2))
    ∧ (∀ emplace fc, ∃ w2,
         get_tablet_schema root_location readdir emplace fc tablet w1
         = Some (Error NotFound, w2)).
Proof.
  intros Hperm (Hq & Hty & Hco).
  set (objects := List.filter (is_object_of tablet)
                    (children root_location readdir (root_location tablet) w)).
  destruct (drop_objects_inv objects w) as (w2 & Hdrop & Hout & Hin & _ & Hq2).
  destruct (Hq2 Hq) as [Hq2' Hgone]. clear Hq2.
  set (w1 := with_metacache
               (delete (tablet_schema_cache_key tablet) (metacache w2)) w2).
  assert (Hrun : drop_tablet root_location readdir tablet w = Some (OK, w1)).
  { unfold drop_tablet, CreateSharedFromString, iterate_dir.
    unfold bind at 1. rewrite (fs_call_quiet w Hq). cbn.
    unfold bind at 1 2. rewrite (fs_call_quiet w Hq). cbn.
    unfold bind at 1. fold (is_object_of tablet). fold objects.
    rewrite Hdrop. reflexivity. }
  assert (Hmem : ∀ p, p ∈ objects
                      ↔ is_Some (files w !! p) ∧ is_object_of tablet p = true).
  { intros p. unfold objects.
    rewrite list_elem_of_In, filter_In, <- list_elem_of_In.
    rewrite children_elem_of by exact Hperm. split.
    - intros [[Hex _] Hobj]. auto.
    - intros [Hex Hobj]. split; [|exact Hobj]. split; [exact Hex|].
      f_equal. apply is_object_of_tablet. exact Hobj. }
  assert (Hfiles : ∀ p, files w1 !! p
                        = if is_object_of tablet p then None
                          else files w !! p).
  { intros p. cbn. destruct (is_object_of tablet p) eqn:Hobj.
    - destruct (files w !! p) as [b|] eqn:Hb.
      + apply Hgone. apply Hmem. eauto.
      + destruct (Hout p) as [Hf _]; [|congruence].
        intros Hp. apply Hmem in Hp as [[b' Hb'] _]. congruence.
    - destruct (Hout p) as [Hf _]; [|exact Hf].
      intros Hp. apply Hmem in Hp as [_ Hp]. congruence. }
  assert (Hcache : ∀ p, is_object_of tablet p = true →
                        metacache w1 !! p = None).
  { intros p Hobj. cbn.
    rewrite lookup_delete_ne by (destruct p; cbn in Hobj; discriminate).
    destruct (decide (p ∈ objects)) as [Hp|Hp]; [auto|].
    destruct (Hout p Hp) as [_ Hc]. rewrite Hc.
    destruct (metacache w !! p) as [cv|] eqn:Ecv; [|reflexivity].
    exfalso. apply Hp, Hmem. split; [|exact Hobj].
    pose proof (Hty _ _ Ecv) as Hwt. pose proof (Hco _ _ Ecv) as Hcoh.
    unfold coherent_at in Hcoh.
    destruct p, cv; cbn in Hwt, Hcoh, Hobj; try contradiction;
      try discriminate; eauto. }
  assert (Hq1 : io_script w1 = []) by exact Hq2'.
  exists w1. split; [exact Hrun|]. split; [exact Hfiles|].
  split; [|split].
  - intros v.
    destruct (get_tablet_metadata_path_miss (MetaLoc tablet v) true w1)
      as (w3 & Hget & _); [|exact Hq1|].
    { apply Hcache. apply is_object_of_meta. }
    rewrite Hfiles, is_object_of_meta in Hget. eauto.
  - intros x.
    destruct (get_txn_log_path_miss (TxnLoc tablet x) true w1)
      as (w3 & Hget & _); [|exact Hq1|].
    { apply Hcache. apply is_object_of_txn. }
    rewrite Hfiles, is_object_of_txn in Hget. eauto.
  - intros emplace fc. exists w1.
    apply get_tablet_schema_nothing; [exact Hperm|exact Hq1| |].
    + cbn. apply lookup_delete_eq.
    + intros v. rewrite Hfiles, is_object_of_meta. reflexivity.
Qed.

(** ** The schema of a tablet *)

(** X12.  [get_tablet_schema] does not write the store.  A schema that the
    cache holds under the key of the tablet is returned with nothing else
    done.  Otherwise a schema that is returned is what the schema map has
    made of the schema of a metadata of this very tablet, taken from the
    cache or from the store. *)
Theorem get_tablet_schema_sound (root_location : Z → Z)
    (readdir : list Path → list Path)
    (emplace : TabletSchema → option TabletSchema * bool) (fc : bool)
    (tablet : Z) (w w1 : World) (r : StatusOr TabletSchema) :
  get_tablet_schema root_location readdir emplace fc tablet w = Some (r, w1) →
  files w1 = files w
  ∧ (∀ s, metacache w !! tablet_schema_cache_key tablet = Some (CVSchema s) →
          r = Value s ∧ w1 = w)
  ∧ (metacache w !! tablet_schema_cache_key tablet = None →
     ∀ s, r = Value s →
       ∃ v m b,
         emplace (schema m) = (Some s, b)
         ∧ (metacache w !! MetaLoc tablet v = Some (CVMetadata m)
            ∨ files w !! MetaLoc tablet v = Some (BMetadata m))).
Proof.
  unfold get_tablet_schema, lookup_tablet_schema, cache_lookup,
    list_tablet_metadata, CreateSharedFromString, iterate_dir, fill_metacache.
  unfold bind at 1 2. cbn.
  destruct (metacache w !! tablet_schema_cache_key tablet) as [[m0|l0|s0]|]
    eqn:Ec; cbn; try discriminate.
  { intros [= <- <-]. split; [reflexivity|]. split; [|discriminate].
    intros s [= <-]. auto. }
  unfold bind at 1 2.
  destruct (fs_call w) as [[st0 w0]|] eqn:E0; [|discriminate].
  apply fs_call_frame in E0 as (F0 & C0 & _).
  destruct (ok st0); cbn.
  2:{ intros [= <- <-]. split; [exact F0|]. split; discriminate. }
  unfold bind at 1 2.
  destruct (fs_call w0) as [[st1 w01]|] eqn:E1; [|discriminate].
  apply fs_call_frame in E1 as (F1 & C1 & _).
  destruct (ok st1); cbn.
  2:{ intros [= <- <-]. split; [congruence|]. split; discriminate. }
  destruct (List.filter _ _) as [|path rest] eqn:El.
  { intros [= <- <-]. split; [congruence|]. split; discriminate. }
  assert (Hpath : ∃ v, path = MetaLoc tablet v).
  { assert (Hin : In path (path :: rest)) by (left; reflexivity).
    rewrite <- El in Hin. apply filter_In in Hin as [_ Hp].
    destruct path as [t v|t x|t]; cbn in Hp; try discriminate.
    apply Z.eqb_eq in Hp. subst t. eauto. }
  destruct Hpath as [v ->].
  unfold bind at 1.
  destruct (get_tablet_metadata_path _ fc w01) as [[res w2]|] eqn:E2;
    [|discriminate].
  pose proof (get_tablet_metadata_path_files _ _ _ _ _ E2) as F2.
  destruct res as [m|st2].
  2:{ intros [= <- <-]. split; [congruence|]. split; discriminate. }
  apply get_tablet_metadata_path_Value in E2.
  destruct (emplace (schema m)) as [[s|] b] eqn:Ee.
  2:{ intros [= <- <-]. split; [congruence|]. split; discriminate. }
  unfold bind.
  destruct (cache_insert _ _ w2) as [[b' w3]|] eqn:E3; [|discriminate].
  apply cache_insert_files in E3 as [F3 _].
  intros [= <- <-]. split; [congruence|]. split; [discriminate|].
  intros _ s' [= <-]. exists v, m, b. split; [exact Ee|].
  destruct E2 as [[Hc _]|(_ & Hf & _)]; [left|right]; congruence.
Qed.

(** ** Creating a tablet *)

(** X13.  [create_tablet] returns the status of a failed conversion of the
    schema and touches nothing.  When it returns [OK], version 1 of the
    tablet reads back as the metadata with the converted schema, no rowset
    and [next_rowset_id] 1, under the provisos of the round trip of
    metadata. *)
Theorem create_tablet_then_get {TColumn : Type}
    (convert : list TColumn → Z → list (nat * nat) → StatusOr TabletSchema)
    (req : TCreateTabletReq TColumn) (w w1 : World) (st : Status) :
  create_tablet convert req w = Some (st, w1) →
  match convert (req_columns req) (Z.of_nat (length (req_columns req)))
          ((fun i => (i, i)) <$> seq 0 (length (req_columns req))) with
  | Error e => st = e ∧ w1 = w
  | Value s =>
      st = OK →
      (metacache w !! tablet_metadata_location (req_tablet_id req) 1 = None
       ∨ ∀ v rest, cache_script w = v :: rest → taken v = true) →
      io_script w1 = [] →
      ∃ w2,
        get_tablet_metadata (req_tablet_id req) 1 w1
        = Some (Value {| tablet_id := req_tablet_id req; version := 1;
                         next_rowset_id := 1; schema := s; rowsets := [] |},
                w2)
  end.
Proof.
  unfold create_tablet.
  destruct (convert _ _ _) as [s|e].
  2:{ intros [= <- <-]. auto. }
  intros Hput -> Hcache Hq.
  destruct (put_then_get_tablet_metadata_aux _ w w1 Hput Hcache Hq)
    as (w2 & Hget & _).
  eauto.
Qed.

(** ** Compaction tasks *)

(** X14.  [compact] does not write the store and fails with the status of
    the read of the metadata.  The task it returns binds the transaction,
    the version and the tablet, and its inputs are the rowsets of that
    metadata in their order: a compaction log over those inputs is accepted
    by [apply_compaction_log] on that metadata, whatever its output. *)
Theorem compact_plans_all_rowsets (tablet version txn : Z) (w w1 : World)
    (r : StatusOr CompactionTask) :
  compact tablet version txn w = Some (r, w1) →
  files w1 = files w
  ∧ match r with
    | Error st => get_tablet_metadata tablet version w = Some (Error st, w1)
    | Value task =>
        task_txn_id task = txn ∧ task_version task = version
        ∧ task_tablet task = tablet
        ∧ ∃ m,
            get_tablet_metadata tablet version w = Some (Value m, w1)
            ∧ task_input_rowsets task = rowsets m
            ∧ ∀ out, ∃ md',
                apply_compaction_log
                  {| input_rowsets := rowset_id <$> task_input_rowsets task;
                     output_rowset := out |} m
                = Some (OK, md')
    end.
Proof.
  unfold compact, get_tablet, Tablet_get_metadata, bind.
  destruct (get_tablet_metadata tablet version w) as [[res w0]|] eqn:E0;
    [|discriminate].
  assert (F0 : files w0 = files w)
    by exact (get_tablet_metadata_path_files
                (tablet_metadata_location tablet version) true w w0 res E0).
  destruct res as [m|st]; intros [= <- <-]; (split; [exact F0|]);
    [|reflexivity].
  cbn. repeat split. exists m. split; [reflexivity|]. split; [reflexivity|].
  intros out. destruct (rowsets m) as [|r0 rs] eqn:Er.
  - eexists. reflexivity.
  - apply (apply_compaction_log_accepts_all _ m []).
    + rewrite Er. discriminate.
    + cbn. rewrite Er, app_nil_r. reflexivity.
Qed.

(** ** From the creation of a tablet to its first published write *)

(** Writing an object that did not exist, in a world without faults whose
    cache agrees with the store, gives such a world again. *)
Lemma write_object_good (loc : Path) (data : Blob) (value : CacheValue)
    (w : World) :
  good w → files w !! loc = None →
  well_typed loc value → blob_of value = Some data →
  ∃ w1, write_object loc data value w = Some (OK, w1)
        ∧ good w1 ∧ files w1 = <[loc := data]> (files w).
Proof.
  intros (Hq & Hty & Hco) Hnone Hwt Hblob.
  unfold write_object, new_writable_file, append, close_file, fill_metacache.
  unfold bind at 1 2. rewrite (fs_call_quiet w Hq). cbn.
  unfold bind at 1 2. rewrite fs_call_quiet by exact Hq. cbn.
  unfold bind at 1. rewrite fs_call_quiet by exact Hq. cbn.
  unfold bind.
  match goal with
  | |- context [cache_insert loc value ?w0] =>
      destruct (cache_insert_spec loc value w0)
        as (b & c & s & Ei & Hc & _); rewrite Ei
  end.
  eexists. split; [reflexivity|]. cbn.
  split; [|apply insert_insert_eq].
  split; [exact Hq|]. split.
  - intros p cv Hp. cbn in Hp. apply Hc in Hp as [Hp|[-> ->]].
    + eapply Hty; eauto.
    + exact Hwt.
  - intros p cv Hp. cbn in Hp. apply Hc in Hp as [Hp|[-> ->]].
    + pose proof (Hco _ _ Hp) as Hcoh. unfold coherent_at in *. cbn.
      destruct (blob_of cv) as [bl|]; [|exact I].
      rewrite insert_insert_eq, lookup_insert_ne; [exact Hcoh|].
      intros <-. cbn in Hcoh. congruence.
    + unfold coherent_at. rewrite Hblob. cbn.
      rewrite insert_insert_eq. apply lookup_insert_eq.
Qed.

(** X15.  In a world without faults whose cache agrees with the store and
    that holds nothing of the tablet yet, creating the tablet, putting the
    log of a transaction that writes one rowset with rows, and publishing
    version 2 from version 1 with that transaction all return [OK];
    version 2 then reads back with the schema of the creation and with that
    one rowset, whose id is 1, [next_rowset_id] is 1 plus the number of
    segments of the rowset, and the log is gone.  The number of segments
    is an [int], at most 2147483647, so that the sum does not wrap around;
    the model, whose lists have no such bound, gives the sum modulo 2^32
    beyond it. *)
Theorem create_write_publish {TColumn : Type}
    (convert : list TColumn → Z → list (nat * nat) → StatusOr TabletSchema)
    (req : TCreateTabletReq TColumn) (s : TabletSchema) (log : TxnLog)
    (r : RowsetMetadata) (x : Z) (w : World) :
  good w →
  convert (req_columns req) (Z.of_nat (length (req_columns req)))
    ((fun i => (i, i)) <$> seq 0 (length (req_columns req))) = Value s →
  files w !! MetaLoc (req_tablet_id req) 1 = None →
  files w !! MetaLoc (req_tablet_id req) 2 = None →
  files w !! TxnLoc (req_tablet_id req) x = None →
  log = {| log_tablet_id := Some (req_tablet_id req); log_txn_id := Some x;
           op_write := Some {| op_write_rowset := Some r |};
           op_compaction := None; op_schema_change := None |} →
  0 < Lake.num_rows r →
  ∃ w1 w2 w3 w4,
    create_tablet convert req w = Some (OK, w1)
    ∧ put_txn_log log w1 = Some (OK, w2)
    ∧ publish (req_tablet_id req) 1 2 [x] w2 = Some (OK, w3)
    ∧ get_tablet_metadata (req_tablet_id req) 2 w3
      = Some (Value {| tablet_id := req_tablet_id req; version := 2;
                       next_rowset_id := to_uint32 (1 + segments_size r);
                       schema := s; rowsets := [set_id 1 r] |}, w4)
    ∧ (segments_size r ≤ 2147483647 →
       get_tablet_metadata (req_tablet_id req) 2 w3
       = Some (Value {| tablet_id := req_tablet_id req; version := 2;
                        next_rowset_id := 1 + segments_size r;
                        schema := s; rowsets := [set_id 1 r] |}, w4))
    ∧ files w3 !! TxnLoc (req_tablet_id req) x = None.
Proof.
  intros Hg Hconv Hm1 Hm2 Hx -> Hrows.
  set (t := req_tablet_id req) in *.
  set (md1 := {| tablet_id := t; version := 1; next_rowset_id := 1;
                 schema := s; rowsets := [] |}).
  set (log := {| log_tablet_id := Some t; log_txn_id := Some x;
                 op_write := Some {| op_write_rowset := Some r |};
                 op_compaction := None; op_schema_change := None |}).
  destruct (write_object_good (MetaLoc t 1) (BMetadata md1) (CVMetadata md1) w)
    as (w1 & E1 & Hg1 & F1); auto; [exact I|].
  destruct (write_object_good (TxnLoc t x) (BTxnLog log) (CVTxnLog log) w1)
    as (w2 & E2 & Hg2 & F2); auto; [|exact I|].
  { rewrite F1, lookup_insert_ne by discriminate. exact Hx. }
  set (md2 := {| tablet_id := t; version := 2;
                 next_rowset_id := to_uint32 (1 + segments_size r);
                 schema := s; rowsets := [set_id 1 r] |}).
  destruct (publish_applies_logs_aux t 1 2 [x] [log] w2 md1 md2 Hg2)
    as (w3 & E3 & F3 & _ & _ & _ & Hget); auto.
  { rewrite F2, lookup_insert_ne by discriminate.
    rewrite F1. apply lookup_insert_eq. }
  { constructor; [|constructor]. rewrite F2. apply lookup_insert_eq. }
  { cbn. unfold apply_txn_log, apply_write_log. cbn.
    apply Z.ltb_lt in Hrows. rewrite Hrows. reflexivity. }
  destruct Hget as [w4 Hget].
  { rewrite F2, lookup_insert_ne by discriminate.
    rewrite F1, lookup_insert_ne by discriminate. exact Hm2. }
  exists w1, w2, w3, w4.
  split.
  { unfold create_tablet. fold t. rewrite Hconv. exact E1. }
  split.
  { rewrite (put_txn_log_write log t x) by reflexivity. exact E2. }
  split; [exact E3|]. split; [exact Hget|]. split.
  { intros Hint. rewrite Hget. subst md2.
    pose proof (segments_size_nonneg r).
    rewrite to_uint32_id by lia. reflexivity. }
  rewrite F3. apply delete_logs_lookup_deleted. apply elem_of_cons. auto.
Qed.

(** ** Worked examples *)

Lemma apply_compaction_log_accepts_full_only_witness :
  ∃ md',
    apply_compaction_log compaction_of_all_four metadata_four_rowsets
    = Some (OK, md')
    ∧ rowsets md' = [set_id 5 (two_segment_rowset 40)]
    ∧ next_rowset_id md' = 5 + 2.
Proof.
  destruct (apply_compaction_log_accepts_full_only compaction_of_all_four
              metadata_four_rowsets) as [Hiff Hout]; [discriminate|].
  destruct (proj2 Hiff) as [md' E].
  { split; [discriminate|]. exists []. reflexivity. }
  exists md'. split; [exact E|].
  destruct (Hout md' E) as (_ & _ & _ & Hrs & _ & Hnext).
  split; [exact Hrs|]. apply Hnext; vm_compute; discriminate.
Defined.

Lemma metadata_one_rowset_ranges : ranges_ok metadata_one_rowset.
Proof.
  split.
  - intros i j a b Hij Ha Hb. cbn in Ha, Hb.
    destruct i, j; cbn in Ha, Hb; try lia; discriminate.
  - intros r Hr. cbn in Hr. apply list_elem_of_singleton in Hr as ->.
    vm_compute. discriminate.
Qed.

Lemma apply_txn_log_keeps_ranges_witness :
  ∃ md',
    apply_txn_log (write_log 1 100) metadata_one_rowset = Some (OK, md')
    ∧ ranges_ok md'
    ∧ next_rowset_id metadata_one_rowset ≤ next_rowset_id md'.
Proof.
  evar (md' : TabletMetadata).
  assert (E : apply_txn_log (write_log 1 100) metadata_one_rowset
              = Some (OK, md')).
  { subst md'. vm_compute. reflexivity. }
  exists md'. split; [exact E|].
  destruct (apply_txn_log_keeps_ranges (write_log 1 100) metadata_one_rowset
              md' OK metadata_one_rowset_ranges) as (H1 & H2 & _).
  - vm_compute. discriminate.
  - vm_compute. discriminate.
  - exact E.
  - split; [exact H1|exact H2].
Defined.

Lemma put_then_get_tablet_metadata_witness :
  ∃ w1 w2,
    put_tablet_metadata metadata_v5 world_v5 = Some (OK, w1)
    ∧ get_tablet_metadata 10 5 w1 = Some (Value metadata_v5, w2)
    ∧ files w2 = files w1.
Proof.
  evar (w1 : World).
  assert (E : put_tablet_metadata metadata_v5 world_v5 = Some (OK, w1)).
  { subst w1. vm_compute. reflexivity. }
  destruct (put_then_get_tablet_metadata metadata_v5 world_v5 w1 E)
    as (w2 & H1 & H2).
  { left. reflexivity. }
  { reflexivity. }
  exists w1, w2. auto.
Defined.

Lemma put_then_get_txn_log_witness :
  ∃ w1 w2,
    put_txn_log write_log_11 world_v5 = Some (OK, w1)
    ∧ get_txn_log 11 3 w1 = Some (Value write_log_11, w2)
    ∧ files w2 = files w1.
Proof.
  evar (w1 : World).
  assert (E : put_txn_log write_log_11 world_v5 = Some (OK, w1)).
  { subst w1. vm_compute. reflexivity. }
  destruct (put_then_get_txn_log write_log_11 world_v5 w1 OK E eq_refl)
    as (w2 & H1 & H2).
  { left. reflexivity. }
  { reflexivity. }
  exists w1, w2. auto.
Defined.

Lemma publish_frame_witness :
  ∃ w1,
    publish 10 5 6 [1; 2] world_v5 = Some (OK, w1)
    ∧ files w1 !! MetaLoc 10 5 = files world_v5 !! MetaLoc 10 5.
Proof.
  evar (w1 : World).
  assert (E : publish 10 5 6 [1; 2] world_v5 = Some (OK, w1)).
  { subst w1. vm_compute. reflexivity. }
  exists w1. split; [exact E|].
  apply (proj1 (publish_frame 10 5 6 [1; 2] world_v5 w1 OK E)).
  - intros t [=].
  - intros x _. discriminate.
Defined.

Lemma publish_applies_logs_witness :
  ∃ w1 w2,
    publish 10 5 6 [1; 2] world_v5 = Some (OK, w1)
    ∧ get_tablet_metadata 10 6 w1 = Some (Value metadata_v6, w2).
Proof.
  destruct (publish_applies_logs 10 5 6 [1; 2]
              [write_log 1 100; write_log 2 50] world_v5 metadata_v5
              metadata_v6 (proj1 world_v5_good))
    as (w1 & H1 & _ & _ & _ & _ & H2).
  - vm_compute. reflexivity.
  - reflexivity.
  - repeat constructor.
  - reflexivity.
  - destruct H2 as [w2 H2]; [vm_compute; reflexivity|].
    exists w1, w2. auto.
Defined.

Lemma drop_tablet_frame_witness :
  ∃ w1,
    drop_tablet one_root in_order 10 world_two_tablets = Some (OK, w1)
    ∧ files w1 !! MetaLoc 20 1 = Some (BMetadata metadata_of_20)
    ∧ metacache w1 !! MetaLoc 10 5 = None.
Proof.
  evar (w1 : World).
  assert (E : drop_tablet one_root in_order 10 world_two_tablets
              = Some (OK, w1)).
  { subst w1. vm_compute. reflexivity. }
  destruct (drop_tablet_frame one_root in_order 10 world_two_tablets w1 OK)
    as (Hframe & _ & Hok); [reflexivity|exact E|].
  exists w1. split; [exact E|]. split.
  - rewrite (proj1 (Hframe (MetaLoc 20 1) ltac:(discriminate))).
    vm_compute. reflexivity.
  - apply (proj2 (Hok eq_refl)); [|reflexivity].
    eexists. vm_compute. reflexivity.
Defined.

Lemma drop_tablet_removes_all_witness :
  ∃ w1 w2,
    drop_tablet one_root in_order 10 world_v5 = Some (OK, w1)
    ∧ files w1 !! MetaLoc 10 5 = None
    ∧ files w1 !! TxnLoc 10 1 = None
    ∧ get_tablet_metadata 10 5 w1 = Some (Error NotFound, w2).
Proof.
  destruct (drop_tablet_removes_all one_root in_order 10 world_v5)
    as (w1 & H1 & Hfiles & Hmeta & _); [reflexivity|exact (proj1 world_v5_good)|].
  destruct (Hmeta 5) as [w2 H2].
  exists w1, w2. split; [exact H1|].
  split; [exact (Hfiles (MetaLoc 10 5))|].
  split; [exact (Hfiles (TxnLoc 10 1))|exact H2].
Defined.

Lemma get_tablet_schema_sound_witness :
  ∃ w1,
    get_tablet_schema one_root in_order fresh_schema true 10 world_v5
    = Some (Value [0; 1], w1)
    ∧ files w1 = files world_v5.
Proof.
  evar (w1 : World).
  assert (E : get_tablet_schema one_root in_order fresh_schema true 10
                world_v5 = Some (Value [0; 1], w1)).
  { subst w1. vm_compute. reflexivity. }
  exists w1. split; [exact E|].
  exact (proj1 (get_tablet_schema_sound one_root in_order fresh_schema true
                  10 world_v5 w1 _ E)).
Defined.

Lemma create_tablet_then_get_witness :
  ∃ w1 w2,
    create_tablet columns_as_ids create_tablet_11 world_v5 = Some (OK, w1)
    ∧ get_tablet_metadata 11 1 w1
      = Some (Value {| tablet_id := 11; version := 1; next_rowset_id := 1;
                       schema := [0; 1]; rowsets := [] |}, w2).
Proof.
  evar (w1 : World).
  assert (E : create_tablet columns_as_ids create_tablet_11 world_v5
              = Some (OK, w1)).
  { subst w1. vm_compute. reflexivity. }
  destruct (create_tablet_then_get columns_as_ids create_tablet_11 world_v5
              w1 OK E eq_refl) as (w2 & H2).
  { left. reflexivity. }
  { reflexivity. }
  exists w1, w2. auto.
Defined.

Lemma compact_plans_all_rowsets_witness :
  ∃ task w1 md',
    compact 10 5 9 world_four_rowsets = Some (Value task, w1)
    ∧ task_input_rowsets task = rowsets metadata_four_rowsets
    ∧ apply_compaction_log
        {| input_rowsets := [1; 2; 3; 4]; output_rowset := None |}
        metadata_four_rowsets = Some (OK, md').
Proof.
  evar (task : CompactionTask). evar (w1 : World).
  assert (E : compact 10 5 9 world_four_rowsets = Some (Value task, w1)).
  { subst task w1. vm_compute. reflexivity. }
  destruct (compact_plans_all_rowsets 10 5 9 world_four_rowsets w1 _ E)
    as (_ & _ & _ & _ & m & Hget & Hin & Hacc).
  destruct (Hacc None) as [md' Hmd].
  exists task, w1, md'. split; [exact E|]. split; [reflexivity|].
  assert (Hm : m = metadata_four_rowsets).
  { assert (Hv : get_tablet_metadata 10 5 world_four_rowsets
                 = Some (Value metadata_four_rowsets, w1))
      by (vm_compute; reflexivity).
    rewrite Hv in Hget. injection Hget as <-. reflexivity. }
  subst m. exact Hmd.
Defined.

Lemma create_write_publish_witness :
  ∃ w1 w2 w3 w4,
    create_tablet columns_as_ids create_tablet_11 world_v5 = Some (OK, w1)
    ∧ put_txn_log write_log_11 w1 = Some (OK, w2)
    ∧ publish 11 1 2 [3] w2 = Some (OK, w3)
    ∧ get_tablet_metadata 11 2 w3
      = Some (Value {| tablet_id := 11; version := 2; next_rowset_id := 1 + 2;
                       schema := [0; 1];
                       rowsets := [set_id 1 (two_segment_rowset 100)] |}, w4)
    ∧ files w3 !! TxnLoc 11 3 = None.
Proof.
  destruct (create_write_publish columns_as_ids create_tablet_11 [0; 1]
              write_log_11 (two_segment_rowset 100) 3 world_v5
              (proj1 world_v5_good))
    as (w1 & w2 & w3 & w4 & H1 & H2 & H3 & _ & H4 & H5).
  - reflexivity.
  - vm_compute. reflexivity.
  - vm_compute. reflexivity.
  - vm_compute. reflexivity.
  - reflexivity.
  - reflexivity.
  - exists w1, w2, w3, w4. repeat split; try assumption.
    apply H4. vm_compute. discriminate.
Defined.

(** * Further properties of the scan node *)

Import NodeViews.

Local Open Scope Z_scope.

(** ** What scheduling and workers keep *)

Ltac splits := repeat match goal with |- _ ∧ _ => split end.

Lemma same_setup_refl (n : t) : same_setup n n.
Proof. unfold same_setup. splits; reflexivity. Qed.

Lemma same_setup_trans (n1 n2 n3 : t) :
  same_setup n1 n2 → same_setup n2 n3 → same_setup n1 n3.
Proof.
  unfold same_setup.
  intros (? & ? & ? & ? & ? & ? & ? & ? & ? & ?)
         (? & ? & ? & ? & ? & ? & ? & ? & ? & ?).
  splits; congruence.
Qed.

Lemma sched_keeps_refl (n : t) : sched_keeps n n.
Proof. split; [apply same_setup_refl|]. splits; auto. Qed.

Lemma sched_keeps_trans (n1 n2 n3 : t) :
  sched_keeps n1 n2 → sched_keeps n2 n3 → sched_keeps n1 n3.
Proof.
  intros (S1 & A1 & B1 & C1 & D1 & E1 & F1) (S2 & A2 & B2 & C2 & D2 & E2 & F2).
  split; [eapply same_setup_trans; eauto|].
  splits; try congruence. auto.
Qed.

Lemma worker_keeps_refl (n : t) : worker_keeps n n.
Proof.
  split; [apply same_setup_refl|]. split; [auto|]. split; [auto|].
  split; [exists []; rewrite app_nil_r; reflexivity|].
  split; [lia|]. split; auto.
Qed.

Lemma worker_keeps_trans (n1 n2 n3 : t) :
  worker_keeps n1 n2 → worker_keeps n2 n3 → worker_keeps n1 n3.
Proof.
  intros (S1 & A1 & B1 & [k1 C1] & D1 & E1 & F1)
         (S2 & A2 & B2 & [k2 C2] & D2 & E2 & F2).
  split; [eapply same_setup_trans; eauto|].
  split.
  { intros H. rewrite A2; [auto|]. rewrite A1; auto. }
  split.
  { intros H. rewrite B2; [auto|]. rewrite B1; auto. }
  split.
  { exists (k1 ++ k2). rewrite C2, C1, app_assoc. reflexivity. }
  split; [lia|]. split; [congruence|auto].
Qed.

Lemma sched_keeps_worker (n n' : t) : sched_keeps n n' → worker_keeps n n'.
Proof.
  intros (S & A & B & C & D & E & F).
  split; [exact S|]. split; [intros _; exact A|]. split; [intros _; exact B|].
  split; [exists []; rewrite B, app_nil_r; reflexivity|].
  split; [unfold chunks; rewrite B, C; lia|]. split; auto.
Qed.

(** Updates that leave alone what the views look at. *)
Ltac keeps_prim :=
  unfold sched_keeps, worker_keeps, same_setup, chunks, outstanding;
  cbn; splits; auto; try lia;
  try (exists []; rewrite app_nil_r; reflexivity).

Lemma get_status_keeps (n n' : t) a :
  _get_status n = Some (a, n') → n' = n ∧ a = _status n.
Proof. intros [= <- <-]. auto. Qed.

Lemma update_status_keeps (st : Status) (n n' : t) a :
  _update_status st n = Some (a, n') → worker_keeps n n'.
Proof.
  unfold _update_status. intros [= <- <-].
  destruct (ok (_status n)) eqn:E; [|apply worker_keeps_refl].
  keeps_prim. congruence.
Qed.

Lemma queue_shutdown_id (q : BlockingQueue) :
  is_shutdown q = true → queue_shutdown q = q.
Proof. destruct q as [i s]. cbn. intros ->. reflexivity. Qed.

Lemma result_chunks_shutdown_keeps (n n' : t) a :
  result_chunks_shutdown n = Some (a, n') → worker_keeps n n'.
Proof.
  intros [= <- <-]. keeps_prim.
  intros H. apply queue_shutdown_id. exact H.
Qed.

Lemma add_closed_scanners_keeps (d : Z) (n n' : t) a :
  add_closed_scanners d n = Some (a, n') → worker_keeps n n'.
Proof. intros [= <- <-]. keeps_prim. Qed.

Lemma scanner_call_keeps {A} (scanner : nat)
    (f : ConnectorScanner.t → A * ConnectorScanner.t) (n n' : t) a :
  scanner_call scanner f n = Some (a, n') → sched_keeps n n'.
Proof.
  unfold scanner_call. destruct (_pool n !! scanner) as [s|]; [|discriminate].
  destruct (f s) as [a0 s']. intros [= <- <-]. keeps_prim.
Qed.

Lemma acquire_pending_token_keeps (scanner : nat) (n n' : t) a :
  acquire_pending_token scanner n = Some (a, n') → sched_keeps n n'.
Proof.
  unfold acquire_pending_token.
  destruct (_pool n !! scanner) as [s|]; [|discriminate].
  destruct (ConnectorScanner.acquire_pending_token _ s) as [[res tok] s'].
  intros [= <- <-]. keeps_prim.
Qed.

Lemma release_pending_token_keeps (scanner : nat) (n n' : t) a :
  release_pending_token scanner n = Some (a, n') → sched_keeps n n'.
Proof.
  unfold release_pending_token.
  destruct (_pool n !! scanner) as [s|]; [|discriminate].
  destruct (ConnectorScanner.release_pending_token _ s) as [[res tok] s'].
  intros [= <- <-]. keeps_prim.
Qed.

Lemma push_pending_scanner_keeps (scanner : nat) (n n' : t) a :
  _push_pending_scanner scanner n = Some (a, n') → sched_keeps n n'.
Proof. intros [= <- <-]. keeps_prim. Qed.

Lemma pop_pending_scanner_keeps (n n' : t) a :
  _pop_pending_scanner n = Some (a, n') → sched_keeps n n'.
Proof.
  unfold _pop_pending_scanner. destruct (_pending_scanners n); [discriminate|].
  intros [= <- <-]. keeps_prim.
Qed.

Lemma wrap32_sub (x y : Z) : wrap32 (wrap32 x - y) = wrap32 (x - y).
Proof. unfold wrap32. Z.div_mod_to_equations. lia. Qed.

(** [_submit_scanner] raises the counter of running threads exactly when
    it adds a task. *)
Lemma submit_scanner_keeps (scanner : nat) (blockable : bool) (n n' : t) a :
  _submit_scanner scanner blockable n = Some (a, n') → sched_keeps n n'.
Proof.
  unfold _submit_scanner. intros H. apply bind_Some in H as (keep & n0 & Hr & H).
  apply scanner_read_same in Hr as [-> _].
  cbv zeta in H. unfold try_offer in H. cbn in H.
  destruct (try_offer_script (thread_pool n)) as [|[] rest];
    cbn in H; try destruct blockable; injection H as <- <-;
    unfold sched_keeps, same_setup, outstanding; cbn;
    rewrite ?length_app; cbn;
    splits; auto using wrap32_int32;
    unfold wrap32; Z.div_mod_to_equations; lia.
Qed.

Create HintDb keeps.

#[local] Hint Resolve worker_keeps_refl worker_keeps_trans sched_keeps_worker
  sched_keeps_refl sched_keeps_trans : keeps.

Lemma yield_loop_keeps (need_put : nat) :
  ∀ n n' a, yield_loop need_put n = Some (a, n') → sched_keeps n n'.
Proof.
  induction need_put as [|k IH]; intros n n' a; cbn.
  { intros [= <- <-]. apply sched_keeps_refl. }
  destruct (_pending_scanners n) as [|sc rest] eqn:E.
  { intros [= <- <-]. apply sched_keeps_refl. }
  intros H. apply bind_Some in H as (scanner & n1 & Hpop & H).
  apply bind_Some in H as (submitted & n2 & Hsub & H).
  apply pop_pending_scanner_keeps in Hpop.
  apply submit_scanner_keeps in Hsub.
  destruct submitted.
  - apply IH in H. eauto with keeps.
  - injection H as <- <-. eauto with keeps.
Qed.

Lemma close_scanners_keeps (pending : list nat) :
  ∀ n n' a, close_scanners pending n = Some (a, n') → worker_keeps n n'.
Proof.
  induction pending as [|sc rest IH]; intros n n' a; cbn.
  { intros [= <- <-]. apply worker_keeps_refl. }
  intros H. apply bind_Some in H as (u1 & n1 & H1 & H).
  apply bind_Some in H as (u2 & n2 & H2 & H).
  apply scanner_call_keeps in H1. apply add_closed_scanners_keeps in H2.
  apply IH in H. eauto with keeps.
Qed.

Lemma close_pending_scanners_keeps (n n' : t) a :
  _close_pending_scanners n = Some (a, n') → worker_keeps n n'.
Proof.
  unfold _close_pending_scanners. intros H.
  apply close_scanners_keeps in H.
  eapply worker_keeps_trans; [|exact H].
  apply sched_keeps_worker. keeps_prim.
Qed.

Lemma release_scanner_keeps (scanner : nat) (n n' : t) a :
  _release_scanner scanner n = Some (a, n') → worker_keeps n n'.
Proof.
  unfold _release_scanner. intros H.
  apply bind_Some in H as (u1 & n1 & H1 & H).
  apply bind_Some in H as (u2 & n2 & H2 & H).
  apply bind_Some in H as (u3 & n3 & H3 & H).
  apply release_pending_token_keeps in H1. apply scanner_call_keeps in H2.
  apply add_closed_scanners_keeps in H3.
  apply close_pending_scanners_keeps in H.
  eauto 8 with keeps.
Qed.

(** One turn of the produce loop that has taken a chunk from the pool and
    has put it into the queue, or back into the pool. *)
Lemma take_chunk_keeps (n n1 : t) (c : Chunk) (pool : list Chunk) :
  _chunk_pool n = c :: pool →
  sched_keeps (set_chunk_pool pool n) n1 →
  (∀ chunk, worker_keeps n (set_chunk_pool (chunk :: _chunk_pool n1) n1))
  ∧ (∀ chunk, worker_keeps n
                (set_result_chunks
                   (queue_put chunk (_result_chunks n1)).2 n1)).
Proof.
  intros Epool (S & A & B & C & D & E & F).
  cbn in A, B, C, D, E, F. unfold same_setup in S. cbn in S.
  destruct S as (S1 & S2 & S3 & S4 & S5 & S6 & S7 & S8 & S9 & S10).
  split; intros chunk.
  - unfold worker_keeps, same_setup, chunks, outstanding in *. cbn.
    rewrite B, C, Epool. cbn. splits; auto.
    exists []. rewrite app_nil_r. reflexivity.
  - unfold queue_put. rewrite B.
    destruct (is_shutdown (_result_chunks n)) eqn:Es; cbn.
    + unfold worker_keeps, same_setup, chunks, outstanding in *. cbn.
      rewrite C, Epool. cbn. splits; auto; try lia.
      exists []. rewrite app_nil_r. reflexivity.
    + unfold worker_keeps, same_setup, chunks, outstanding in *. cbn.
      rewrite C, Epool, length_app. cbn. splits; auto; try lia.
      * congruence.
      * eauto.
Qed.

Lemma produce_loop_keeps (fuel : nat) (scanner : nat) (threshold : Z) :
  ∀ n e n',
    produce_loop fuel scanner threshold n = Some (e, n') →
    worker_keeps n n'.
Proof.
  induction fuel as [|fuel IH]; intros n e n'; [discriminate|].
  cbn [produce_loop]. intros H.
  apply bind_Some in H as (global & n0 & Hg & H).
  apply get_status_keeps in Hg as (-> & ->).
  destruct (negb (ok (_status n))).
  { injection H as <- <-. apply worker_keeps_refl. }
  destruct (_chunk_pool n) as [|c pool] eqn:Epool.
  - apply bind_Some in H as (u1 & n1 & H1 & H).
    apply bind_Some in H as (u2 & n2 & H2 & H).
    apply bind_Some in H as (u3 & n3 & H3 & H).
    injection H as <- <-.
    apply scanner_call_keeps in H1.
    apply release_pending_token_keeps in H2.
    apply push_pending_scanner_keeps in H3.
    eauto 8 with keeps.
  - apply bind_Some in H as ([status chunk] & n1 & H1 & H).
    apply scanner_call_keeps in H1.
    destruct (take_chunk_keeps n n1 c pool Epool H1) as [Hback Hput].
    destruct (negb (ok status)).
    { injection H as <- <-. apply Hback. }
    specialize (Hput chunk).
    destruct (queue_put chunk (_result_chunks n1)) as [put q] eqn:Eput.
    cbn in Hput.
    destruct (negb put).
    { injection H as <- <-. exact Hput. }
    apply bind_Some in H as (rows & n2 & Hr1 & H).
    apply scanner_read_same in Hr1 as [-> _].
    apply bind_Some in H as (raw & n3 & Hr2 & H).
    apply scanner_read_same in Hr2 as [-> _].
    destruct (negb (_limit (set_result_chunks q n1) =? -1)
              && (_limit (set_result_chunks q n1) <=? rows)).
    { injection H as <- <-. exact Hput. }
    destruct (threshold <=? raw).
    { injection H as <- <-. exact Hput. }
    apply IH in H. eauto with keeps.
Qed.

Lemma scanner_thread_epilogue_keeps (scanner : nat) (e : LoopExit)
    (n n' : t) a :
  scanner_thread_epilogue scanner e n = Some (a, n') → worker_keeps n n'.
Proof.
  unfold scanner_thread_epilogue. intros H.
  apply bind_Some in H as (global & n0 & Hg & H).
  apply get_status_keeps in Hg as (-> & ->).
  destruct (ok (_status n)).
  - destruct (ok (exit_status e) && resubmit e) eqn:Eq.
    + apply bind_Some in H as (submitted & n1 & Hsub & H).
      apply submit_scanner_keeps in Hsub.
      destruct submitted.
      * injection H as <- <-. eauto with keeps.
      * apply bind_Some in H as (u & n2 & Hrel & H).
        apply release_pending_token_keeps in Hrel.
        apply push_pending_scanner_keeps in H.
        eauto 8 with keeps.
    + destruct (ok (exit_status e)).
      { injection H as <- <-. apply worker_keeps_refl. }
      destruct (is_end_of_file (exit_status e)).
      * apply bind_Some in H as (u1 & n1 & H1 & H).
        apply bind_Some in H as (u2 & n2 & H2 & H).
        apply bind_Some in H as (u3 & n3 & H3 & H).
        apply release_pending_token_keeps in H1.
        apply scanner_call_keeps in H2. apply add_closed_scanners_keeps in H3.
        assert (Hs : worker_keeps n n3) by eauto 8 with keeps.
        destruct (_pending_scanners n3) as [|sc rest].
        { injection H as <- <-. exact Hs. }
        apply bind_Some in H as (nscanner & n4 & Hpop & H).
        apply bind_Some in H as (submitted & n5 & Hsub & H).
        apply pop_pending_scanner_keeps in Hpop.
        apply submit_scanner_keeps in Hsub.
        destruct submitted.
        -- injection H as <- <-. eauto 8 with keeps.
        -- apply push_pending_scanner_keeps in H. eauto 8 with keeps.
      * apply bind_Some in H as (u1 & n1 & H1 & H).
        apply update_status_keeps in H1.
        apply release_scanner_keeps in H.
        eauto with keeps.
  - destruct (handed_off e).
    + injection H as <- <-. apply worker_keeps_refl.
    + eapply release_scanner_keeps; eauto.
Qed.

Lemma scanner_thread_body_keeps (scanner : nat) (n n' : t) a :
  scanner_thread_body scanner n = Some (a, n') → worker_keeps n n'.
Proof.
  unfold scanner_thread_body. intros H.
  apply bind_Some in H as (global & n0 & Hg & H).
  apply get_status_keeps in Hg as (-> & ->).
  destruct (negb (ok (_status n))).
  { eapply release_scanner_keeps; eauto. }
  apply bind_Some in H as (tok1 & n0 & Hr & H).
  apply scanner_read_same in Hr as [-> _].
  apply bind_Some in H as (u1 & n1 & Hy & H).
  assert (Hs1 : worker_keeps n n1).
  { destruct tok1.
    - destruct (0 <? _).
      + apply yield_loop_keeps in Hy. eauto with keeps.
      + injection Hy as <- <-. apply worker_keeps_refl.
    - injection Hy as <- <-. apply worker_keeps_refl. }
  clear Hy.
  apply bind_Some in H as (tok2 & n0 & Hr & H).
  apply scanner_read_same in Hr as [-> _].
  apply bind_Some in H as (u2 & n2 & Ha & H).
  assert (Hs2 : worker_keeps n n2).
  { eapply worker_keeps_trans; [exact Hs1|]. destruct tok2.
    - injection Ha as <- <-. apply worker_keeps_refl.
    - apply acquire_pending_token_keeps in Ha. eauto with keeps. }
  clear Ha Hs1.
  apply bind_Some in H as (is_open & n0 & Hr & H).
  apply scanner_read_same in Hr as [-> _].
  apply bind_Some in H as (tok3 & n0 & Hr & H).
  apply scanner_read_same in Hr as [-> _].
  apply bind_Some in H as (limit & n0 & Hr & H).
  apply open_limit_same in Hr as ->.
  destruct (negb is_open && (max_hdfs_file_handle (config n2) <? limit)
            && negb tok3).
  { apply push_pending_scanner_keeps in H. eauto with keeps. }
  apply bind_Some in H as (status & n3 & Ho & H).
  apply scanner_call_keeps in Ho.
  apply bind_Some in H as (u3 & n4 & Hk & H).
  apply scanner_call_keeps in Hk.
  apply bind_Some in H as (raw & n0 & Hr & H).
  apply scanner_read_same in Hr as [-> _].
  apply bind_Some in H as (e & n5 & Hl & H).
  apply scanner_thread_epilogue_keeps in H.
  assert (Hs4 : worker_keeps n n4) by eauto 8 with keeps.
  destruct (ok status).
  - apply produce_loop_keeps in Hl. eauto with keeps.
  - injection Hl as <- <-. eauto with keeps.
Qed.

(** ** What the steps of the node keep *)

Lemma worker_keeps_step (n n' : t) : worker_keeps n n' → step_keeps n n'.
Proof.
  intros ((S1 & S2 & S3 & S4 & S5 & S6 & S7 & S8 & S9 & S10)
          & A & B & _ & _ & _ & _).
  split; [exact A|]. split.
  { intros H. rewrite (B H). auto. }
  splits; auto.
  - intros H. splits; congruence.
  - congruence.
Qed.

Lemma create_scanners_keeps (ranges : list DataSource) :
  ∀ n n' a, create_scanners ranges n = Some (a, n') → sched_keeps n n'.
Proof.
  induction ranges as [|d rest IH]; intros n n' a; cbn [create_scanners].
  { intros [= <- <-]. apply sched_keeps_refl. }
  intros H. apply bind_Some in H as (u & n1 & H1 & H).
  apply IH in H. eapply sched_keeps_trans; [|exact H].
  unfold _create_and_init_scanner, _push_pending_scanner in H1.
  injection H1 as <- <-. keeps_prim.
Qed.

Lemma start_scanners_keeps (k : nat) :
  ∀ n n' a, start_scanners k n = Some (a, n') → sched_keeps n n'.
Proof.
  induction k as [|k IH]; intros n n' a; cbn.
  { intros [= <- <-]. apply sched_keeps_refl. }
  intros H. apply bind_Some in H as (scanner & n1 & Hpop & H).
  apply bind_Some in H as (submitted & n2 & Hsub & H).
  apply pop_pending_scanner_keeps in Hpop.
  apply submit_scanner_keeps in Hsub.
  destruct submitted; [|discriminate].
  apply IH in H. eauto with keeps.
Qed.

(** The start of the scan: the status, the queue and the running workers
    are as before; the chunk pool has grown by the chunks of the budget that
    the start has set. *)
Lemma start_scan_thread_keeps (n n' : t) (st : Status) :
  _start_scan_thread n = Some (st, n') →
  st = OK
  ∧ _status n' = _status n ∧ _result_chunks n' = _result_chunks n
  ∧ outstanding n' = outstanding n
  ∧ (is_int32 (_running_threads n) → is_int32 (_running_threads n'))
  ∧ config n' = config n ∧ chunk_size n' = chunk_size n
  ∧ _limit n' = _limit n
  ∧ _start n' = _start n ∧ _closed n' = _closed n
  ∧ length (_chunk_pool n')
    = (chunk_budget n' + length (_chunk_pool n))%nat.
Proof.
  unfold _start_scan_thread. intros H.
  apply bind_Some in H as (u & n1 & Hc & H).
  apply create_scanners_keeps in Hc.
  destruct (chunk_size n1 =? 0); [discriminate|].
  cbv zeta in H. destruct (negb _); [discriminate|].
  apply bind_Some in H as (u1 & n2 & Hf & H).
  apply bind_Some in H as (u2 & n3 & Hs & H).
  injection H as <- <-.
  apply start_scanners_keeps in Hs.
  unfold _fill_chunk_pool in Hf. injection Hf as <- <-.
  destruct Hc as ((C1 & C2 & C3 & C4 & C5 & C6 & C7 & C8 & C9 & C10)
                  & CA & CB & CC & CD & CE & CF).
  destruct Hs as ((S1 & S2 & S3 & S4 & S5 & S6 & S7 & S8 & S9 & S10)
                  & SA & SB & SC & SD & SE & SF).
  cbn in *. unfold outstanding in *. cbn in *.
  splits; try congruence; auto.
  unfold chunk_budget. rewrite SC, S1, S8, S9. cbn.
  rewrite length_app, repeat_length, CC. reflexivity.
Qed.

Lemma get_next_schedule_keeps (n n' : t) (r : option Result) :
  get_next_schedule n = Some (r, n') → sched_keeps n n'.
Proof.
  unfold get_next_schedule. intros H.
  apply bind_Some in H as (st & n0 & Hg & H).
  apply get_status_keeps in Hg as (-> & ->).
  destruct (negb (ok (_status n))).
  { injection H as <- <-. apply sched_keeps_refl. }
  destruct (_ && _).
  - apply bind_Some in H as (scanner & n1 & Hpop & H).
    apply bind_Some in H as (u & n2 & Hsub & H).
    injection H as <- <-.
    apply pop_pending_scanner_keeps in Hpop.
    apply submit_scanner_keeps in Hsub. eauto with keeps.
  - injection H as <- <-. apply sched_keeps_refl.
Qed.

(** The first half of [get_next]. *)
Lemma get_next_begin_keeps (n n' : t) (r : option Result) :
  get_next_begin n = Some (r, n') →
  step_keeps n n'
  ∧ outstanding n' = outstanding n
  ∧ (is_int32 (_running_threads n) → is_int32 (_running_threads n'))
  ∧ items (_result_chunks n') = items (_result_chunks n)
  ∧ _start n' = true
  ∧ (_start n = true →
     _chunk_pool n' = _chunk_pool n ∧ chunk_budget n' = chunk_budget n)
  ∧ (_start n = false →
     length (_chunk_pool n') = length (_chunk_pool n)
     ∨ length (_chunk_pool n')
       = (chunk_budget n' + length (_chunk_pool n))%nat).
Proof.
  unfold get_next_begin. intros H.
  apply bind_Some in H as (started & n1 & Hs & H).
  assert (Hstart :
    started = OK
    ∧ (ok (_status n) = false → _status n1 = _status n)
    ∧ (is_shutdown (_result_chunks n) = true →
       is_shutdown (_result_chunks n1) = true)
    ∧ items (_result_chunks n1) = items (_result_chunks n)
    ∧ outstanding n1 = outstanding n
    ∧ (is_int32 (_running_threads n) → is_int32 (_running_threads n1))
    ∧ config n1 = config n ∧ chunk_size n1 = chunk_size n
    ∧ _limit n1 = _limit n
    ∧ _start n1 = true ∧ _closed n1 = _closed n
    ∧ (_start n = true → n1 = n)
    ∧ (_start n = false →
       (_chunk_pool n1 = _chunk_pool n
        ∧ _num_scanners n1 = _num_scanners n
        ∧ _chunks_per_scanner n1 = _chunks_per_scanner n)
       ∨ length (_chunk_pool n1)
         = (chunk_budget n1 + length (_chunk_pool n))%nat)).
  { unfold get_next_start in Hs.
    destruct (_start n) eqn:Estart; cbn in Hs.
    { injection Hs as <- <-. splits; auto; discriminate. }
    destruct (ok (_status n)) eqn:Eok; cbn in Hs.
    - apply bind_Some in Hs as (st & n2 & Hst & Hs).
      apply start_scan_thread_keeps in Hst
        as (-> & A & B & C & D & E1 & E2 & E3 & F & G & Hlen).
      apply bind_Some in Hs as (u & n3 & Hu & Hs).
      injection Hs as <- <-.
      unfold _update_status in Hu. injection Hu as <- <-.
      destruct (ok (_status n2)); cbn; unfold outstanding, chunk_budget in *;
        cbn; splits; auto; try congruence;
        try (intros _; right; exact Hlen).
    - injection Hs as <- <-. cbn. unfold outstanding. cbn.
      splits; auto; try discriminate. }
  clear Hs.
  destruct Hstart as (-> & HA & HB & HI & HO & HR & HC1 & HC2 & HC3 & HS & HCl
                      & Hsame & Hnew).
  cbn in H. apply get_next_schedule_keeps in H.
  destruct H as ((S1 & S2 & S3 & S4 & S5 & S6 & S7 & S8 & S9 & S10)
                 & SA & SB & SC & SD & SE & SF).
  split.
  { split; [intros Hs; rewrite SA; auto|].
    split; [intros Hs; rewrite SB; split; [auto|left; exact HI]|].
    splits; try congruence.
    intros Hs. rewrite (Hsame Hs) in *. splits; congruence. }
  split; [congruence|]. split; [auto|]. split; [congruence|].
  split; [congruence|]. split.
  - intros Hs. rewrite (Hsame Hs) in *. unfold chunk_budget.
    rewrite S1, S8, S9. auto.
  - intros Hs. destruct (Hnew Hs) as [(P1 & P2 & P3)|Hlen].
    + left. congruence.
    + right. unfold chunk_budget in *. rewrite SC, S1, S8, S9. exact Hlen.
Qed.

(** The second half of [get_next]: a chunk that leaves the queue is made up
    for by a chunk that enters the chunk pool. *)
Lemma get_next_end_keeps (n n' : t) (r : Result) :
  get_next_end n = Some (r, n') →
  step_keeps n n'
  ∧ thread_pool n' = thread_pool n
  ∧ _running_threads n' = _running_threads n
  ∧ _start n' = _start n
  ∧ chunk_budget n' = chunk_budget n
  ∧ chunks n' = chunks n.
Proof.
  unfold get_next_end, queue_blocking_get.
  destruct (items (_result_chunks n)) as [|c rest] eqn:Ei.
  - destruct (is_shutdown (_result_chunks n)) eqn:Es; [|discriminate].
    unfold bind, _update_status, _get_status. cbn. intros [= <- <-].
    destruct (ok (_status n)) eqn:Eok; cbn;
      unfold step_keeps, chunk_budget, chunks; cbn;
      rewrite ?Ei, ?Es; splits; auto; try congruence.
  - unfold bind, _fill_chunk_pool. cbn.
    destruct (reached_limit _) eqn:Er.
    + unfold _update_status, result_chunks_shutdown. cbn.
      intros [= <- <-].
      destruct (ok (_status n)) eqn:Eok; cbn;
        unfold step_keeps, chunk_budget, chunks; cbn;
        rewrite ?Ei; cbn; splits; auto; try congruence; try lia;
        intros; split; eauto.
    + intros [= <- <-]. cbn.
      unfold step_keeps, chunk_budget, chunks; cbn;
        rewrite ?Ei; cbn; splits; auto; try congruence; try lia;
        intros; split; eauto.
Qed.

Lemma close_begin_keeps (n n' : t) a :
  close_begin n = Some (a, n') →
  step_keeps n n'
  ∧ thread_pool n' = thread_pool n
  ∧ _running_threads n' = _running_threads n
  ∧ _start n' = _start n
  ∧ chunk_budget n' = chunk_budget n
  ∧ chunks n' = chunks n.
Proof.
  unfold close_begin. destruct (_closed n) eqn:Ec.
  { intros [= <- <-]. unfold step_keeps. splits; auto. }
  unfold bind, _update_status, result_chunks_shutdown. cbn.
  intros [= <- <-].
  destruct (ok (_status n)) eqn:Eok; cbn;
    unfold step_keeps, chunk_budget, chunks; cbn;
    splits; auto; try congruence.
Qed.

(** A task of a worker from its first to its last operation. *)
Lemma scanner_thread_keeps (scanner : nat) (n n' : t) a :
  _scanner_thread scanner n = Some (a, n') →
  same_setup n n'
  ∧ (ok (_status n) = false → _status n' = _status n)
  ∧ (is_shutdown (_result_chunks n) = true →
     _result_chunks n' = _result_chunks n)
  ∧ (chunks n' ≤ chunks n)%nat
  ∧ outstanding n' = wrap32 (outstanding n - 1)
  ∧ is_int32 (_running_threads n').
Proof.
  unfold _scanner_thread. intros H.
  apply bind_Some in H as (u1 & n1 & Hb & H).
  apply bind_Some in H as (u2 & n2 & Hr & H).
  apply scanner_thread_body_keeps in Hb.
  unfold add_running_threads in Hr. injection Hr as <- <-.
  assert (Hend : worker_keeps
                   (set_running_threads (wrap32 (_running_threads n1 + -1)) n1)
                   n').
  { destruct (_ =? _).
    - eapply result_chunks_shutdown_keeps; eauto.
    - injection H as <- <-. apply worker_keeps_refl. }
  clear H.
  destruct Hb as (S1 & A1 & B1 & _ & D1 & E1 & _).
  destruct Hend as (S2 & A2 & B2 & _ & D2 & E2 & F2).
  assert (S12 : same_setup n1
                  (set_running_threads (wrap32 (_running_threads n1 + -1)) n1))
    by (unfold same_setup; cbn; splits; reflexivity).
  split; [eauto using same_setup_trans|].
  split; [intros Hs; rewrite A2; cbn; auto; rewrite A1; auto|].
  split; [intros Hs; rewrite B2; cbn; auto; rewrite B1; auto|].
  split; [unfold chunks in *; cbn in *; lia|].
  split.
  - rewrite E2, <- E1. unfold outstanding. cbn.
    unfold wrap32. Z.div_mod_to_equations. lia.
  - apply F2. cbn. apply wrap32_int32.
Qed.

Lemma length_delete_task (i : nat) (task : Task) (l : list Task) :
  l !! i = Some task → length l = S (length (delete i l)).
Proof.
  intros H. rewrite length_delete by eauto.
  apply lookup_lt_Some in H. lia.
Qed.

(** Every step of the node keeps an error status and a queue that is shut
    down. *)
Lemma step_step_keeps (n n' : t) : step n n' → step_keeps n n'.
Proof.
  intros [n0 r n1 H|n0 r n1 H|n0 i task n1 Hi H|n0 r n1 H|n0 r n1 H|n0 script].
  - apply get_next_begin_keeps in H as [H _]. exact H.
  - apply get_next_end_keeps in H as [H _]. exact H.
  - apply scanner_thread_keeps in H
      as ((S1 & S2 & S3 & S4 & S5 & S6 & S7 & S8 & S9 & S10) & A & B & _).
    cbn in *. unfold step_keeps. splits; auto.
    + intros Hs. rewrite (B Hs). auto.
    + intros Hs. splits; congruence.
    + congruence.
  - apply close_begin_keeps in H as [H _]. exact H.
  - unfold close_end in H. destruct (0 <? _); [discriminate|].
    apply bind_Some in H as (u1 & n2 & H1 & H). injection H as <- <-.
    apply close_pending_scanners_keeps in H1.
    apply worker_keeps_step. exact H1.
  - unfold step_keeps. cbn. splits; auto.
Qed.

Lemma outstanding_take_task (i : nat) (task : Task) (n : t) :
  tasks (thread_pool n) !! i = Some task →
  wrap32 (outstanding (take_task i n) - 1) = outstanding n.
Proof.
  intros Hi. unfold outstanding, take_task. cbn.
  rewrite (length_delete_task i task _ Hi).
  unfold wrap32. Z.div_mod_to_equations. lia.
Qed.

Lemma step_counters_inv (n n' : t) :
  counters_inv n → step n n' → counters_inv n'.
Proof.
  intros Hinv Hstep. revert Hinv.
  destruct Hstep
    as [n r n' H|n r n' H|n i task n' Hi H|n r n' H|n r n' H|n script];
    intros (Ho & Hi32 & Hb & Hz).
  - apply get_next_begin_keeps in H
      as (_ & HO & HR & HI & HS & Hsame & Hnew).
    split; [congruence|]. split; [auto|]. split; [|congruence].
    unfold chunks in *. rewrite HI.
    destruct (_start n) eqn:Es.
    + destruct (Hsame eq_refl) as [-> ->]. exact Hb.
    + specialize (Hz eq_refl). destruct (Hnew eq_refl) as [Hl|Hl]; lia.
  - apply get_next_end_keeps in H as (_ & HT & HR & HS & HB & HC).
    unfold counters_inv, outstanding in *. rewrite HT, HR, HS, HB, HC. auto.
  - pose proof (outstanding_take_task i task n Hi) as Hout.
    apply scanner_thread_keeps in H
      as ((S1 & S2 & S3 & S4 & S5 & S6 & S7 & S8 & S9 & S10)
          & _ & _ & HC & HO & HR).
    cbn in *. split; [congruence|]. split; [exact HR|].
    unfold chunk_budget, chunks in *. cbn in *.
    rewrite S1, S8, S9. split; [lia|].
    intros Hs. rewrite S6 in Hs. specialize (Hz Hs). lia.
  - apply close_begin_keeps in H as (_ & HT & HR & HS & HB & HC).
    unfold counters_inv, outstanding in *. rewrite HT, HR, HS, HB, HC. auto.
  - unfold close_end in H. destruct (0 <? _); [discriminate|].
    apply bind_Some in H as (u1 & n2 & H1 & H). injection H as <- <-.
    apply close_pending_scanners_keeps in H1
      as ((S1 & S2 & S3 & S4 & S5 & S6 & S7 & S8 & S9 & S10)
          & _ & _ & _ & HC & HO & HR).
    split; [congruence|]. split; [auto|].
    unfold chunk_budget. rewrite S1, S8, S9. split; [unfold chunk_budget in Hb; lia|].
    intros Hs. rewrite S6 in Hs. specialize (Hz Hs). lia.
  - unfold counters_inv, outstanding, chunk_budget, chunks in *. cbn. auto.
Qed.

Lemma initial_counters_inv (n : t) : initial n → counters_inv n.
Proof.
  intros (_ & _ & _ & Hs & _ & _ & Hq & Hp & _ & _ & Hr & _ & _ & Ht).
  unfold counters_inv, outstanding, chunks.
  rewrite Hr, Ht, Hq, Hp. cbn. splits; auto; try lia.
  unfold is_int32. lia.
Qed.

Lemma reachable_counters_inv (n : t) : reachable n → counters_inv n.
Proof.
  induction 1 as [n Hinit|n n' _ IH Hstep].
  - apply initial_counters_inv. exact Hinit.
  - eapply step_counters_inv; eauto.
Qed.

(** ** Status, queue, chunks and running workers *)

(** X16.  The first error is kept: once the status of the node is not [OK],
    no step of the node changes it, be it of the consumer, of a worker or
    of [close]. *)
Theorem first_error_is_kept (n n' : t) :
  step n n' → ok (_status n) = false → _status n' = _status n.
Proof. intros Hstep. apply step_step_keeps in Hstep as [H _]. exact H. Qed.

(** X17.  Once the queue of results is shut down it stays shut down, and no
    step of the node adds a chunk to it: a step leaves its chunks as they
    are or takes the oldest one out. *)
Theorem shutdown_queue_only_drains (n n' : t) :
  step n n' → is_shutdown (_result_chunks n) = true →
  is_shutdown (_result_chunks n') = true
  ∧ (items (_result_chunks n') = items (_result_chunks n)
     ∨ ∃ c, items (_result_chunks n) = c :: items (_result_chunks n')).
Proof. intros Hstep. apply step_step_keeps in Hstep as (_ & H & _). exact H. Qed.

(** X18.  In every reachable state the chunks of the node, those of the
    chunk pool and those of the queue of results together, are at most the
    [_chunks_per_scanner] times [min(max_hdfs_scanner_num, _num_scanners)]
    chunks that the start of the scan has made; before the start there are
    none. *)
Theorem chunks_within_budget (n : t) :
  reachable n →
  (length (_chunk_pool n) + length (items (_result_chunks n))
   ≤ Z.to_nat (_chunks_per_scanner n
               * Z.min (max_hdfs_scanner_num (config n)) (_num_scanners n)))%nat
  ∧ (_start n = false →
     _chunk_pool n = [] ∧ items (_result_chunks n) = []).
Proof.
  intros Hr. apply reachable_counters_inv in Hr as (_ & _ & Hb & Hz).
  split; [exact Hb|].
  intros Hs. specialize (Hz Hs). unfold chunks in Hz.
  destruct (_chunk_pool n), (items (_result_chunks n)); cbn in Hz;
    try lia; auto.
Qed.

(** X19.  In every reachable state the counter [_running_threads] is the
    number of tasks of the node that wait in the pool, as a 32-bit value;
    with fewer than 2^31 such tasks it is that number, and [close] gets
    past its wait for the workers only when no task of the node is left in
    the pool. *)
Theorem running_threads_counts_tasks (n : t) :
  reachable n →
  _running_threads n
  = wrap32 (Z.of_nat (length (tasks (thread_pool n))))
  ∧ (Z.of_nat (length (tasks (thread_pool n))) < 2147483648 →
     _running_threads n = Z.of_nat (length (tasks (thread_pool n)))
     ∧ ∀ st n', close_end n = Some (st, n') → tasks (thread_pool n) = []).
Proof.
  intros Hr. apply reachable_counters_inv in Hr as (Ho & Hi & _).
  unfold outstanding in Ho. unfold is_int32 in Hi.
  assert (H1 : _running_threads n
               = wrap32 (Z.of_nat (length (tasks (thread_pool n))))).
  { revert Ho. unfold wrap32. intros Ho. Z.div_mod_to_equations. lia. }
  split; [exact H1|].
  intros Hlt.
  assert (H2 : _running_threads n = Z.of_nat (length (tasks (thread_pool n)))).
  { rewrite H1. unfold wrap32. Z.div_mod_to_equations. lia. }
  split; [exact H2|].
  intros st n' Hc. unfold close_end in Hc.
  destruct (0 <? _running_threads n) eqn:E; [discriminate|].
  apply Z.ltb_ge in E.
  destruct (tasks (thread_pool n)); [reflexivity|]. cbn in H2. lia.
Qed.

(** X20.  In every reachable state no scanner waits twice for a worker: the
    scanners of the pending queue and those of the tasks in the pool are
    pairwise different; and a scanner whose data source has failed to open
    waits no more. *)
Theorem scanner_waits_once (n : t) :
  reachable n →
  NoDup (_pending_scanners n ++ (work_function <$> tasks (thread_pool n)))
  ∧ ∀ scanner s,
      _pool n !! scanner = Some s →
      open_calls (ConnectorScanner._data_source s) = 1%nat →
      ConnectorScanner._is_open s = false →
      (scanner ∉ _pending_scanners n)
      ∧ (scanner ∉ (work_function <$> tasks (thread_pool n))).
Proof.
  intros Hr. apply reachable_scanners_inv in Hr as (Hnd & Hopen & _).
  split; [exact Hnd|].
  intros scanner s Hs Hc Ho.
  destruct (Hopen scanner 1%nat false) as [_ Hnot].
  { unfold opens. rewrite list_lookup_fmap, Hs. cbn.
    unfold open_state. rewrite Hc, Ho. reflexivity. }
  specialize (Hnot eq_refl eq_refl). unfold live in Hnot.
  split; intros Hin; apply Hnot, elem_of_app; auto.
Qed.

(** X21.  With a status that is not [OK], [get_next] does not wait: it
    returns end of stream without a chunk, with [OK] for the status
    [EndOfFile] and with the status itself otherwise; it leaves the status
    as it is, and the same call again returns the same and changes nothing
    any more. *)
Theorem get_next_after_end (n : t) :
  ok (_status n) = false →
  let result := {| status := if is_end_of_file (_status n) then OK
                             else _status n;
                   chunk := None; eos := Some true |} in
  ∃ n', get_next n = Some (result, n')
        ∧ _status n' = _status n ∧ _start n' = true
        ∧ get_next n' = Some (result, n').
Proof.
  intros Hok result.
  assert (Hstarted : ∀ m, _start m = true → _status m = _status n →
                          get_next m = Some (result, m)).
  { intros m Hs Hst. unfold get_next, get_next_begin, get_next_start,
      get_next_schedule, _get_status, bind, ret.
    rewrite Hs. cbn. rewrite Hst, Hok. cbn. reflexivity. }
  destruct (_start n) eqn:Es.
  - exists n. split; [apply Hstarted; auto|]. split; [reflexivity|].
    split; [exact Es|]. apply Hstarted; auto.
  - set (n' := set_start true
                 (set_result_chunks (queue_shutdown (_result_chunks n)) n)).
    exists n'. split; [|split; [reflexivity|split; [reflexivity|]]].
    + unfold get_next, get_next_begin, get_next_start,
        get_next_schedule, _get_status, bind, ret.
      rewrite Es, Hok. cbn. rewrite Hok. cbn. reflexivity.
    + apply Hstarted; reflexivity.
Qed.

(** ** The start of the scan *)






(** ** Worked examples *)

Lemma first_error_is_kept_witness : _status node6 = EndOfFile.
Proof.
  apply (first_error_is_kept node5 node6).
  - apply (step_get_next_begin node5
             (Some {| status := OK; chunk := None; eos := Some true |})).
    vm_compute. reflexivity.
  - reflexivity.
Defined.

Lemma shutdown_queue_only_drains_witness :
  is_shutdown (_result_chunks node3) = true
  ∧ (items (_result_chunks node3) = items (_result_chunks node2)
     ∨ ∃ c, items (_result_chunks node2) = c :: items (_result_chunks node3)).
Proof.
  apply (shutdown_queue_only_drains node2 node3).
  - apply (step_get_next_end node2
             {| status := OK; chunk := Some {| num_rows := 1024 |};
                eos := Some false |}).
    vm_compute. reflexivity.
  - reflexivity.
Defined.

Lemma chunks_within_budget_witness :
  (length (_chunk_pool node2) + length (items (_result_chunks node2))
   ≤ Z.to_nat (_chunks_per_scanner node2
               * Z.min (max_hdfs_scanner_num (config node2))
                   (_num_scanners node2)))%nat.
Proof. exact (proj1 (chunks_within_budget node2 node2_reachable)). Defined.

Lemma running_threads_counts_tasks_witness :
  _running_threads node2
  = wrap32 (Z.of_nat (length (tasks (thread_pool node2)))).
Proof.
  exact (proj1 (running_threads_counts_tasks node2 node2_reachable)).
Defined.

Lemma scanner_waits_once_witness :
  NoDup (_pending_scanners node2
           ++ (work_function <$> tasks (thread_pool node2))).
Proof. exact (proj1 (scanner_waits_once node2 node2_reachable)). Defined.

Lemma get_next_after_end_witness :
  ∃ n',
    get_next node5
    = Some ({| status := OK; chunk := None; eos := Some true |}, n')
    ∧ _status n' = EndOfFile ∧ _start n' = true
    ∧ get_next n'
      = Some ({| status := OK; chunk := None; eos := Some true |}, n').
Proof. exact (get_next_after_end node5 eq_refl). Defined.


